(** * Smart airport ride pooling: pricing, ride state machine, distributed
    lock, detour evaluation and the greedy matching cycle.

    Numbers that the Python code holds in floats (coordinates, distances,
    fares, the surge multiplier) are rationals here, so arithmetic is exact.
    The great-circle distance [haversine_km] and the H3 cell index are taken
    as parameters of the sections that use them. *)

From Stdlib Require Import Reals.
From Stdlib Require Import ZArith QArith Qround Qminmax Lia Lqa.
From stdpp Require Import gmap strings list fin_maps sorting.

Local Open Scope Z_scope.

(** ** Results of fallible code *)

Inductive exn : Type :=
  | InvalidStateTransition
  | IndexError
  | KeyError
  | DBError.

Inductive result (A : Type) : Type :=
  | Ok (a : A)
  | Raise (e : exn).
Arguments Ok {A} a.
Arguments Raise {A} e.

(** [x < y] on numbers, as a test. *)
Definition Qltb (x y : Q) : bool :=
  match Qcompare x y with Lt => true | _ => false end.

(** ** src/domain/pricing.py *)

Module Pricing.

(** Python's [round(x)] on a number: nearest integer, ties to even. *)
Definition round_half_even (x : Q) : Z :=
  let f := Qfloor x in
  match Qcompare (x - inject_Z f) (1 # 2) with
  | Lt => f
  | Gt => f + 1
  | Eq => if Z.even f then f else f + 1
  end.

(** Python's [round(x, ndigits)]. *)
Definition py_round (x : Q) (ndigits : Z) : Q :=
  Qred (inject_Z (round_half_even (x * 10 ^ ndigits)) / 10 ^ ndigits).

(** [PoolDiscountPricing.DISCOUNTS = {1: 0.0, 2: 0.20, 3: 0.30}] *)
Definition DISCOUNTS : gmap Z Q :=
  {[ 1 := 0%Q; 2 := (20 # 100)%Q; 3 := (30 # 100)%Q ]}.

Record PoolDiscountPricing : Type := {
  discount : Q;
  surge_multiplier : Q
}.

(** [PoolDiscountPricing.__init__] *)
Definition PoolDiscountPricing_init (passenger_position : Z)
    (surge : Q) : PoolDiscountPricing :=
  {| discount := default (30 # 100)%Q (DISCOUNTS !! Z.min passenger_position 3);
     surge_multiplier := surge |}.

(** [PoolDiscountPricing.calculate] *)
Definition calculate (self : PoolDiscountPricing)
    (distance_km base_fare rate_per_km : Q) : Q :=
  let raw := ((base_fare + distance_km * rate_per_km) * surge_multiplier self)%Q in
  py_round (raw * (1 - discount self)) 2.

Record PricingEngine : Type := {
  base_fare : Q;
  rate_per_km : Q
}.

(** [PricingEngine.compute_surge]; [min] and [max] return their first
    argument on a tie, as Python's do. *)
Definition compute_surge (active_requests available_cabs : Z) : Q :=
  if available_cabs <=? 0 then 3%Q
  else Qmin 3 (Qmax 1 (inject_Z active_requests / inject_Z available_cabs)).

Section Engine.
Variable haversine_km : Q → Q → Q → Q → Q.

(** [PricingEngine.calculate_price] *)
Definition calculate_price (self : PricingEngine)
    (pickup_lat pickup_lng dropoff_lat dropoff_lng : Q)
    (passenger_position active_requests available_cabs : Z) : Q :=
  let distance := haversine_km pickup_lat pickup_lng dropoff_lat dropoff_lng in
  let surge := compute_surge active_requests available_cabs in
  let strategy := PoolDiscountPricing_init passenger_position surge in
  calculate strategy distance (base_fare self) (rate_per_km self).
End Engine.

(** The spec's discount table, in its words: 0% for position 1, 20% for
    position 2, 30% for position 3 and above. *)
Definition discount_of_position (position : Z) : Q :=
  if position =? 1 then 0%Q
  else if position =? 2 then (20 # 100)%Q
  else (30 # 100)%Q.

(** The spec's [clamp(x, lo, hi)]. *)
Definition clamp (x lo hi : Q) : Q :=
  if Qltb x lo then lo
  else if Qltb hi x then hi
  else x.

End Pricing.

(** ** src/domain/enums.py and src/domain/entities.py *)

Inductive RideStatus : Type :=
  | PENDING | MATCHED | ON_TRIP | COMPLETED | CANCELLED.

#[global] Instance RideStatus_eq_dec : EqDecision RideStatus.
Proof. solve_decision. Defined.

Definition RideStatus_to_nat (s : RideStatus) : nat :=
  match s with
  | PENDING => 0 | MATCHED => 1 | ON_TRIP => 2 | COMPLETED => 3 | CANCELLED => 4
  end%nat.

Definition RideStatus_of_nat (n : nat) : option RideStatus :=
  match n with
  | 0 => Some PENDING | 1 => Some MATCHED | 2 => Some ON_TRIP
  | 3 => Some COMPLETED | 4 => Some CANCELLED | _ => None
  end%nat.

#[global] Instance RideStatus_countable : Countable RideStatus.
Proof.
  apply (inj_countable RideStatus_to_nat RideStatus_of_nat).
  by intros [].
Defined.

(** [RIDE_TRANSITIONS]: current status to the set of valid next statuses. *)
Definition RIDE_TRANSITIONS : gmap RideStatus (gset RideStatus) :=
  {[ PENDING := {[ MATCHED; CANCELLED ]};
     MATCHED := {[ ON_TRIP; CANCELLED ]};
     ON_TRIP := {[ COMPLETED ]};
     COMPLETED := ∅;
     CANCELLED := ∅ ]}.

Module Entities.

Record Location : Type := { latitude : Q; longitude : Q }.

Record Ride : Type := {
  id : option Z;
  user_id : Z;
  pickup : Location;
  dropoff : Location;
  status : RideStatus;
  seats_requested : Z;
  luggage_count : Z;
  ride_group_id : option Z;
  idempotency_key : option string;
  price : option Q;
  created_at : option Z
}.

Definition set_status (self : Ride) (s : RideStatus) : Ride :=
  {| id := id self; user_id := user_id self; pickup := pickup self;
     dropoff := dropoff self; status := s;
     seats_requested := seats_requested self;
     luggage_count := luggage_count self;
     ride_group_id := ride_group_id self;
     idempotency_key := idempotency_key self; price := price self;
     created_at := created_at self |}.

(** [Ride.transition_to]: the outcome of the call and the ride object as the
    call leaves it. *)
Definition transition_to (self : Ride) (new_status : RideStatus)
    : result unit * Ride :=
  let allowed := default ∅ (RIDE_TRANSITIONS !! status self) in
  if decide (new_status ∉ allowed) then (Raise InvalidStateTransition, self)
  else (Ok tt, set_status self new_status).

(** The spec's transition table, in its words. *)
Definition allowed_next (current : RideStatus) : list RideStatus :=
  match current with
  | PENDING => [MATCHED; CANCELLED]
  | MATCHED => [ON_TRIP; CANCELLED]
  | ON_TRIP => [COMPLETED]
  | COMPLETED => []
  | CANCELLED => []
  end.

End Entities.

(** ** src/domain/matching.py *)

Module Matching.

(** A geo-point: the tuple [(lat, lng)]. *)
Abbreviation point := (Q * Q)%type.

(** [enumerate(l)], counting from [n]. *)
Fixpoint enumerate_from {A : Type} (n : nat) (l : list A) : list (nat * A) :=
  match l with
  | [] => []
  | x :: l' => (n, x) :: enumerate_from (S n) l'
  end.

Section Detour.
Variable haversine_km : Q → Q → Q → Q → Q.

(** The loop of [_shared_leg] over [j in range(start_idx, end_idx)];
    [stops[j]] raises IndexError out of range. *)
Fixpoint leg_loop (stops : list point) (js : list nat) (total : Q)
    : result Q :=
  match js with
  | [] => Ok total
  | j :: js' =>
    match stops !! j, stops !! (j + 1)%nat with
    | Some a, Some b =>
      leg_loop stops js' (total + haversine_km a.1 a.2 b.1 b.2)%Q
    | _, _ => Raise IndexError
    end
  end.

(** [_shared_leg] *)
Definition _shared_leg (pickups dropoffs : list point)
    (passenger_idx : nat) : result Q :=
  let stops := pickups ++ dropoffs in
  let start_idx := passenger_idx in
  let end_idx := (length pickups + passenger_idx)%nat in
  leg_loop stops (seq start_idx (end_idx - start_idx)) 0%Q.

(** The loop of [detour_ok] over [enumerate(zip(all_pickups, all_dropoffs))]. *)
Fixpoint detour_loop (all_pickups all_dropoffs : list point) (tolerance : Q)
    (items : list (nat * (point * point))) : result bool :=
  match items with
  | [] => Ok true
  | (i, (p, d)) :: rest =>
    let direct := haversine_km p.1 p.2 d.1 d.2 in
    if Qltb direct (1 # 10) then
      detour_loop all_pickups all_dropoffs tolerance rest
    else
      match _shared_leg all_pickups all_dropoffs i with
      | Raise e => Raise e
      | Ok total_shared =>
        if Qltb ((1 + tolerance) * direct) total_shared then Ok false
        else detour_loop all_pickups all_dropoffs tolerance rest
      end
  end.

(** [detour_ok] *)
Definition detour_ok (existing_pickups existing_dropoffs : list point)
    (new_pickup new_dropoff : point) (tolerance : Q) : result bool :=
  let all_pickups := existing_pickups ++ [new_pickup] in
  let all_dropoffs := existing_dropoffs ++ [new_dropoff] in
  detour_loop all_pickups all_dropoffs tolerance
    (enumerate_from 0 (zip all_pickups all_dropoffs)).

(** The spec's words for the shared leg: the hop from stop [j] to stop
    [j+1] of the concatenated stop list, summed from the pickup slot [i]
    up to the dropoff slot [n+i]. *)
Definition hop_distance (stops : list point) (j : nat) : Q :=
  let a := nth j stops (0, 0)%Q in
  let b := nth (S j) stops (0, 0)%Q in
  haversine_km a.1 a.2 b.1 b.2.

Definition sharedLeg_spec (pickups dropoffs : list point) (i : nat) : Q :=
  let n := length pickups in
  foldr Qplus 0%Q (map (hop_distance (pickups ++ dropoffs)) (seq i n)).

Definition directDistance (p d : point) : Q :=
  haversine_km p.1 p.2 d.1 d.2.
(** One passenger's test, in the spec's words: exempt below 0.1 km of direct
    distance, otherwise the shared leg is at most (1 + tolerance) times the
    direct distance. *)
Definition within_tolerance (all_pickups all_dropoffs : list point)
    (tolerance : Q) (item : nat * (point * point)) : Prop :=
  (1 # 10 <= directDistance item.2.1 item.2.2)%Q →
  (sharedLeg_spec all_pickups all_dropoffs item.1
   <= (1 + tolerance) * directDistance item.2.1 item.2.2)%Q.

End Detour.

End Matching.

(** ** src/config.py *)

Module Config.

Record Settings : Type := {
  matching_interval_seconds : Z;
  detour_tolerance : Q;
  h3_resolution : Z;
  base_fare : Q;
  rate_per_km : Q
}.

(** The defaults of the [Settings] class. *)
Definition default_settings : Settings :=
  {| matching_interval_seconds := 15;
     detour_tolerance := (4 # 10)%Q;
     h3_resolution := 7;
     base_fare := 50%Q;
     rate_per_km := 15%Q |}.

End Config.

(** ** src/infrastructure/models.py

    A table is a finite map from primary key to row; an ORM object is a
    primary key with its row's columns.  Only the columns the matching
    worker reads or writes are kept. *)

Module CabModel.
Record t : Type := {
  max_seats : Z;
  max_luggage : Z;
  is_available : bool
}.
Definition set_is_available (self : t) (b : bool) : t :=
  {| max_seats := max_seats self; max_luggage := max_luggage self;
     is_available := b |}.
End CabModel.

Module RideModel.
Record t : Type := {
  user_id : Z;
  pickup_lat : Q;
  pickup_lng : Q;
  dropoff_lat : Q;
  dropoff_lng : Q;
  status : RideStatus;
  seats_requested : Z;
  luggage_count : Z;
  ride_group_id : option Z;
  idempotency_key : option string;
  price : option Q;
  created_at : Z
}.
Definition set_status (self : t) (s : RideStatus) : t :=
  {| user_id := user_id self; pickup_lat := pickup_lat self;
     pickup_lng := pickup_lng self; dropoff_lat := dropoff_lat self;
     dropoff_lng := dropoff_lng self; status := s;
     seats_requested := seats_requested self;
     luggage_count := luggage_count self;
     ride_group_id := ride_group_id self;
     idempotency_key := idempotency_key self; price := price self;
     created_at := created_at self |}.
Definition set_ride_group_id (self : t) (g : option Z) : t :=
  {| user_id := user_id self; pickup_lat := pickup_lat self;
     pickup_lng := pickup_lng self; dropoff_lat := dropoff_lat self;
     dropoff_lng := dropoff_lng self; status := status self;
     seats_requested := seats_requested self;
     luggage_count := luggage_count self;
     ride_group_id := g;
     idempotency_key := idempotency_key self; price := price self;
     created_at := created_at self |}.
Definition set_price (self : t) (p : option Q) : t :=
  {| user_id := user_id self; pickup_lat := pickup_lat self;
     pickup_lng := pickup_lng self; dropoff_lat := dropoff_lat self;
     dropoff_lng := dropoff_lng self; status := status self;
     seats_requested := seats_requested self;
     luggage_count := luggage_count self;
     ride_group_id := ride_group_id self;
     idempotency_key := idempotency_key self; price := p;
     created_at := created_at self |}.
End RideModel.

Module RideGroupModel.
Record t : Type := {
  cab_id : option Z;
  seats_occupied : Z;
  luggage_occupied : Z;
  status : string;
  h3_cell : option string
}.
Definition set_occupied (self : t) (seats luggage : Z) : t :=
  {| cab_id := cab_id self; seats_occupied := seats;
     luggage_occupied := luggage; status := status self;
     h3_cell := h3_cell self |}.
End RideGroupModel.

(** The four tables; of [users] only the primary keys are kept, which the
    foreign key of [rides.user_id] reads. *)
Record Db : Type := {
  rides : gmap Z RideModel.t;
  ride_groups : gmap Z RideGroupModel.t;
  cabs : gmap Z CabModel.t;
  users : gset Z
}.

Definition set_rides (d : Db) (m : gmap Z RideModel.t) : Db :=
  {| rides := m; ride_groups := ride_groups d; cabs := cabs d;
     users := users d |}.
Definition set_ride_groups (d : Db) (m : gmap Z RideGroupModel.t) : Db :=
  {| rides := rides d; ride_groups := m; cabs := cabs d; users := users d |}.
Definition set_cabs (d : Db) (m : gmap Z CabModel.t) : Db :=
  {| rides := rides d; ride_groups := ride_groups d; cabs := m;
     users := users d |}.

(** ** src/infrastructure/repositories.py

    Each query is a function of the rows the session sees.  A query with no
    ORDER BY returns rows in the table's own (fixed) order. *)

Module Repositories.

Definition created_at_le (a b : Z * RideModel.t) : Prop :=
  RideModel.created_at a.2 ≤ RideModel.created_at b.2.

#[global] Instance created_at_le_dec a b : Decision (created_at_le a b).
Proof. unfold created_at_le. apply _. Defined.

(** [RideRepository.get_pending_rides] *)
Definition get_pending_rides (d : Db) : list (Z * RideModel.t) :=
  merge_sort created_at_le
    (filter (λ x, RideModel.status x.2 = PENDING) (map_to_list (rides d))).

(** [RideRepository.get_rides_in_group] *)
Definition get_rides_in_group (group_id : Z) (d : Db)
    : list (Z * RideModel.t) :=
  filter (λ x, RideModel.ride_group_id x.2 = Some group_id)
    (map_to_list (rides d)).

(** [RideGroupRepository.get_active_groups_for_update]; the cell filter is
    added only when [h3_cell] is a non-empty string. *)
Definition get_active_groups_for_update (h3_cell : string) (d : Db)
    : list (Z * RideGroupModel.t) :=
  let active :=
    filter (λ x, RideGroupModel.status x.2 = "ACTIVE")
      (map_to_list (ride_groups d)) in
  if decide (h3_cell = "") then active
  else filter (λ x, RideGroupModel.h3_cell x.2 = Some h3_cell) active.

(** The key the table's sequence hands out at the next insert: above every
    key in use. *)
Definition next_id {A : Type} (m : gmap Z A) : Z :=
  map_fold (λ k _ acc, Z.max k acc) 0 m + 1.

(** [RideGroupRepository.create]: add and flush; the row gets its key. *)
Definition create_group (group : RideGroupModel.t) (d : Db)
    : (Z * RideGroupModel.t) * Db :=
  let new_id := next_id (ride_groups d) in
  ((new_id, group), set_ride_groups d (<[new_id := group]> (ride_groups d))).

(** [CabRepository.get_by_id] *)
Definition get_cab_by_id (cab_id : Z) (d : Db) : option CabModel.t :=
  cabs d !! cab_id.

(** [CabRepository.get_available] *)
Definition get_available (d : Db) : list (Z * CabModel.t) :=
  filter (λ x, CabModel.is_available x.2 = true) (map_to_list (cabs d)).

(** [CabRepository.count_available] *)
Definition count_available (d : Db) : Z :=
  Z.of_nat (length (get_available d)).

End Repositories.

(** ** src/infrastructure/locks.py *)

Module Locks.

(** The Redis keyspace: key to stored string.  Expiry of a key after its
    time to live is the passage of time and is not part of this state. *)
Abbreviation Redis := (gmap string string).

Record DistributedLock : Type := {
  key : string;
  ttl : Z;
  token : string
}.

(** [DistributedLock.__init__]; [uuid] is the value [uuid.uuid4()] drew. *)
Definition DistributedLock_init (key_ : string) (ttl_seconds : Z)
    (uuid : string) : DistributedLock :=
  {| key := "lock:" +:+ key_; ttl := ttl_seconds; token := uuid |}.

(** [redis.set(key, value, nx=True, ex=ttl)]: [Some true] when the key was
    set, [None] when it already existed. *)
Definition redis_set_nx (k v : string) (ex : Z) (r : Redis)
    : option bool * Redis :=
  match r !! k with
  | Some _ => (None, r)
  | None => (Some true, <[k := v]> r)
  end.

(** Python's [bool] on the reply of [set]. *)
Definition bool_of_reply (o : option bool) : bool := default false o.

(** [DistributedLock.acquire] *)
Definition acquire (self : DistributedLock) (r : Redis) : bool * Redis :=
  let '(reply, r') := redis_set_nx (key self) (token self) (ttl self) r in
  (bool_of_reply reply, r').

(** The Lua script of [release], run atomically by [redis.eval]. *)
Definition lua_check_and_delete (k arg : string) (r : Redis) : Z * Redis :=
  if decide (r !! k = Some arg) then (1, delete k r) else (0, r).

(** [DistributedLock.release] *)
Definition release (self : DistributedLock) (r : Redis) : Redis :=
  snd (lua_check_and_delete (key self) (token self) r).

End Locks.

(** ** src/workers/matcher.py *)

Module Matcher.
Import Repositories.

(** What the cycle sees: the Redis keyspace and the committed database. *)
Record World : Type := {
  redis : Locks.Redis;
  database : Db
}.

(** The state one cycle threads through its steps: the rows as the open
    session sees them (its own writes included), the rows last committed,
    the number of database operations issued so far, and the local
    variable [matched]. *)
Record CycleState : Type := {
  session : Db;
  committed : Db;
  ops : nat;
  matched : Z
}.

(** A step either returns or raises, and leaves a state behind in both
    cases. *)
Definition M (A : Type) : Type := CycleState → result A * CycleState.

#[global] Instance M_ret : MRet M := λ A a s, (Ok a, s).

#[global] Instance M_bind : MBind M := λ A B f m s,
  match m s with
  | (Ok a, s') => f a s'
  | (Raise e, s') => (Raise e, s')
  end.

Definition raise {A : Type} (e : exn) : M A := λ s, (Raise e, s).

(** An attribute write on an object of the session: no database round trip,
    the session's view changes. *)
Definition write (f : Db → Db) : M unit := λ s,
  (Ok tt, {| session := f (session s); committed := committed s;
             ops := ops s; matched := matched s |}).

(** [matched += 1] *)
Definition incr_matched : M unit := λ s,
  (Ok tt, {| session := session s; committed := committed s;
             ops := ops s; matched := matched s + 1 |}).

(** The ride's three assignments on a match:
    [ride.status = MATCHED], [ride.ride_group_id = ...], [ride.price = ...]. *)
Definition matched_ride (group_id : Z) (p : Q) (r : RideModel.t) : RideModel.t :=
  RideModel.set_price
    (RideModel.set_ride_group_id (RideModel.set_status r MATCHED)
       (Some group_id))
    (Some p).

Definition assign_ride (ride_id : Z) (group_id : Z) (p : Q) : M unit :=
  write (λ d, set_rides d (alter (matched_ride group_id p) ride_id (rides d))).

(** binning: [cell_rides[cell].append(ride)] on a dict that keeps the order
    in which its keys were first inserted. *)
Fixpoint cell_append {A : Type} (cell : string) (ride : A)
    (cell_rides : list (string * list A)) : list (string * list A) :=
  match cell_rides with
  | [] => [(cell, [ride])]
  | (c, rs) :: rest =>
    if decide (c = cell) then (c, rs ++ [ride]) :: rest
    else (c, rs) :: cell_append cell ride rest
  end.

Definition pickup_of (r : RideModel.t) : Matching.point :=
  (RideModel.pickup_lat r, RideModel.pickup_lng r).
Definition dropoff_of (r : RideModel.t) : Matching.point :=
  (RideModel.dropoff_lat r, RideModel.dropoff_lng r).

(** [gdata]: group id to the pickups and dropoffs of its rides. *)
Abbreviation GData := (gmap Z (list Matching.point * list Matching.point)).

Section Cycle.
Variable haversine_km : Q → Q → Q → Q → Q.
(** [h3.latlng_to_cell] *)
Variable latlng_to_cell : Q → Q → Z → string.
Variable settings : Config.Settings.
(** [faults n] says whether the [n]-th database operation of the cycle
    fails. *)
Variable faults : nat → bool.

(** A database round trip (the flush of pending writes and the statement
    itself): it may fail, and otherwise reads or changes the session's
    rows. *)
Definition exec {A : Type} (f : Db → A * Db) : M A := λ s,
  if faults (ops s) then (Raise DBError, s)
  else let '(a, d) := f (session s) in
       (Ok a, {| session := d; committed := committed s;
                 ops := S (ops s); matched := matched s |}).

Definition query {A : Type} (f : Db → A) : M A :=
  exec (λ d, (f d, d)).

(** [session.commit()] *)
Definition commit : M unit := λ s,
  if faults (ops s) then (Raise DBError, s)
  else (Ok tt, {| session := session s; committed := session s;
                  ops := S (ops s); matched := matched s |}).

Definition ride_h3_cell (lat lng : Q) (resolution : Z) : string :=
  latlng_to_cell lat lng resolution.

Definition bin (pending : list (Z * RideModel.t))
    : list (string * list (Z * RideModel.t)) :=
  foldl (λ cell_rides ride,
           cell_append
             (ride_h3_cell (RideModel.pickup_lat ride.2)
                (RideModel.pickup_lng ride.2) (Config.h3_resolution settings))
             ride cell_rides)
        [] pending.

(** The pre-load loop [for g in groups] filling [gdata]. *)
Fixpoint preload (groups : list (Z * RideGroupModel.t)) (gdata : GData)
    : M GData :=
  match groups with
  | [] => mret gdata
  | g :: rest =>
    existing ← query (get_rides_in_group g.1);
    preload rest
      (<[g.1 := (map (λ r, pickup_of r.2) existing,
                 map (λ r, dropoff_of r.2) existing)]> gdata)
  end.

Section PerRide.
Variable pricing : Pricing.PricingEngine.
Variables active_requests available_cabs : Z.
Variable ride : Z * RideModel.t.

(** The scan [for g in groups] for one ride: [None] when the loop ends
    with [placed] still false, otherwise the working list and [gdata]
    after the match. *)
Fixpoint scan_groups (gdata : GData) (groups : list (Z * RideGroupModel.t))
    : M (option (list (Z * RideGroupModel.t) * GData)) :=
  match groups with
  | [] => mret None
  | g :: rest =>
    let continue_ :=
      r ← scan_groups gdata rest;
      mret ((λ st : list (Z * RideGroupModel.t) * GData,
               (g :: st.1, st.2)) <$> r) in
    cab ← match RideGroupModel.cab_id g.2 with
          | Some c => if decide (c = 0) then mret None
                      else query (get_cab_by_id c)
          | None => mret None
          end;
    let max_s := match cab with Some c => CabModel.max_seats c | None => 4 end in
    let max_l := match cab with Some c => CabModel.max_luggage c | None => 3 end in
    if decide (RideGroupModel.seats_occupied g.2
                 + RideModel.seats_requested ride.2 > max_s
               ∨ RideGroupModel.luggage_occupied g.2
                 + RideModel.luggage_count ride.2 > max_l)
    then continue_
    else
      match gdata !! g.1 with
      | None => raise KeyError
      | Some (pickups, dropoffs) =>
        match Matching.detour_ok haversine_km pickups dropoffs
                (pickup_of ride.2) (dropoff_of ride.2)
                (Config.detour_tolerance settings) with
        | Raise e => raise e
        | Ok false => continue_
        | Ok true =>
          let g' := RideGroupModel.set_occupied g.2
                      (RideGroupModel.seats_occupied g.2
                         + RideModel.seats_requested ride.2)
                      (RideGroupModel.luggage_occupied g.2
                         + RideModel.luggage_count ride.2) in
          write (λ d, set_ride_groups d (<[g.1 := g']> (ride_groups d)));;
          let pickups' := pickups ++ [pickup_of ride.2] in
          let dropoffs' := dropoffs ++ [dropoff_of ride.2] in
          let gdata' := <[g.1 := (pickups', dropoffs')]> gdata in
          let position := Z.of_nat (length pickups') in
          assign_ride ride.1 g.1
            (Pricing.calculate_price haversine_km pricing
               (RideModel.pickup_lat ride.2) (RideModel.pickup_lng ride.2)
               (RideModel.dropoff_lat ride.2) (RideModel.dropoff_lng ride.2)
               position active_requests (Z.max available_cabs 1));;
          incr_matched;;
          mret (Some ((g.1, g') :: rest, gdata'))
        end
      end
  end.

(** The body of [for ride in rides_in_cell]. *)
Definition place_ride (cell : string)
    (st : list (Z * RideGroupModel.t) * GData)
    : M (list (Z * RideGroupModel.t) * GData) :=
  placed ← scan_groups st.2 st.1;
  match placed with
  | Some st' => mret st'
  | None =>
    cabs_ ← query get_available;
    let cab := head cabs_ in
    new_group ← exec (create_group
      {| RideGroupModel.cab_id := fst <$> cab;
         RideGroupModel.seats_occupied := RideModel.seats_requested ride.2;
         RideGroupModel.luggage_occupied := RideModel.luggage_count ride.2;
         RideGroupModel.status := "ACTIVE";
         RideGroupModel.h3_cell := Some cell |});
    match cab with
    | Some c =>
      write (λ d, set_cabs d
        (alter (λ x, CabModel.set_is_available x false) c.1 (cabs d)))
    | None => mret tt
    end;;
    assign_ride ride.1 new_group.1
      (Pricing.calculate_price haversine_km pricing
         (RideModel.pickup_lat ride.2) (RideModel.pickup_lng ride.2)
         (RideModel.dropoff_lat ride.2) (RideModel.dropoff_lng ride.2)
         1 active_requests (Z.max available_cabs 1));;
    incr_matched;;
    mret (st.1 ++ [new_group],
          <[new_group.1 := ([pickup_of ride.2], [dropoff_of ride.2])]> st.2)
  end.
End PerRide.

(** [for ride in rides_in_cell] *)
Fixpoint place_rides (pricing : Pricing.PricingEngine)
    (active_requests available_cabs : Z) (cell : string)
    (rides_in_cell : list (Z * RideModel.t))
    (st : list (Z * RideGroupModel.t) * GData)
    : M (list (Z * RideGroupModel.t) * GData) :=
  match rides_in_cell with
  | [] => mret st
  | ride :: rest =>
    st' ← place_ride pricing active_requests available_cabs ride cell st;
    place_rides pricing active_requests available_cabs cell rest st'
  end.

(** [for cell, rides_in_cell in cell_rides.items()] *)
Fixpoint process_cells (pricing : Pricing.PricingEngine)
    (active_requests available_cabs : Z)
    (cell_rides : list (string * list (Z * RideModel.t))) : M unit :=
  match cell_rides with
  | [] => mret tt
  | (cell, rides_in_cell) :: rest =>
    groups ← query (get_active_groups_for_update cell);
    gdata ← preload groups ∅;
    place_rides pricing active_requests available_cabs cell rides_in_cell
      (groups, gdata);;
    process_cells pricing active_requests available_cabs rest
  end.

(** The block under [async with async_session_factory() as session]:
    [Some n] for its [return n], [None] when control reaches its end. *)
Definition session_block : M (option Z) :=
  let pricing :=
    {| Pricing.base_fare := Config.base_fare settings;
       Pricing.rate_per_km := Config.rate_per_km settings |} in
  pending ← query get_pending_rides;
  match pending with
  | [] => commit;; mret (Some 0)
  | _ :: _ =>
    let active_requests := Z.of_nat (length pending) in
    available_cabs ← query count_available;
    let cell_rides := bin pending in
    process_cells pricing active_requests available_cabs cell_rides;;
    commit;;
    mret None
  end.

(** The state in which the session block starts on a database. *)
Definition initial (d : Db) : CycleState :=
  {| session := d; committed := d; ops := 0; matched := 0 |}.

(** [run_matching_cycle]; [uuid] is the token drawn for this cycle's lock.
    An exception inside the [try] is logged and swallowed, the session is
    closed without commit, and [finally] releases the lock. *)
Definition run_matching_cycle (uuid : string) (w : World) : Z * World :=
  let lock := Locks.DistributedLock_init "matching_engine" 60 uuid in
  let '(acquired, redis1) := Locks.acquire lock (redis w) in
  if negb acquired then (0, {| redis := redis1; database := database w |})
  else
    let '(res, st) :=
      session_block (initial (database w)) in
    let w' := {| redis := Locks.release lock redis1;
                 database := committed st |} in
    match res with
    | Ok (Some n) => (n, w')
    | Ok None => (matched st, w')
    | Raise _ => (matched st, w')
    end.
(** *** Vocabulary of the properties below *)

(** The price of a ride at a position, from the cycle's two recorded counts
    as the worker passes them on. *)
Definition snapshot_price (pricing : Pricing.PricingEngine)
    (active_requests available_cabs : Z) (r : RideModel.t) (position : Z) : Q :=
  Pricing.calculate_price haversine_km pricing
    (RideModel.pickup_lat r) (RideModel.pickup_lng r)
    (RideModel.dropoff_lat r) (RideModel.dropoff_lng r)
    position active_requests (Z.max available_cabs 1).

(** The seat and luggage limits the scan uses for a group: its cab's, or
    4 and 3 when the group has no cab or the cab is not found. *)
Definition cab_of (d : Db) (g : RideGroupModel.t) : option CabModel.t :=
  match RideGroupModel.cab_id g with
  | Some c => if decide (c = 0) then None else get_cab_by_id c d
  | None => None
  end.

Definition group_limits (d : Db) (g : RideGroupModel.t) : Z * Z :=
  (match cab_of d g with Some c => CabModel.max_seats c | None => 4 end,
   match cab_of d g with Some c => CabModel.max_luggage c | None => 3 end).

Definition capacity_exceeded (d : Db) (g : RideGroupModel.t)
    (r : RideModel.t) : Prop :=
  RideGroupModel.seats_occupied g + RideModel.seats_requested r
    > (group_limits d g).1
  ∨ RideGroupModel.luggage_occupied g + RideModel.luggage_count r
    > (group_limits d g).2.

(** A group the scan passes over: the capacity check or the detour check
    fails. *)
Definition rejects (d : Db) (gdata : GData) (r : RideModel.t)
    (g : Z * RideGroupModel.t) : Prop :=
  capacity_exceeded d g.2 r
  ∨ ∃ pickups dropoffs,
      gdata !! g.1 = Some (pickups, dropoffs)
      ∧ Matching.detour_ok haversine_km pickups dropoffs (pickup_of r)
          (dropoff_of r) (Config.detour_tolerance settings) = Ok false.

(** A group that passes both checks, with its history so far. *)
Definition accepts (d : Db) (gdata : GData) (r : RideModel.t)
    (g : Z * RideGroupModel.t)
    (pickups dropoffs : list Matching.point) : Prop :=
  ¬ capacity_exceeded d g.2 r
  ∧ gdata !! g.1 = Some (pickups, dropoffs)
  ∧ Matching.detour_ok haversine_km pickups dropoffs (pickup_of r)
      (dropoff_of r) (Config.detour_tolerance settings) = Ok true.

(** The group as the match leaves it. *)
Definition joined (g : RideGroupModel.t) (r : RideModel.t) : RideGroupModel.t :=
  RideGroupModel.set_occupied g
    (RideGroupModel.seats_occupied g + RideModel.seats_requested r)
    (RideGroupModel.luggage_occupied g + RideModel.luggage_count r).

(** The pricing engine the cycle builds from the settings. *)
Definition engine_of_settings : Pricing.PricingEngine :=
  {| Pricing.base_fare := Config.base_fare settings;
     Pricing.rate_per_km := Config.rate_per_km settings |}.

(** The group the worker creates for a ride no group took, on the first
    available cab if there is one. *)
Definition new_group_for (cell : string) (r : RideModel.t)
    (cab : option (Z * CabModel.t)) : RideGroupModel.t :=
  {| RideGroupModel.cab_id := fst <$> cab;
     RideGroupModel.seats_occupied := RideModel.seats_requested r;
     RideGroupModel.luggage_occupied := RideModel.luggage_count r;
     RideGroupModel.status := "ACTIVE";
     RideGroupModel.h3_cell := Some cell |}.

(** The rows after the new group is inserted and its cab, if any, is marked
    unavailable. *)
Definition with_new_group (d : Db) (cell : string) (r : RideModel.t) : Db :=
  let cab := head (get_available d) in
  let d1 := set_ride_groups d
              (<[next_id (ride_groups d) := new_group_for cell r cab]>
                 (ride_groups d)) in
  match cab with
  | Some c => set_cabs d1
                (alter (λ x, CabModel.set_is_available x false) c.1 (cabs d1))
  | None => d1
  end.

(** Every group of the working list has its entry in [gdata]. *)
Definition covers (st : list (Z * RideGroupModel.t) * GData) : Prop :=
  ∀ g, g ∈ st.1 → is_Some (st.2 !! g.1).

(** A record of the matches of a run: the ride, its group and its
    position, in the order they were made. *)
Definition Match : Type := (Z * RideModel.t) * Z * Z.

Definition match_ride (t : Match) : Z * RideModel.t := t.1.1.

Definition apply_matches (pricing : Pricing.PricingEngine)
    (active_requests available_cabs : Z) (T : list Match)
    (m : gmap Z RideModel.t) : gmap Z RideModel.t :=
  foldl (λ m t,
           alter (matched_ride t.1.2
                    (snapshot_price pricing active_requests available_cabs
                       t.1.1.2 t.2))
                 t.1.1.1 m)
        m T.

(** [step_to m s Q]: from state [s] the step [m] leaves the committed rows
    alone, and either returns a value and a state in [Q], or raises because
    a database operation failed. *)
Definition step_to {A : Type} (m : M A) (s : CycleState)
    (Q : A → CycleState → Prop) : Prop :=
  committed (m s).2 = committed s
  ∧ match (m s).1 with
    | Ok a => Q a (m s).2
    | Raise e => e = DBError ∧ ∃ n, faults n = true
    end.

(** The state after a database round trip that left the rows as [d]. *)
Definition after_op (s : CycleState) (d : Db) : CycleState :=
  {| session := d; committed := committed s; ops := S (ops s);
     matched := matched s |}.

End Cycle.

End Matcher.

(** ** src/domain/pricing.py: the two plain strategies *)

Module Strategies.

(** [StandardPricing.calculate] *)
Definition standard_calculate (distance_km base_fare rate_per_km : Q) : Q :=
  (base_fare + distance_km * rate_per_km)%Q.

(** [SurgePricing]: the object holds its multiplier. *)
Record SurgePricing : Type := { surge_multiplier : Q }.

(** [SurgePricing.calculate] *)
Definition surge_calculate (self : SurgePricing)
    (distance_km base_fare rate_per_km : Q) : Q :=
  ((base_fare + distance_km * rate_per_km) * surge_multiplier self)%Q.

End Strategies.

(** ** src/domain/entities.py: [RideGroup] *)

Module RideGroupEntity.

Record RideGroup : Type := {
  id : option Z;
  cab_id : option Z;
  seats_occupied : Z;
  luggage_occupied : Z;
  status : string
}.

(** [RideGroup.can_accommodate] *)
Definition can_accommodate (self : RideGroup)
    (seats luggage max_seats max_luggage : Z) : bool :=
  (seats_occupied self + seats <=? max_seats)
  && (luggage_occupied self + luggage <=? max_luggage).

Definition set_occupancy (self : RideGroup) (seats luggage : Z) : RideGroup :=
  {| id := id self; cab_id := cab_id self; seats_occupied := seats;
     luggage_occupied := luggage; status := status self |}.

(** [RideGroup.add_passenger] *)
Definition add_passenger (self : RideGroup) (seats luggage : Z) : RideGroup :=
  set_occupancy self (seats_occupied self + seats)
    (luggage_occupied self + luggage).

(** [RideGroup.remove_passenger] *)
Definition remove_passenger (self : RideGroup) (seats luggage : Z) : RideGroup :=
  set_occupancy self (Z.max 0 (seats_occupied self - seats))
    (Z.max 0 (luggage_occupied self - luggage)).

End RideGroupEntity.

(** ** src/infrastructure/locks.py: the context manager *)

Module LockContext.
Import Locks.

Inductive lock_error : Type :=
  | RuntimeError (message : string).

(** [DistributedLock.__aenter__]: the outcome and the keyspace. *)
Definition aenter (self : DistributedLock) (r : Redis)
    : (lock_error + DistributedLock) * Redis :=
  let '(acquired, r') := acquire self r in
  if negb acquired
  then (inl (RuntimeError ("Could not acquire lock: " +:+ key self)), r')
  else (inr self, r').

(** [DistributedLock.__aexit__] *)
Definition aexit (self : DistributedLock) (r : Redis) : Redis :=
  release self r.

(** One call on the keyspace by some holder. *)
Inductive lock_op : Type :=
  | Acquire (l : DistributedLock)
  | Release (l : DistributedLock).

Definition holder_of (o : lock_op) : DistributedLock :=
  match o with Acquire l => l | Release l => l end.

Definition run_lock_op (r : Redis) (o : lock_op) : Redis :=
  match o with
  | Acquire l => (acquire l r).2
  | Release l => release l r
  end.

(** Calls by any holders, one after the other. *)
Definition run_lock_ops (os : list lock_op) (r : Redis) : Redis :=
  foldl run_lock_op r os.

End LockContext.

(** ** src/api/routes/rides.py and src/api/dependencies.py

    A handler is a function of the rows its session sees; it returns or
    raises, and leaves the session's rows behind. *)

Module Routes.
Import Repositories.

Inductive route_error : Type :=
  | HTTPException (status_code : Z)
  | MultipleResultsFound
  | IntegrityError.

Inductive route_result (A : Type) : Type :=
  | Returns (a : A)
  | Fails (e : route_error).
Arguments Returns {A} a.
Arguments Fails {A} e.

(** [get_db]: commit when the handler returns, roll back when it raises. *)
Definition get_db {A : Type} (handler : Db → route_result A * Db) (d : Db)
    : route_result A * Db :=
  match handler d with
  | (Returns a, d') => (Returns a, d')
  | (Fails e, _) => (Fails e, d)
  end.

(** The fields of [RideCreateRequest]. *)
Record RideCreateRequest : Type := {
  user_id : Z;
  pickup_lat : Q;
  pickup_lng : Q;
  dropoff_lat : Q;
  dropoff_lng : Q;
  seats_requested : Z;
  luggage_count : Z;
  idempotency_key : option string
}.

(** [RideRepository.get_by_idempotency_key]; [scalar_one_or_none] raises on
    more than one row. *)
Definition get_by_idempotency_key (k : string) (d : Db)
    : route_result (option (Z * RideModel.t)) :=
  match filter (λ x, RideModel.idempotency_key x.2 = Some k)
          (map_to_list (rides d)) with
  | [] => Returns None
  | [x] => Returns (Some x)
  | _ :: _ :: _ => Fails MultipleResultsFound
  end.

(** The unique constraint on [rides.idempotency_key]: a key that is not
    NULL clashes with a stored ride that has the same key. *)
Definition key_in_use (key : option string) (d : Db) : Prop :=
  match key with
  | Some k =>
    Exists (λ x : Z * RideModel.t, RideModel.idempotency_key x.2 = Some k)
      (map_to_list (rides d))
  | None => False
  end.

#[global] Instance key_in_use_dec key d : Decision (key_in_use key d).
Proof. unfold key_in_use. destruct key; apply _. Defined.

(** [RideRepository.create_ride], called with the fields of [body] and with
    [status]: the row is added and flushed.  The flush raises
    IntegrityError, and stores nothing, when [user_id] is not the key of a
    user (foreign key) or when the idempotency key is in use (unique);
    otherwise the row is stored under the next key.  [now] is the server's
    clock at the insert. *)
Definition create_ride_row (body : RideCreateRequest) (status : RideStatus)
    (now : Z) (d : Db) : route_result (Z * RideModel.t) * Db :=
  let ride :=
    {| RideModel.user_id := user_id body;
       RideModel.pickup_lat := pickup_lat body;
       RideModel.pickup_lng := pickup_lng body;
       RideModel.dropoff_lat := dropoff_lat body;
       RideModel.dropoff_lng := dropoff_lng body;
       RideModel.status := status;
       RideModel.seats_requested := seats_requested body;
       RideModel.luggage_count := luggage_count body;
       RideModel.ride_group_id := None;
       RideModel.idempotency_key := idempotency_key body;
       RideModel.price := None;
       RideModel.created_at := now |} in
  if decide (user_id body ∉ users d) then (Fails IntegrityError, d)
  else if decide (key_in_use (idempotency_key body) d)
  then (Fails IntegrityError, d)
  else
    let new_id := next_id (rides d) in
    (Returns (new_id, ride), set_rides d (<[new_id := ride]> (rides d))).

(** The handler [create_ride]; it leaves [status] at its default. *)
Definition create_ride (body : RideCreateRequest) (now : Z) (d : Db)
    : route_result (Z * RideModel.t) * Db :=
  let create := create_ride_row body PENDING now d in
  match idempotency_key body with
  | Some k =>
    if decide (k = "") then create
    else
      match get_by_idempotency_key k d with
      | Fails e => (Fails e, d)
      | Returns (Some existing) => (Returns existing, d)
      | Returns None => create
      end
  | None => create
  end.

(** The handler [get_ride] *)
Definition get_ride (ride_id : Z) (d : Db)
    : route_result (Z * RideModel.t) * Db :=
  match rides d !! ride_id with
  | None => (Fails (HTTPException 404), d)
  | Some ride => (Returns (ride_id, ride), d)
  end.

Definition set_group_status (g : RideGroupModel.t) (st : string)
    : RideGroupModel.t :=
  {| RideGroupModel.cab_id := RideGroupModel.cab_id g;
     RideGroupModel.seats_occupied := RideGroupModel.seats_occupied g;
     RideGroupModel.luggage_occupied := RideGroupModel.luggage_occupied g;
     RideGroupModel.status := st;
     RideGroupModel.h3_cell := RideGroupModel.h3_cell g |}.

(** The block of [cancel_ride] under [if group:]: free the capacity, and
    when no other ride of the group is active, deactivate the group and
    free its cab. *)
Definition free_group (ride_id : Z) (ride : RideModel.t) (gid : Z)
    (group : RideGroupModel.t) (d : Db) : Db :=
  let group1 :=
    RideGroupModel.set_occupied group
      (Z.max 0 (RideGroupModel.seats_occupied group
                - RideModel.seats_requested ride))
      (Z.max 0 (RideGroupModel.luggage_occupied group
                - RideModel.luggage_count ride)) in
  let d1 := set_ride_groups d (<[gid := group1]> (ride_groups d)) in
  let remaining := get_rides_in_group gid d1 in
  let active :=
    filter (λ r : Z * RideModel.t,
              r.1 ≠ ride_id ∧ RideModel.status r.2 ≠ CANCELLED) remaining in
  match active with
  | _ :: _ => d1
  | [] =>
    let d2 := set_ride_groups d1
                (<[gid := set_group_status group1 "INACTIVE"]> (ride_groups d1)) in
    match RideGroupModel.cab_id group with
    | Some c =>
      if decide (c = 0) then d2
      else match get_cab_by_id c d2 with
           | Some cab =>
             set_cabs d2 (<[c := CabModel.set_is_available cab true]> (cabs d2))
           | None => d2
           end
    | None => d2
    end
  end.

(** The handler [cancel_ride] *)
Definition cancel_ride (ride_id : Z) (d : Db)
    : route_result (Z * RideModel.t) * Db :=
  match rides d !! ride_id with
  | None => (Fails (HTTPException 404), d)
  | Some ride =>
    let allowed := default ∅ (RIDE_TRANSITIONS !! RideModel.status ride) in
    if decide (CANCELLED ∉ allowed) then (Fails (HTTPException 409), d)
    else
      let d1 :=
        match RideModel.ride_group_id ride with
        | Some gid =>
          if decide (gid = 0) then d
          else match ride_groups d !! gid with
               | Some group => free_group ride_id ride gid group d
               | None => d
               end
        | None => d
        end in
      let ride' :=
        RideModel.set_ride_group_id (RideModel.set_status ride CANCELLED) None in
      (Returns (ride_id, ride'),
       set_rides d1 (<[ride_id := ride']> (rides d1)))
  end.

End Routes.

(** ** Sequences of calls on one ride *)

Module Lifecycle.
Import Entities.

(** [transition_to] called with each target in turn, the caller going on
    after a raise: the number of calls that returned, and the ride at the
    end. *)
Fixpoint transition_all (self : Ride) (targets : list RideStatus)
    : nat * Ride :=
  match targets with
  | [] => (0%nat, self)
  | t :: ts =>
    match transition_to self t with
    | (Ok _, self') =>
      let '(n, r) := transition_all self' ts in (S n, r)
    | (Raise _, self') => transition_all self' ts
    end
  end.

(** How far along its life a ride is. *)
Definition stage (s : RideStatus) : nat :=
  match s with
  | PENDING => 0 | MATCHED => 1 | ON_TRIP => 2 | COMPLETED => 3 | CANCELLED => 3
  end%nat.

End Lifecycle.

(** ** What a cycle may do to cabs and groups *)

Module CycleVocabulary.
Import Repositories Matcher.

(** A cab's row later on: as it was, or marked unavailable. *)
Definition cab_kept (c c' : CabModel.t) : Prop :=
  c' = c ∨ c' = CabModel.set_is_available c false.

(** A group's occupancies within the limits the scan uses for it. *)
Definition within_limits (d : Db) (g : RideGroupModel.t) : Prop :=
  RideGroupModel.seats_occupied g ≤ (group_limits d g).1
  ∧ RideGroupModel.luggage_occupied g ≤ (group_limits d g).2.

(** Two rows of one group that differ at most in the occupancies. *)
Definition same_group (g g' : RideGroupModel.t) : Prop :=
  RideGroupModel.cab_id g' = RideGroupModel.cab_id g
  ∧ RideGroupModel.status g' = RideGroupModel.status g
  ∧ RideGroupModel.h3_cell g' = RideGroupModel.h3_cell g.

(** The rows [d] against the rows [d0] of the start: no cab came or went,
    each cab is as it was or marked unavailable; each group of the start is
    still there, and if its row changed, only in occupancies that are
    within its limits. *)
Definition evolved (d0 d : Db) : Prop :=
  (∀ k, match cabs d0 !! k, cabs d !! k with
        | Some c, Some c' => cab_kept c c'
        | None, None => True
        | _, _ => False
        end)
  ∧ (∀ k g0, ride_groups d0 !! k = Some g0 →
       ∃ g, ride_groups d !! k = Some g
            ∧ same_group g0 g ∧ (g = g0 ∨ within_limits d0 g)).

(** The groups of the working list are rows of groups of the start, up to
    occupancy, or new. *)
Definition tracks (d0 : Db) (groups : list (Z * RideGroupModel.t)) : Prop :=
  ∀ k g, (k, g) ∈ groups →
         ∀ g0, ride_groups d0 !! k = Some g0 → same_group g0 g.

End CycleVocabulary.

(** ** The candidate groups of a cell, read off the rows *)

Module Candidates.
Import Repositories Matcher.

(** The foreign key of [rides.ride_group_id]: a ride's group is a row of
    [ride_groups]. *)
Definition references_kept (d : Db) : Prop :=
  ∀ i r k, rides d !! i = Some r → RideModel.ride_group_id r = Some k →
           is_Some (ride_groups d !! k).

(** Rows as creating, matching and cancelling leave them: the foreign key
    holds, and a PENDING ride has no group. *)
Definition consistent (d : Db) : Prop :=
  references_kept d
  ∧ ∀ i r, rides d !! i = Some r → RideModel.status r = PENDING →
           RideModel.ride_group_id r = None.

(** Group [k] with row [g] is a candidate of the cell: its row is ACTIVE
    and carries the cell (every ACTIVE group, for the empty cell name). *)
Definition cell_group (cell : string) (d : Db) (k : Z)
    (g : RideGroupModel.t) : Prop :=
  ride_groups d !! k = Some g
  ∧ RideGroupModel.status g = "ACTIVE"
  ∧ (cell = "" ∨ RideGroupModel.h3_cell g = Some cell).

(** [hs] lists the rides whose group is [k], each once. *)
Definition lists_members (d : Db) (k : Z) (hs : list (Z * RideModel.t))
    : Prop :=
  NoDup hs.*1
  ∧ ∀ i r, (i, r) ∈ hs
           ↔ rides d !! i = Some r ∧ RideModel.ride_group_id r = Some k.

(** The pickups and dropoffs of a list of rides. *)
Definition history_of (hs : list (Z * RideModel.t))
    : list Matching.point * list Matching.point :=
  (map (λ r, pickup_of r.2) hs, map (λ r, dropoff_of r.2) hs).

(** The working list and the histories agree with the rows [d]: the list
    holds each candidate group of the cell once, with its row as it is in
    [d], and nothing else; and the history of each is that of the rides
    whose group it is. *)
Definition agrees (cell : string) (d : Db)
    (st : list (Z * RideGroupModel.t) * GData) : Prop :=
  NoDup st.1.*1
  ∧ (∀ k g, (k, g) ∈ st.1 ↔ cell_group cell d k g)
  ∧ (∀ k g, (k, g) ∈ st.1 →
       ∃ hs, lists_members d k hs ∧ st.2 !! k = Some (history_of hs)).

(** Rides still to be placed: distinct, each with its row as it was
    fetched, and in no group. *)
Definition unplaced (d : Db) (rs : list (Z * RideModel.t)) : Prop :=
  NoDup rs.*1
  ∧ ∀ x, x ∈ rs → rides d !! x.1 = Some x.2
                  ∧ RideModel.ride_group_id x.2 = None.

Section Run.
Variable haversine_km : Q → Q → Q → Q → Q.
Variable settings : Config.Settings.
Variable faults : nat → bool.

(** A cell's turn up to the ride that follows [before] in its list: the
    query for the cell's groups, the pre-load, and the rides before. *)
Definition cell_prefix (pricing : Pricing.PricingEngine)
    (active_requests available_cabs : Z) (cell : string)
    (before : list (Z * RideModel.t))
    : M (list (Z * RideGroupModel.t) * GData) :=
  groups ← query faults (get_active_groups_for_update cell);
  gdata ← preload faults groups ∅;
  place_rides haversine_km settings faults pricing active_requests
    available_cabs cell before (groups, gdata).

(** The ride joins the first group of the working list that passes both
    checks: the groups before it fail one, the groups after it and their
    histories are left alone, only that group's row changes, and the ride
    is priced at the number of rides the group then has. *)
Definition joins_first_fit (pricing : Pricing.PricingEngine)
    (active_requests available_cabs : Z) (ride : Z * RideModel.t)
    (st : list (Z * RideGroupModel.t) * GData) (d : Db)
    (st' : list (Z * RideGroupModel.t) * GData) (d' : Db) : Prop :=
  ∃ before g after pickups dropoffs members,
    st.1 = before ++ g :: after
    ∧ Forall (rejects haversine_km settings d st.2 ride.2) before
    ∧ accepts haversine_km settings d st.2 ride.2 g pickups dropoffs
    ∧ st' = (before ++ (g.1, joined g.2 ride.2) :: after,
             <[g.1 := (pickups ++ [pickup_of ride.2],
                       dropoffs ++ [dropoff_of ride.2])]> st.2)
    ∧ ride_groups d' = <[g.1 := joined g.2 ride.2]> (ride_groups d)
    ∧ cabs d' = cabs d
    ∧ lists_members d' g.1 members
    ∧ rides d' !! ride.1
      = Some (matched_ride g.1
                (snapshot_price haversine_km pricing active_requests
                   available_cabs ride.2 (Z.of_nat (length members)))
                ride.2).

(** Every group of the working list fails a check: a group is created
    under a key that was free, on the first available cab if there is one,
    and appended to the working list with the ride as its history; the ride
    is its only member and is priced at position 1. *)
Definition opens_group (pricing : Pricing.PricingEngine)
    (active_requests available_cabs : Z) (cell : string)
    (ride : Z * RideModel.t)
    (st : list (Z * RideGroupModel.t) * GData) (d : Db)
    (st' : list (Z * RideGroupModel.t) * GData) (d' : Db) : Prop :=
  let new_id := next_id (ride_groups d) in
  let new_group := new_group_for cell ride.2 (head (get_available d)) in
  let row :=
    matched_ride new_id
      (snapshot_price haversine_km pricing active_requests available_cabs
         ride.2 1)
      ride.2 in
  Forall (rejects haversine_km settings d st.2 ride.2) st.1
  ∧ ride_groups d !! new_id = None
  ∧ st' = (st.1 ++ [(new_id, new_group)],
           <[new_id := ([pickup_of ride.2], [dropoff_of ride.2])]> st.2)
  ∧ ride_groups d' = <[new_id := new_group]> (ride_groups d)
  ∧ lists_members d' new_id [(ride.1, row)]
  ∧ rides d' !! ride.1 = Some row.

End Run.

End Candidates.

(** ** src/domain/distance.py

    The great-circle distance itself, over the real numbers and their sine,
    cosine, arc sine and square root; the sections above take it as a
    parameter on rationals. *)

Module Distance.

Definition EARTH_RADIUS_KM : R := 6371%R.

(** [math.radians] *)
Definition radians (x : R) : R := (x * PI / 180)%R.

(** [haversine_km] *)
Definition haversine_km (lat1 lng1 lat2 lng2 : R) : R :=
  let lat1_r := radians lat1 in
  let lat2_r := radians lat2 in
  let dlat := radians (lat2 - lat1) in
  let dlng := radians (lng2 - lng1) in
  let a := ((sin (dlat / 2)) ^ 2
            + cos lat1_r * cos lat2_r * (sin (dlng / 2)) ^ 2)%R in
  (2 * EARTH_RADIUS_KM * asin (sqrt a))%R.

End Distance.

(** ** Concrete collaborators, to run the model on inputs *)

Module Examples.

Definition Qabs_diff (x y : Q) : Q := if Qltb x y then (y - x)%Q else (x - y)%Q.

(** A distance on a flat grid, standing in for the great-circle distance. *)
Definition grid_km (lat1 lng1 lat2 lng2 : Q) : Q :=
  (Qabs_diff lat1 lat2 + Qabs_diff lng1 lng2)%Q.

(** A cell index by bands of latitude, standing in for the H3 index. *)
Definition band_cell (lat lng : Q) (resolution : Z) : string :=
  if Qltb lat 10 then "A" else "B".

Definition no_faults (n : nat) : bool := false.

(** Only the [k]-th database operation fails. *)
Definition fault_at (k : nat) (n : nat) : bool := bool_decide (n = k).

Definition pending_ride (plat plng dlat dlng : Q) (created : Z) : RideModel.t :=
  {| RideModel.user_id := 1;
     RideModel.pickup_lat := plat; RideModel.pickup_lng := plng;
     RideModel.dropoff_lat := dlat; RideModel.dropoff_lng := dlng;
     RideModel.status := PENDING;
     RideModel.seats_requested := 1; RideModel.luggage_count := 0;
     RideModel.ride_group_id := None; RideModel.idempotency_key := None;
     RideModel.price := None; RideModel.created_at := created |}.

Definition sedan : CabModel.t :=
  {| CabModel.max_seats := 4; CabModel.max_luggage := 3;
     CabModel.is_available := true |}.

(** One pending ride of 5 km, no cab, no group, the lock free. *)
Definition world_no_cabs : Matcher.World :=
  {| Matcher.redis := ∅;
     Matcher.database :=
       {| rides := {[ 1 := pending_ride 0 0 5 0 10 ]};
          ride_groups := ∅; cabs := ∅; users := {[ 1 ]} |} |}.

(** A full group on cab 1 and a group with room on cab 2, both in cell A,
    and the histories the pre-load would give them. *)
Definition full_group : RideGroupModel.t :=
  {| RideGroupModel.cab_id := Some 1; RideGroupModel.seats_occupied := 4;
     RideGroupModel.luggage_occupied := 0; RideGroupModel.status := "ACTIVE";
     RideGroupModel.h3_cell := Some "A" |}.

Definition open_group : RideGroupModel.t :=
  {| RideGroupModel.cab_id := Some 2; RideGroupModel.seats_occupied := 1;
     RideGroupModel.luggage_occupied := 0; RideGroupModel.status := "ACTIVE";
     RideGroupModel.h3_cell := Some "A" |}.

Definition busy_sedan : CabModel.t :=
  {| CabModel.max_seats := 4; CabModel.max_luggage := 3;
     CabModel.is_available := false |}.

Definition db_two_groups : Db :=
  {| rides := {[ 9 := pending_ride 0 0 5 0 10 ]};
     ride_groups := {[ 1 := full_group; 2 := open_group ]};
     cabs := {[ 1 := busy_sedan; 2 := busy_sedan ]};
     users := {[ 1 ]} |}.

Definition gdata_two_groups
    : gmap Z (list (Q * Q) * list (Q * Q)) :=
  {[ 1 := ([(0, 0)%Q], [(4, 0)%Q]); 2 := ([(0, 0)%Q], [(6, 0)%Q]) ]}.

(** Three pending rides, two of them in one cell, and one cab. *)
Definition world_three : Matcher.World :=
  {| Matcher.redis := ∅;
     Matcher.database :=
       {| rides := {[ 1 := pending_ride 0 0 5 0 10;
                      2 := pending_ride 0 0 6 0 5;
                      3 := pending_ride 20 0 0 0 7 ]};
          ride_groups := ∅; cabs := {[ 1 := sedan ]};
          users := {[ 1 ]} |} |}.

(** The two groups again, with ride 9 matched into the open group. *)
Definition db_ride_in_group : Db :=
  set_rides db_two_groups
    {[ 9 := Matcher.matched_ride 2 125 (pending_ride 0 0 5 0 10) ]}.

(** A request with an idempotency key. *)
Definition example_request : Routes.RideCreateRequest :=
  {| Routes.user_id := 1; Routes.pickup_lat := 0; Routes.pickup_lng := 0;
     Routes.dropoff_lat := 5; Routes.dropoff_lng := 0;
     Routes.seats_requested := 1; Routes.luggage_count := 0;
     Routes.idempotency_key := Some "k1" |}.

End Examples.

(** * Properties *)

Module PricingFacts.
Import Pricing.

Lemma discount_first s : discount (PoolDiscountPricing_init 1 s) = 0%Q.
Proof. reflexivity. Qed.

Lemma discount_second s : discount (PoolDiscountPricing_init 2 s) = (20 # 100)%Q.
Proof. reflexivity. Qed.

Lemma discount_third_up p s :
  3 ≤ p → discount (PoolDiscountPricing_init p s) = (30 # 100)%Q.
Proof.
  intros Hp. unfold PoolDiscountPricing_init; simpl.
  by rewrite Z.min_r by lia.
Qed.

Lemma discount_nonpositive p s :
  p ≤ 0 → discount (PoolDiscountPricing_init p s) = (30 # 100)%Q.
Proof.
  intros Hp. unfold PoolDiscountPricing_init, DISCOUNTS; simpl.
  rewrite Z.min_l by lia.
  rewrite !lookup_insert_ne by lia. by rewrite lookup_singleton_ne by lia.
Qed.

End PricingFacts.

Module PricingSpec.
Import Pricing PricingFacts.

Lemma discount_tier p s :
  1 ≤ p → discount (PoolDiscountPricing_init p s) = discount_of_position p.
Proof.
  intros Hp. unfold discount_of_position.
  destruct (Z.eqb_spec p 1) as [->|H1]; [apply discount_first|].
  destruct (Z.eqb_spec p 2) as [->|H2]; [apply discount_second|].
  apply discount_third_up. lia.
Qed.

Lemma Qltb_lt x y : Qltb x y = true ↔ (x < y)%Q.
Proof.
  unfold Qltb. rewrite Qlt_alt.
  destruct (x ?= y)%Q; split; congruence.
Qed.

Lemma Qltb_ge x y : Qltb x y = false ↔ (y <= x)%Q.
Proof.
  rewrite <- not_true_iff_false, Qltb_lt. split.
  - apply Qnot_lt_le.
  - apply Qle_not_lt.
Qed.

Lemma surge_clamped a c :
  0 < c →
  (compute_surge a c == clamp (inject_Z a / inject_Z c) 1 3)%Q.
Proof.
  intros Hc. unfold compute_surge, clamp.
  destruct (Z.leb_spec c 0) as [?|_]; [lia|].
  set (x := (inject_Z a / inject_Z c)%Q).
  destruct (Qltb x 1) eqn:E1.
  - apply Qltb_lt in E1.
    rewrite (Q.max_l 1 x) by (apply Qlt_le_weak; exact E1).
    apply Q.min_r. discriminate.
  - apply Qltb_ge in E1. rewrite (Q.max_r 1 x) by exact E1.
    destruct (Qltb 3 x) eqn:E3.
    + apply Qltb_lt in E3. apply Q.min_l. apply Qlt_le_weak; exact E3.
    + apply Qltb_ge in E3. apply Q.min_r. exact E3.
Qed.

(** C5: for every position from 1 up, the price is
    [round((baseFare + distanceKm*ratePerKm) * surge * (1 - discount), 2)]
    with discount 0% at position 1, 20% at position 2 and 30% from position 3
    on; [PricingEngine.calculate_price] is that price at the haversine
    distance and the computed surge; and the four sample prices hold. *)
Theorem price_formula (haversine_km : Q → Q → Q → Q → Q)
    (self : PricingEngine) (plat plng dlat dlng : Q) (a c : Z)
    (distance_km baseFare ratePerKm surge : Q) (position : Z) :
  1 ≤ position →
  calculate (PoolDiscountPricing_init position surge)
      distance_km baseFare ratePerKm
    = py_round ((baseFare + distance_km * ratePerKm) * surge
                * (1 - discount_of_position position)) 2
  ∧ calculate_price haversine_km self plat plng dlat dlng position a c
    = py_round ((base_fare self + haversine_km plat plng dlat dlng
                                  * rate_per_km self)
                * compute_surge a c * (1 - discount_of_position position)) 2
  ∧ calculate (PoolDiscountPricing_init 1 1) 10 50 15 = 200%Q
  ∧ calculate (PoolDiscountPricing_init 2 1) 10 50 15 = 160%Q
  ∧ calculate (PoolDiscountPricing_init 3 1) 10 50 15 = 140%Q
  ∧ calculate (PoolDiscountPricing_init 5 1) 10 50 15
    = calculate (PoolDiscountPricing_init 3 1) 10 50 15.
Proof.
  intros Hp. repeat split; try (vm_compute; reflexivity).
  - unfold calculate. rewrite discount_tier by exact Hp. reflexivity.
  - unfold calculate_price, calculate. rewrite discount_tier by exact Hp.
    reflexivity.
Qed.

Lemma price_formula_witness :
  calculate (PoolDiscountPricing_init 4 2) 10 50 15
    = py_round ((50 + 10 * 15) * 2 * (1 - discount_of_position 4)) 2.
Proof.
  exact (proj1 (price_formula (λ _ _ _ _, 0%Q)
                  {| base_fare := 50; rate_per_km := 15 |} 0 0 0 0 1 1
                  10 50 15 2 4 ltac:(lia))).
Defined.

(** C6: with at least one available cab the surge is
    [activeRequests/availableCabs] clamped to [1.0, 3.0]; with none (or a
    negative count) it is 3.0; and the four sample values hold. *)
Theorem surge_formula (activeRequests availableCabs : Z) :
  (0 < availableCabs →
     (compute_surge activeRequests availableCabs
      == clamp (inject_Z activeRequests / inject_Z availableCabs) 1 3)%Q)
  ∧ (availableCabs ≤ 0 → compute_surge activeRequests availableCabs = 3%Q)
  ∧ (1 <= clamp (inject_Z activeRequests / inject_Z availableCabs) 1 3 <= 3)%Q
  ∧ compute_surge 10 10 = 1%Q
  ∧ compute_surge 30 10 = 3%Q
  ∧ compute_surge 10 0 = 3%Q
  ∧ compute_surge 5 10 = 1%Q.
Proof.
  repeat split; try (vm_compute; reflexivity).
  - apply surge_clamped.
  - intros Hc. unfold compute_surge.
    destruct (Z.leb_spec availableCabs 0); [reflexivity | lia].
  - unfold clamp.
    destruct (Qltb _ 1) eqn:E1; [discriminate|].
    destruct (Qltb 3 _) eqn:E3; [discriminate|].
    by apply Qltb_ge in E1.
  - unfold clamp.
    destruct (Qltb _ 1) eqn:E1; [discriminate|].
    destruct (Qltb 3 _) eqn:E3; [apply Qle_refl|].
    by apply Qltb_ge in E3.
Qed.

Lemma surge_formula_witness :
  (compute_surge 20 10 == clamp (inject_Z 20 / inject_Z 10) 1 3)%Q
  ∧ compute_surge 20 (-1) = 3%Q.
Proof.
  split.
  - apply (proj1 (surge_formula 20 10)). lia.
  - apply (proj1 (proj2 (surge_formula 20 (-1)))). lia.
Defined.

(** C10: for every position at or below 0 the discount is the 30% fallback of
    the dictionary lookup, so the price, also through
    [PricingEngine.calculate_price], carries 30% off and not the first
    passenger's 0%. *)
Theorem nonpositive_position_discount (haversine_km : Q → Q → Q → Q → Q)
    (self : PricingEngine) (plat plng dlat dlng : Q) (a c : Z)
    (distance_km baseFare ratePerKm surge : Q) (passenger_position : Z) :
  passenger_position ≤ 0 →
  DISCOUNTS !! Z.min passenger_position 3 = None
  ∧ discount (PoolDiscountPricing_init passenger_position surge) = (30 # 100)%Q
  ∧ calculate (PoolDiscountPricing_init passenger_position surge)
      distance_km baseFare ratePerKm
    = py_round ((baseFare + distance_km * ratePerKm) * surge
                * (1 - (30 # 100))) 2
  ∧ calculate_price haversine_km self plat plng dlat dlng passenger_position a c
    = py_round ((base_fare self + haversine_km plat plng dlat dlng
                                  * rate_per_km self)
                * compute_surge a c * (1 - (30 # 100))) 2.
Proof.
  intros Hp. repeat split.
  - rewrite Z.min_l by lia. unfold DISCOUNTS.
    rewrite !lookup_insert_ne by lia. by rewrite lookup_singleton_ne by lia.
  - by apply discount_nonpositive.
  - unfold calculate. by rewrite discount_nonpositive.
  - unfold calculate_price, calculate. by rewrite discount_nonpositive.
Qed.

Lemma nonpositive_position_discount_witness :
  calculate (PoolDiscountPricing_init 0 1) 10 50 15 = 140%Q.
Proof.
  pose proof (nonpositive_position_discount (λ _ _ _ _, 0%Q)
                {| base_fare := 50; rate_per_km := 15 |} 0 0 0 0 1 1
                10 50 15 1 0 ltac:(lia)) as (_ & _ & H & _).
  rewrite H. vm_compute. reflexivity.
Defined.

End PricingSpec.

Module StateMachineSpec.
Import Entities.

Lemma allowed_lookup (current target : RideStatus) :
  target ∈ default ∅ (RIDE_TRANSITIONS !! current)
  ↔ target ∈ allowed_next current.
Proof.
  rewrite <- (bool_decide_eq_true (target ∈ default ∅ _)).
  rewrite <- (bool_decide_eq_true (target ∈ allowed_next _)).
  by destruct current, target; vm_compute.
Qed.

(** C7: [transition_to] raises InvalidStateTransition exactly when the
    target is outside the allowed set of the ride's current status
    (PENDING to MATCHED or CANCELLED, MATCHED to ON_TRIP or CANCELLED,
    ON_TRIP to COMPLETED, nothing from COMPLETED or CANCELLED, not even the
    same state).  When it raises, the ride is as it was, so its status is
    unchanged; otherwise the call returns, the ride's status is the target,
    and every other field of the ride is as before. *)
Theorem transition_to_table (ride : Ride) (target : RideStatus) :
  let outcome := (transition_to ride target).1 in
  let ride' := (transition_to ride target).2 in
  (outcome = Raise InvalidStateTransition
   ↔ target ∉ allowed_next (status ride))
  ∧ (target ∉ allowed_next (status ride)
     → outcome = Raise InvalidStateTransition
       ∧ ride' = ride ∧ status ride' = status ride)
  ∧ (target ∈ allowed_next (status ride)
     → outcome = Ok tt
       ∧ status ride' = target
       ∧ id ride' = id ride ∧ user_id ride' = user_id ride
       ∧ pickup ride' = pickup ride ∧ dropoff ride' = dropoff ride
       ∧ seats_requested ride' = seats_requested ride
       ∧ luggage_count ride' = luggage_count ride
       ∧ ride_group_id ride' = ride_group_id ride
       ∧ idempotency_key ride' = idempotency_key ride
       ∧ price ride' = price ride ∧ created_at ride' = created_at ride)
  ∧ (status ride = COMPLETED ∨ status ride = CANCELLED
     → outcome = Raise InvalidStateTransition
       ∧ ride' = ride ∧ status ride' = status ride)
  ∧ (status ride = PENDING
     → outcome = Ok tt ↔ target = MATCHED ∨ target = CANCELLED)
  ∧ (status ride = MATCHED
     → outcome = Ok tt ↔ target = ON_TRIP ∨ target = CANCELLED)
  ∧ (status ride = ON_TRIP → outcome = Ok tt ↔ target = COMPLETED).
Proof.
  cbv zeta.
  assert (Hin : target ∈ allowed_next (status ride)
                → transition_to ride target = (Ok tt, set_status ride target)).
  { intros H. unfold transition_to.
    destruct (decide _) as [Hn|_]; [|done].
    exfalso. apply Hn. by apply allowed_lookup. }
  assert (Hout : target ∉ allowed_next (status ride)
                 → transition_to ride target = (Raise InvalidStateTransition, ride)).
  { intros H. unfold transition_to.
    destruct (decide _) as [_|Hn]; [done|].
    exfalso. apply Hn. intros Hx. apply H. by apply allowed_lookup. }
  assert (Hok : (transition_to ride target).1 = Ok tt
                ↔ target ∈ allowed_next (status ride)).
  { destruct (decide (target ∈ allowed_next (status ride))) as [Hx|Hx].
    - by rewrite (Hin Hx).
    - rewrite (Hout Hx). simpl. split; [discriminate|done]. }
  split; [|split; [|split; [|split; [|split; [|split]]]]].
  - split.
    + intros Hr Hx. rewrite (Hin Hx) in Hr. discriminate.
    + intros Hx. by rewrite (Hout Hx).
  - intros Hx. by rewrite (Hout Hx).
  - intros Hx. rewrite (Hin Hx). simpl. repeat split.
  - intros HE. rewrite Hout; [done|].
    destruct HE as [E|E]; rewrite E; simpl; set_solver.
  - intros E. rewrite Hok, E. simpl. rewrite !elem_of_cons, elem_of_nil. tauto.
  - intros E. rewrite Hok, E. simpl. rewrite !elem_of_cons, elem_of_nil. tauto.
  - intros E. rewrite Hok, E. simpl. rewrite !elem_of_cons, elem_of_nil. tauto.
Qed.

End StateMachineSpec.

Module LockSpec.
Import Locks.

Lemma acquire_free (l : DistributedLock) (r : Redis) :
  r !! key l = None → acquire l r = (true, <[key l := token l]> r).
Proof. intros H. unfold acquire, redis_set_nx. by rewrite H. Qed.

Lemma acquire_held (l : DistributedLock) (r : Redis) :
  is_Some (r !! key l) → acquire l r = (false, r).
Proof. intros [v H]. unfold acquire, redis_set_nx. by rewrite H. Qed.

Lemma release_own (l : DistributedLock) (r : Redis) :
  r !! key l = Some (token l) → release l r = delete (key l) r.
Proof.
  intros H. unfold release, lua_check_and_delete.
  by destruct (decide _).
Qed.

Lemma release_other (l : DistributedLock) (r : Redis) :
  r !! key l ≠ Some (token l) → release l r = r.
Proof.
  intros H. unfold release, lua_check_and_delete.
  by destruct (decide _).
Qed.

Lemma acquire_won (l : DistributedLock) (r : Redis) :
  (acquire l r).1 = true → r !! key l = None.
Proof.
  destruct (r !! key l) as [v|] eqn:E; [|done].
  rewrite acquire_held by eauto. discriminate.
Qed.

(** After a won acquire followed by release, the keyspace is as before. *)
Lemma acquire_release (l : DistributedLock) (r : Redis) :
  r !! key l = None → release l (acquire l r).2 = r.
Proof.
  intros H. rewrite acquire_free by done. simpl.
  rewrite release_own by apply lookup_insert_eq.
  rewrite delete_insert_eq. by apply delete_id.
Qed.

(** C8: [acquire] stores the holder's token under the name only when
    nothing is stored there, and answers true exactly when it did; a second
    [acquire] on the same name while a token is stored answers false and
    changes nothing; [release] deletes the entry only when the stored token
    is this holder's, and leaves the keyspace alone when a different token
    (or none) is stored. *)
Theorem lock_acquire_release (holder other : DistributedLock) (r : Redis) :
  (r !! key holder = None
   → acquire holder r = (true, <[key holder := token holder]> r))
  ∧ (is_Some (r !! key holder) → acquire holder r = (false, r))
  ∧ ((acquire holder r).1 = true ↔ r !! key holder = None)
  ∧ (key other = key holder → (acquire holder r).1 = true
     → acquire other (acquire holder r).2 = (false, (acquire holder r).2))
  ∧ (r !! key holder = Some (token holder)
     → release holder r = delete (key holder) r)
  ∧ (r !! key holder ≠ Some (token holder) → release holder r = r).
Proof.
  split; [apply acquire_free|]. split; [apply acquire_held|].
  split; [|split; [|split; [apply release_own|apply release_other]]].
  - destruct (r !! key holder) as [v|] eqn:E.
    + rewrite acquire_held by eauto. simpl. split; discriminate.
    + by rewrite acquire_free.
  - intros Hk Hacq. apply acquire_held. rewrite Hk.
    destruct (r !! key holder) as [v|] eqn:E.
    + rewrite acquire_held by eauto. simpl. rewrite E. eauto.
    + rewrite acquire_free by done. simpl. rewrite lookup_insert_eq. eauto.
Qed.

End LockSpec.

Module DetourSpec.
Import Matching PricingSpec.

Section Detour.
Variable haversine_km : Q → Q → Q → Q → Q.

Lemma enumerate_from_elem {A : Type} (l : list A) (n i : nat) (x : A) :
  (i, x) ∈ enumerate_from n l ↔ (n ≤ i)%nat ∧ l !! (i - n)%nat = Some x.
Proof.
  revert n. induction l as [|y l IH]; intros n; simpl.
  - rewrite elem_of_nil. split; [done|]. by intros [_ ?].
  - rewrite elem_of_cons, IH. split.
    + intros [[= -> ->]|[Hle Hl]].
      * split; [lia|]. by rewrite Nat.sub_diag.
      * split; [lia|]. by replace (i - n)%nat with (S (i - S n)) by lia.
    + intros [Hle Hl]. destruct (decide (i = n)) as [->|Hne].
      * left. rewrite Nat.sub_diag in Hl. simpl in Hl. congruence.
      * right. split; [lia|].
        by replace (i - n)%nat with (S (i - S n)) in Hl by lia.
Qed.

Lemma enumerate_from_app {A : Type} (l k : list A) (n : nat) :
  enumerate_from n (l ++ k)
  = enumerate_from n l ++ enumerate_from (n + length l) k.
Proof.
  revert n. induction l as [|y l IH]; intros n; simpl.
  - by rewrite Nat.add_0_r.
  - rewrite IH. by replace (S n + length l)%nat with (n + S (length l))%nat by lia.
Qed.

Lemma leg_loop_sum (stops : list point) (js : list nat) (total : Q) :
  (∀ j, j ∈ js → (S j < length stops)%nat) →
  ∃ r, leg_loop haversine_km stops js total = Ok r
       ∧ (r == total + foldr Qplus 0 (map (hop_distance haversine_km stops) js))%Q.
Proof.
  revert total. induction js as [|j js IH]; intros total Hin; cbn [leg_loop].
  - exists total. split; [done|]. simpl. ring.
  - assert (Hj : (S j < length stops)%nat) by (apply Hin; left).
    destruct (lookup_lt_is_Some_2 stops j ltac:(lia)) as [a Ha].
    destruct (lookup_lt_is_Some_2 stops (j + 1) ltac:(lia)) as [b Hb].
    rewrite Ha, Hb.
    destruct (IH (total + haversine_km a.1 a.2 b.1 b.2)%Q) as (r & Hr & Hs).
    { intros j' Hj'. apply Hin. by right. }
    exists r. split; [done|]. rewrite Hs. cbn [map foldr].
    unfold hop_distance at 2.
    rewrite (nth_lookup_Some _ _ _ _ Ha).
    rewrite Nat.add_1_r in Hb. rewrite (nth_lookup_Some _ _ _ _ Hb).
    ring.
Qed.

(** Within the passengers of the zipped lists, [_shared_leg] never indexes
    out of range and computes the spec's sum. *)
Lemma shared_leg_sum (pickups dropoffs : list point) (i : nat) :
  (i < length dropoffs)%nat →
  ∃ r, _shared_leg haversine_km pickups dropoffs i = Ok r
       ∧ (r == sharedLeg_spec haversine_km pickups dropoffs i)%Q.
Proof.
  intros Hi. unfold _shared_leg, sharedLeg_spec.
  replace (length pickups + i - i)%nat with (length pickups) by lia.
  destruct (leg_loop_sum (pickups ++ dropoffs) (seq i (length pickups)) 0%Q)
    as (r & Hr & Hs).
  { intros j Hj. apply elem_of_seq in Hj. rewrite length_app. lia. }
  exists r. split; [done|]. rewrite Hs. ring.
Qed.

Lemma detour_loop_step (all_pickups all_dropoffs : list point) (tolerance : Q)
    (item : nat * (point * point)) (rest : list (nat * (point * point))) :
  (item.1 < length all_dropoffs)%nat →
  (within_tolerance haversine_km all_pickups all_dropoffs tolerance item
   ∧ detour_loop haversine_km all_pickups all_dropoffs tolerance (item :: rest)
     = detour_loop haversine_km all_pickups all_dropoffs tolerance rest)
  ∨ (¬ within_tolerance haversine_km all_pickups all_dropoffs tolerance item
     ∧ detour_loop haversine_km all_pickups all_dropoffs tolerance (item :: rest)
       = Ok false).
Proof.
  destruct item as [i [p d]]. simpl. intros Hi.
  unfold within_tolerance, directDistance. simpl.
  destruct (Qltb (haversine_km p.1 p.2 d.1 d.2) (1 # 10)) eqn:E.
  - left. split; [|done]. intros Hge. apply Qltb_lt in E.
    exfalso. by apply (Qlt_not_le _ _ E).
  - apply Qltb_ge in E.
    destruct (shared_leg_sum all_pickups all_dropoffs i Hi) as (r & -> & Hs).
    destruct (Qltb _ r) eqn:E2.
    + right. split; [|done]. intros H. apply Qltb_lt in E2.
      rewrite Hs in E2. by apply (Qlt_not_le _ _ E2), H.
    + left. split; [|done]. intros _. apply Qltb_ge in E2. by rewrite <- Hs.
Qed.

Lemma detour_loop_total (all_pickups all_dropoffs : list point) (tolerance : Q)
    (items : list (nat * (point * point))) :
  (∀ it, it ∈ items → (it.1 < length all_dropoffs)%nat) →
  (detour_loop haversine_km all_pickups all_dropoffs tolerance items = Ok true
   ∧ ∀ it, it ∈ items → within_tolerance haversine_km all_pickups all_dropoffs tolerance it)
  ∨ (detour_loop haversine_km all_pickups all_dropoffs tolerance items = Ok false
     ∧ ∃ it, it ∈ items
             ∧ ¬ within_tolerance haversine_km all_pickups all_dropoffs tolerance it).
Proof.
  induction items as [|it items IH]; intros Hr.
  - left. split; [done|]. intros it Hit. by apply elem_of_nil in Hit.
  - destruct (detour_loop_step all_pickups all_dropoffs tolerance it items)
      as [[Hok ->]|[Hbad ->]]; [apply Hr; left| |].
    + destruct IH as [[-> Hall]|[-> (it' & Hin & Hbad)]].
      * intros it' Hit'. apply Hr. by right.
      * left. split; [done|]. intros it' [->|Hit']%elem_of_cons; auto.
      * right. split; [done|]. exists it'. split; [by right|done].
    + right. split; [done|]. exists it. split; [left|done].
Qed.

(** The scan stops at the first passenger out of tolerance: whatever
    follows that passenger in the list is not looked at. *)
Lemma detour_loop_first_violation (all_pickups all_dropoffs : list point)
    (tolerance : Q) (before after : list (nat * (point * point)))
    (it : nat * (point * point)) :
  (∀ it', it' ∈ before ++ [it] → (it'.1 < length all_dropoffs)%nat) →
  (∀ it', it' ∈ before → within_tolerance haversine_km all_pickups all_dropoffs tolerance it') →
  ¬ within_tolerance haversine_km all_pickups all_dropoffs tolerance it →
  detour_loop haversine_km all_pickups all_dropoffs tolerance
    (before ++ it :: after) = Ok false.
Proof.
  induction before as [|b before IH]; intros Hr Hok Hbad; simpl app.
  - destruct (detour_loop_step all_pickups all_dropoffs tolerance it after)
      as [[H _]|[_ ->]]; [apply Hr; left|done|done].
  - destruct (detour_loop_step all_pickups all_dropoffs tolerance b
                (before ++ it :: after)) as [[_ ->]|[H _]].
    + apply Hr. left.
    + apply IH; [|intros; apply Hok; by right|done].
      intros it' Hit'. apply Hr. by right.
    + exfalso. apply H, Hok. left.
Qed.

Lemma zip_items_in_range (all_pickups all_dropoffs : list point)
    (it : nat * (point * point)) :
  it ∈ enumerate_from 0 (zip all_pickups all_dropoffs) ↔
  all_pickups !! it.1 = Some it.2.1 ∧ all_dropoffs !! it.1 = Some it.2.2.
Proof.
  destruct it as [i [p d]]. rewrite enumerate_from_elem, Nat.sub_0_r.
  rewrite lookup_zip_with_Some. cbn [fst snd]. split.
  - intros (_ & x & y & [= -> ->] & Hx & Hy). done.
  - intros [Hp Hd]. split; [lia|]. by exists p, d.
Qed.

(** [detour_ok] never raises: every index [_shared_leg] uses is in range. *)
Lemma detour_ok_total (existing_pickups existing_dropoffs : list point)
    (new_pickup new_dropoff : point) (tolerance : Q) :
  ∃ b, detour_ok haversine_km existing_pickups existing_dropoffs
         new_pickup new_dropoff tolerance = Ok b.
Proof.
  unfold detour_ok.
  destruct (detour_loop_total (existing_pickups ++ [new_pickup])
              (existing_dropoffs ++ [new_dropoff]) tolerance
              (enumerate_from 0 (zip (existing_pickups ++ [new_pickup])
                                     (existing_dropoffs ++ [new_dropoff]))))
    as [[-> _]|[-> _]]; eauto.
  intros it [_ Hd]%zip_items_in_range. by apply lookup_lt_Some in Hd.
Qed.

Lemma enumerate_from_lookup {A : Type} (l : list A) (n k : nat) :
  enumerate_from n l !! k = (λ x, ((n + k)%nat, x)) <$> l !! k.
Proof.
  revert n k. induction l as [|y l IH]; intros n [|k]; simpl; try done.
  - by rewrite Nat.add_0_r.
  - rewrite IH. by replace (S n + k)%nat with (n + S k)%nat by lia.
Qed.

Lemma take_enumerate_elem {A : Type} (l : list A) (i : nat) (it : nat * A) :
  it ∈ take i (enumerate_from 0 l) →
  (it.1 < i)%nat ∧ it ∈ enumerate_from 0 l.
Proof.
  intros (k & Hk)%list_elem_of_lookup.
  apply lookup_take_Some in Hk as [Hk Hlt].
  split; [|by eapply list_elem_of_lookup_2].
  rewrite enumerate_from_lookup in Hk.
  destruct (l !! k); simplify_eq/=. done.
Qed.

(** C3: for parallel pickup and dropoff histories, [detour_ok] returns, and
    it returns true exactly when every passenger [i] (the candidate last)
    whose direct distance is at least 0.1 km has a shared leg, summed hop by
    hop from stop [i] to stop [n+i] of the pickups followed by the dropoffs,
    of at most (1 + tolerance) times the direct distance; and the scan
    answers false at the first passenger out of tolerance, whatever comes
    after that passenger. *)
Theorem detour_ok_iff (existingPickups existingDropoffs : list point)
    (candidatePickup candidateDropoff : point) (tolerance : Q) :
  length existingPickups = length existingDropoffs →
  let all_pickups := existingPickups ++ [candidatePickup] in
  let all_dropoffs := existingDropoffs ++ [candidateDropoff] in
  let verdict := detour_ok haversine_km existingPickups existingDropoffs
                   candidatePickup candidateDropoff tolerance in
  (verdict = Ok true ∨ verdict = Ok false)
  ∧ (verdict = Ok true ↔
     ∀ (i : nat) (p d : point),
       all_pickups !! i = Some p → all_dropoffs !! i = Some d →
       (1 # 10 <= directDistance haversine_km p d)%Q →
       (sharedLeg_spec haversine_km all_pickups all_dropoffs i
        <= (1 + tolerance) * directDistance haversine_km p d)%Q)
  ∧ (∀ (i : nat) (p d : point) (after : list (nat * (point * point))),
       all_pickups !! i = Some p → all_dropoffs !! i = Some d →
       ¬ within_tolerance haversine_km all_pickups all_dropoffs tolerance
           (i, (p, d)) →
       (∀ it, it ∈ enumerate_from 0 (zip all_pickups all_dropoffs) →
              (it.1 < i)%nat →
              within_tolerance haversine_km all_pickups all_dropoffs
                tolerance it) →
       detour_loop haversine_km all_pickups all_dropoffs tolerance
         (take i (enumerate_from 0 (zip all_pickups all_dropoffs))
          ++ (i, (p, d)) :: after) = Ok false).
Proof.
  intros Hlen all_pickups all_dropoffs verdict.
  pose proof (detour_loop_total all_pickups all_dropoffs tolerance
                (enumerate_from 0 (zip all_pickups all_dropoffs))) as Htot.
  assert (Hrange : ∀ it, it ∈ enumerate_from 0 (zip all_pickups all_dropoffs)
                         → (it.1 < length all_dropoffs)%nat).
  { intros it [_ Hd]%zip_items_in_range. by apply lookup_lt_Some in Hd. }
  specialize (Htot Hrange).
  change (detour_loop haversine_km all_pickups all_dropoffs tolerance
            (enumerate_from 0 (zip all_pickups all_dropoffs)))
    with verdict in Htot.
  split; [|split].
  - destruct Htot as [[-> _]|[-> _]]; auto.
  - split.
    + intros Hv i p d Hp Hd. destruct Htot as [[_ Hall]|[Hf _]]; [|congruence].
      apply (Hall (i, (p, d))). by apply zip_items_in_range.
    + intros Hall. destruct Htot as [[-> _]|[_ (it & Hin & Hbad)]]; [done|].
      exfalso. apply Hbad. destruct it as [i [p d]].
      apply zip_items_in_range in Hin as [Hp Hd]. exact (Hall i p d Hp Hd).
  - intros i p d after Hp Hd Hbad Hbefore.
    apply detour_loop_first_violation; [|intros it Hit|done].
    + intros it [Hit| ->%list_elem_of_singleton]%elem_of_app.
      * apply Hrange. by apply take_enumerate_elem in Hit as [_ ?].
      * by apply lookup_lt_Some in Hd.
    + apply take_enumerate_elem in Hit as [Hlt Hit]. by apply Hbefore.
Qed.

End Detour.

Lemma detour_ok_iff_witness :
  Matching.detour_ok Examples.grid_km [(0, 0)%Q] [(5, 0)%Q] (0, 0)%Q (6, 0)%Q
    (4 # 10) = Ok true
  ∨ Matching.detour_ok Examples.grid_km [(0, 0)%Q] [(5, 0)%Q] (0, 0)%Q (6, 0)%Q
      (4 # 10) = Ok false.
Proof.
  exact (proj1 (detour_ok_iff Examples.grid_km [(0, 0)%Q] [(5, 0)%Q]
                  (0, 0)%Q (6, 0)%Q (4 # 10) eq_refl)).
Defined.

End DetourSpec.

Module MatcherSpec.
Import Repositories Matcher Candidates.

Section Cycle.
Variable haversine_km : Q → Q → Q → Q → Q.
Variable latlng_to_cell : Q → Q → Z → string.
Variable settings : Config.Settings.
Variable faults : nat → bool.

#[local] Abbreviation step_to := (step_to faults).
#[local] Abbreviation exec := (exec faults).
#[local] Abbreviation query := (query faults).
#[local] Abbreviation scan_groups :=
  (scan_groups haversine_km settings faults).
#[local] Abbreviation place_ride := (place_ride haversine_km settings faults).
#[local] Abbreviation place_rides := (place_rides haversine_km settings faults).
#[local] Abbreviation process_cells :=
  (process_cells haversine_km settings faults).
#[local] Abbreviation rejects := (rejects haversine_km settings).
#[local] Abbreviation accepts := (accepts haversine_km settings).
#[local] Abbreviation snapshot_price := (snapshot_price haversine_km).
#[local] Abbreviation apply_matches := (apply_matches haversine_km).

(** *** Rules for the steps *)

Lemma bind_run {A B : Type} (m : M A) (f : A → M B) (s : CycleState) :
  (m ≫= f) s = match m s with
               | (Ok a, s') => f a s'
               | (Raise e, s') => (Raise e, s')
               end.
Proof. reflexivity. Qed.

Lemma step_ret {A : Type} (a : A) (s : CycleState)
    (Q : A → CycleState → Prop) :
  Q a s → step_to (mret a) s Q.
Proof. intros H. by split. Qed.

Lemma step_bind {A B : Type} (m : M A) (f : A → M B) (s : CycleState)
    (Q : B → CycleState → Prop) :
  step_to m s (λ a s', step_to (f a) s' Q) → step_to (m ≫= f) s Q.
Proof.
  unfold Matcher.step_to. rewrite bind_run.
  destruct (m s) as [[a|e] s']; simpl.
  - intros [Hc [Hc' H]]. split; [congruence|done].
  - intros [Hc H]. by split.
Qed.

Lemma step_mono {A : Type} (m : M A) (s : CycleState)
    (Q Q' : A → CycleState → Prop) :
  step_to m s Q → (∀ a s', Q a s' → Q' a s') → step_to m s Q'.
Proof.
  unfold Matcher.step_to. destruct (m s) as [[a|e] s']; simpl.
  - intros [Hc H] HQ. split; [done|]. by apply HQ.
  - intros [Hc H] _. by split.
Qed.

Lemma step_exec {A : Type} (f : Db → A * Db) (s : CycleState)
    (Q : A → CycleState → Prop) :
  (faults (ops s) = false → Q (f (session s)).1 (after_op s (f (session s)).2)) →
  step_to (exec f) s Q.
Proof.
  unfold Matcher.step_to, Matcher.exec.
  destruct (faults (ops s)) eqn:E; simpl.
  - intros _. split; [done|]. split; [done|]. by exists (ops s).
  - destruct (f (session s)) as [a d]. simpl. intros H. split; [done|]. by apply H.
Qed.

Lemma step_query {A : Type} (f : Db → A) (s : CycleState)
    (Q : A → CycleState → Prop) :
  (faults (ops s) = false → Q (f (session s)) (after_op s (session s))) →
  step_to (query f) s Q.
Proof. intros H. by apply step_exec. Qed.

Lemma step_write (f : Db → Db) (s : CycleState)
    (Q : unit → CycleState → Prop) :
  Q tt {| session := f (session s); committed := committed s;
          ops := ops s; matched := matched s |} →
  step_to (write f) s Q.
Proof. intros H. by split. Qed.

Lemma step_incr (s : CycleState) (Q : unit → CycleState → Prop) :
  Q tt {| session := session s; committed := committed s;
          ops := ops s; matched := matched s + 1 |} →
  step_to incr_matched s Q.
Proof. intros H. by split. Qed.

(** *** The scan of one ride over the groups of its cell *)

Section PerRide.
Variable pricing : Pricing.PricingEngine.
Variables active_requests available_cabs : Z.
Variable ride : Z * RideModel.t.

#[local] Abbreviation scan := (scan_groups pricing active_requests available_cabs ride).

(** The cab look-up at the head of the loop body changes neither the rows
    nor [matched]. *)
Lemma step_cab (g : RideGroupModel.t) (s : CycleState)
    (Q : option CabModel.t → CycleState → Prop) :
  (∀ s', session s' = session s → matched s' = matched s →
         committed s' = committed s → Q (cab_of (session s) g) s') →
  step_to (match RideGroupModel.cab_id g with
           | Some c => if decide (c = 0) then mret None
                       else query (get_cab_by_id c)
           | None => mret None
           end) s Q.
Proof.
  intros H. unfold cab_of in H. destruct (RideGroupModel.cab_id g) as [c|].
  - destruct (decide (c = 0)).
    + apply step_ret. by apply H.
    + apply step_query. intros _. by apply H.
  - apply step_ret. by apply H.
Qed.

Lemma scan_cons_reject (gdata : GData) (g : Z * RideGroupModel.t)
    (rest : list (Z * RideGroupModel.t)) (s : CycleState)
    (Q : option (list (Z * RideGroupModel.t) * GData) → CycleState → Prop) :
  rejects (session s) gdata ride.2 g →
  (∀ s', session s' = session s → matched s' = matched s →
     step_to (scan gdata rest) s'
       (λ r s'', Q ((λ st : list (Z * RideGroupModel.t) * GData,
                       (g :: st.1, st.2)) <$> r) s'')) →
  step_to (scan gdata (g :: rest)) s Q.
Proof.
  intros Hrej Hrest. cbn [Matcher.scan_groups].
  apply step_bind, step_cab. intros s' Hs Hm Hc.
  assert (Hcont : step_to
            (r ← scan gdata rest;
             mret ((λ st : list (Z * RideGroupModel.t) * GData,
                      (g :: st.1, st.2)) <$> r)) s' Q).
  { apply step_bind. eapply step_mono; [by apply Hrest|].
    intros r s'' HQ. by apply step_ret. }
  destruct (decide _) as [Hcap|Hcap]; [exact Hcont|].
  destruct Hrej as [Hex|(ps & ds & Hg & Hd)].
  { exfalso. apply Hcap. exact Hex. }
  rewrite Hg, Hd. exact Hcont.
Qed.

Lemma scan_none (gdata : GData) (groups : list (Z * RideGroupModel.t))
    (s : CycleState) :
  Forall (rejects (session s) gdata ride.2) groups →
  step_to (scan gdata groups) s
    (λ r s', r = None ∧ session s' = session s ∧ matched s' = matched s).
Proof.
  revert s. induction groups as [|g rest IH]; intros s Hall.
  - by apply step_ret.
  - apply Forall_cons in Hall as [Hg Hrest].
    apply scan_cons_reject; [done|]. intros s' Hs Hm.
    eapply step_mono; [apply IH; by rewrite Hs|].
    intros r s'' (-> & Hs'' & Hm''). simpl. split; [done|]. split; congruence.
Qed.

Lemma scan_first_fit (gdata : GData)
    (before after : list (Z * RideGroupModel.t)) (g : Z * RideGroupModel.t)
    (pickups dropoffs : list Matching.point) (s : CycleState) :
  Forall (rejects (session s) gdata ride.2) before →
  accepts (session s) gdata ride.2 g pickups dropoffs →
  step_to (scan gdata (before ++ g :: after)) s
    (λ r s',
       r = Some (before ++ (g.1, joined g.2 ride.2) :: after,
                 <[g.1 := (pickups ++ [pickup_of ride.2],
                           dropoffs ++ [dropoff_of ride.2])]> gdata)
       ∧ session s'
         = set_rides
             (set_ride_groups (session s)
                (<[g.1 := joined g.2 ride.2]> (ride_groups (session s))))
             (alter (matched_ride g.1
                       (snapshot_price pricing active_requests available_cabs
                          ride.2
                          (Z.of_nat (length (pickups ++ [pickup_of ride.2])))))
                    ride.1 (rides (session s)))
       ∧ matched s' = matched s + 1).
Proof.
  revert s. induction before as [|g0 before IH]; intros s Hall Hacc.
  - simpl app. cbn [Matcher.scan_groups].
    apply step_bind, step_cab. intros s' Hs Hm Hc.
    destruct Hacc as (Hcap & Hg & Hd).
    destruct (decide _) as [Hex|_]; [by exfalso; apply Hcap|].
    rewrite Hg, Hd.
    apply step_bind, step_write, step_bind, step_write, step_bind, step_incr,
      step_ret.
    simpl. rewrite Hs, Hm. done.
  - apply Forall_cons in Hall as [Hg0 Hrest]. simpl app.
    apply scan_cons_reject; [done|]. intros s' Hs Hm.
    eapply step_mono; [apply IH; by rewrite Hs|].
    intros r s'' (-> & Hs'' & Hm''). simpl. rewrite Hs'', Hm'', Hs, Hm. done.
Qed.

(** Every group with an entry in [gdata] either passes both checks or is
    passed over: the checks are decidable and [detour_ok] returns. *)
Lemma accepts_or_rejects (d : Db) (gdata : GData) (g : Z * RideGroupModel.t) :
  is_Some (gdata !! g.1) →
  rejects d gdata ride.2 g
  ∨ ∃ pickups dropoffs, accepts d gdata ride.2 g pickups dropoffs.
Proof.
  intros [[ps ds] Hg].
  destruct (decide (capacity_exceeded d g.2 ride.2)) as [Hcap|Hcap].
  { left. by left. }
  destruct (DetourSpec.detour_ok_total haversine_km ps ds (pickup_of ride.2)
              (dropoff_of ride.2) (Config.detour_tolerance settings))
    as [[|] Hd].
  - right. by exists ps, ds.
  - left. right. by exists ps, ds.
Qed.

Lemma first_fit_split (d : Db) (gdata : GData)
    (groups : list (Z * RideGroupModel.t)) :
  covers (groups, gdata) →
  Forall (rejects d gdata ride.2) groups
  ∨ ∃ before g after pickups dropoffs,
      groups = before ++ g :: after
      ∧ Forall (rejects d gdata ride.2) before
      ∧ accepts d gdata ride.2 g pickups dropoffs.
Proof.
  unfold covers. simpl. induction groups as [|g rest IH]; intros Hcov.
  - by left.
  - destruct (accepts_or_rejects d gdata g) as [Hrej|(ps & ds & Hacc)].
    { apply Hcov. left. }
    + destruct IH as [Hall|(before & g' & after & ps & ds & -> & Hb & Hacc)].
      { intros g' Hg'. apply Hcov. by right. }
      * left. by constructor.
      * right. exists (g :: before), g', after, ps, ds.
        split; [done|]. split; [by constructor|done].
    + right. by exists [], g, rest, ps, ds.
Qed.

#[local] Abbreviation place := (place_ride pricing active_requests available_cabs ride).

(** No group takes the ride: a new group is created and appended. *)
Lemma place_ride_new (cell : string) (groups : list (Z * RideGroupModel.t))
    (gdata : GData) (s : CycleState) :
  Forall (rejects (session s) gdata ride.2) groups →
  step_to (place cell (groups, gdata)) s
    (λ st' s',
       let d := session s in
       let new_id := next_id (ride_groups d) in
       st' = (groups ++ [(new_id,
                          new_group_for cell ride.2 (head (get_available d)))],
              <[new_id := ([pickup_of ride.2], [dropoff_of ride.2])]> gdata)
       ∧ session s'
         = set_rides (with_new_group d cell ride.2)
             (alter (matched_ride new_id
                       (snapshot_price pricing active_requests available_cabs
                          ride.2 1))
                    ride.1 (rides d))
       ∧ matched s' = matched s + 1).
Proof.
  intros Hall. unfold Matcher.place_ride. cbn [fst snd].
  apply step_bind. eapply step_mono; [by apply scan_none|].
  intros r s1 (-> & Hs1 & Hm1).
  apply step_bind, step_query. intros _.
  apply step_bind, step_exec. intros _. cbn [fst snd after_op session].
  apply step_bind.
  rewrite Hs1. unfold with_new_group.
  destruct (head (get_available (session s))) as [c|].
  - apply step_write, step_bind, step_write, step_bind, step_incr, step_ret.
    simpl. by rewrite Hm1.
  - apply step_ret, step_bind, step_write, step_bind, step_incr, step_ret.
    simpl. by rewrite Hm1.
Qed.

Lemma covers_join (groups before after : list (Z * RideGroupModel.t))
    (g : Z * RideGroupModel.t) (g' : RideGroupModel.t) (gdata : GData)
    (v : list Matching.point * list Matching.point) :
  groups = before ++ g :: after →
  covers (groups, gdata) →
  covers (before ++ (g.1, g') :: after, <[g.1 := v]> gdata).
Proof.
  unfold covers. simpl. intros -> Hcov x Hx.
  rewrite lookup_insert. case_decide; [eauto|].
  apply Hcov. apply elem_of_app in Hx as [Hx|Hx]; [set_solver|].
  apply elem_of_cons in Hx as [->|Hx]; [done|set_solver].
Qed.

Lemma covers_new (groups : list (Z * RideGroupModel.t)) (gdata : GData)
    (g : Z * RideGroupModel.t)
    (v : list Matching.point * list Matching.point) :
  covers (groups, gdata) → covers (groups ++ [g], <[g.1 := v]> gdata).
Proof.
  unfold covers. simpl. intros Hcov x Hx.
  rewrite lookup_insert. case_decide; [eauto|].
  apply Hcov. apply elem_of_app in Hx as [Hx|Hx]; [done|].
  apply list_elem_of_singleton in Hx. by subst.
Qed.

Lemma rides_with_new_group (d : Db) (cell : string) (r : RideModel.t) :
  rides (with_new_group d cell r) = rides d.
Proof. unfold with_new_group. by destruct (head _). Qed.

(** Whatever the groups, the ride is matched: into the first group that
    takes it, or into a new one. *)
Lemma place_ride_matches (cell : string)
    (st : list (Z * RideGroupModel.t) * GData) (s : CycleState) :
  covers st →
  step_to (place cell st) s
    (λ st' s',
       covers st'
       ∧ (∃ gid position,
            rides (session s')
            = alter (matched_ride gid
                       (snapshot_price pricing active_requests available_cabs
                          ride.2 position))
                    ride.1 (rides (session s)))
       ∧ matched s' = matched s + 1).
Proof.
  destruct st as [groups gdata]. intros Hcov.
  destruct (first_fit_split (session s) gdata groups Hcov)
    as [Hall|(before & g & after & ps & ds & Heq & Hb & Hacc)].
  - eapply step_mono; [by apply place_ride_new|].
    intros st' s' (-> & Hs & Hm). split; [by apply covers_new|].
    split; [|done]. eexists _, _. by rewrite Hs.
  - unfold Matcher.place_ride. cbn [fst snd]. rewrite Heq.
    apply step_bind. eapply step_mono; [by apply scan_first_fit|].
    intros r s' (-> & Hs & Hm). apply step_ret.
    split; [by eapply covers_join|].
    split; [|done]. eexists _, _. by rewrite Hs.
Qed.

End PerRide.

(** *** The loops of the cycle *)

Section Loops.
Variable pricing : Pricing.PricingEngine.
Variables active_requests available_cabs : Z.

#[local] Abbreviation replay :=
  (apply_matches pricing active_requests available_cabs).

Lemma apply_matches_app (T1 T2 : list Match) (m : gmap Z RideModel.t) :
  replay (T1 ++ T2) m = replay T2 (replay T1 m).
Proof. apply foldl_app. Qed.

Lemma place_rides_matches (cell : string)
    (rides_in_cell : list (Z * RideModel.t))
    (st : list (Z * RideGroupModel.t) * GData) (s : CycleState) :
  covers st →
  step_to (place_rides pricing active_requests available_cabs cell
             rides_in_cell st) s
    (λ st' s',
       covers st'
       ∧ ∃ T, map match_ride T = rides_in_cell
              ∧ rides (session s') = replay T (rides (session s))
              ∧ matched s' = matched s + Z.of_nat (length T)).
Proof.
  revert st s. induction rides_in_cell as [|ride rest IH]; intros st s Hcov.
  - apply step_ret. split; [done|]. exists []. simpl.
    split; [done|]. split; [done|lia].
  - cbn [Matcher.place_rides]. apply step_bind.
    eapply step_mono; [by apply place_ride_matches|].
    intros st1 s1 (Hcov1 & (gid & pos & Hr1) & Hm1).
    eapply step_mono; [by apply IH|].
    intros st2 s2 (Hcov2 & T & HT & Hr2 & Hm2). split; [done|].
    exists ((ride, gid, pos) :: T). simpl. rewrite HT.
    split; [done|]. split; [by rewrite Hr2, Hr1|lia].
Qed.

Lemma preload_covers (groups : list (Z * RideGroupModel.t)) (gdata : GData)
    (s : CycleState) :
  step_to (preload faults groups gdata) s
    (λ gdata' s',
       session s' = session s ∧ matched s' = matched s
       ∧ (∀ g, g ∈ groups → is_Some (gdata' !! g.1))
       ∧ (∀ k, is_Some (gdata !! k) → is_Some (gdata' !! k))).
Proof.
  revert gdata s. induction groups as [|g rest IH]; intros gdata s.
  - apply step_ret. split; [done|]. split; [done|].
    split; [|done]. intros g Hg. by apply elem_of_nil in Hg.
  - cbn [Matcher.preload]. apply step_bind, step_query. intros _.
    eapply step_mono; [apply IH|].
    intros gdata' s' (Hs & Hm & Hin & Hkeep). simpl in Hs, Hm.
    split; [done|]. split; [done|]. split.
    + intros x [->|Hx]%elem_of_cons; [|by apply Hin].
      apply Hkeep. rewrite lookup_insert_eq. eauto.
    + intros k Hk. apply Hkeep. rewrite lookup_insert. case_decide; eauto.
Qed.

Lemma process_cells_matches
    (cell_rides : list (string * list (Z * RideModel.t))) (s : CycleState) :
  step_to (process_cells pricing active_requests available_cabs cell_rides) s
    (λ _ s',
       ∃ T, map match_ride T = concat cell_rides.*2
            ∧ rides (session s') = replay T (rides (session s))
            ∧ matched s' = matched s + Z.of_nat (length T)).
Proof.
  revert s. induction cell_rides as [|[cell rides_in_cell] rest IH]; intros s.
  - apply step_ret. exists []. simpl. split; [done|]. split; [done|lia].
  - cbn [Matcher.process_cells]. apply step_bind, step_query. intros _.
    apply step_bind. eapply step_mono; [apply preload_covers|].
    intros gdata s1 (Hs1 & Hm1 & Hin & _). simpl in Hs1, Hm1.
    apply step_bind.
    eapply step_mono; [apply place_rides_matches; exact Hin|].
    intros st2 s2 (_ & T1 & HT1 & Hr2 & Hm2).
    eapply step_mono; [apply IH|].
    intros [] s3 (T2 & HT2 & Hr3 & Hm3).
    exists (T1 ++ T2). rewrite map_app, HT1, HT2, apply_matches_app.
    split; [done|]. rewrite Hr3, Hr2, Hs1, length_app. split; [done|lia].
Qed.

End Loops.

(** *** Binning and the pending rides *)

Lemma cell_append_concat {A : Type} (cell : string) (x : A)
    (cell_rides : list (string * list A)) :
  concat (cell_append cell x cell_rides).*2 ≡ₚ concat cell_rides.*2 ++ [x].
Proof.
  induction cell_rides as [|[c rs] rest IH]; simpl; [done|].
  destruct (decide (c = cell)); simpl.
  - rewrite <- !(assoc_L (++)). f_equiv. apply Permutation_app_comm.
  - rewrite IH. by rewrite (assoc_L (++)).
Qed.

Lemma bin_concat (pending : list (Z * RideModel.t)) :
  concat (bin latlng_to_cell settings pending).*2 ≡ₚ pending.
Proof.
  unfold bin.
  enough (H : ∀ acc : list (string * list (Z * RideModel.t)),
             concat (foldl (λ cell_rides ride,
                       cell_append
                         (ride_h3_cell latlng_to_cell
                            (RideModel.pickup_lat ride.2)
                            (RideModel.pickup_lng ride.2)
                            (Config.h3_resolution settings))
                         ride cell_rides) acc pending).*2
             ≡ₚ concat acc.*2 ++ pending) by apply (H []).
  induction pending as [|r pending IH]; intros acc; simpl.
  - by rewrite (right_id_L [] (++)).
  - rewrite IH, cell_append_concat. by rewrite <- (assoc_L (++)).
Qed.

Lemma pending_elem (d : Db) (i : Z) (r : RideModel.t) :
  (i, r) ∈ get_pending_rides d
  ↔ rides d !! i = Some r ∧ RideModel.status r = PENDING.
Proof.
  unfold get_pending_rides.
  rewrite merge_sort_Permutation, list_elem_of_filter, elem_of_map_to_list.
  simpl. tauto.
Qed.

Lemma pending_NoDup (d : Db) : NoDup (get_pending_rides d).*1.
Proof.
  unfold get_pending_rides. rewrite merge_sort_Permutation.
  apply NoDup_fmap_fst.
  - intros i x y [_ Hx]%list_elem_of_filter [_ Hy]%list_elem_of_filter.
    apply elem_of_map_to_list in Hx, Hy. congruence.
  - apply NoDup_filter, NoDup_map_to_list.
Qed.

#[local] Instance created_at_le_transitive : Transitive created_at_le.
Proof. unfold created_at_le. intros x y z; lia. Qed.

#[local] Instance created_at_le_total : Total created_at_le.
Proof. unfold created_at_le. intros x y; lia. Qed.

Lemma pending_sorted (d : Db) :
  StronglySorted created_at_le (get_pending_rides d).
Proof. apply StronglySorted_merge_sort; apply _. Qed.



(** The key of a new row is not in use. *)
Lemma next_id_fresh {A : Type} (m : gmap Z A) : m !! next_id m = None.
Proof.
  unfold next_id.
  enough (H : ∀ k, is_Some (m !! k)
                   → k ≤ map_fold (λ k _ acc, Z.max k acc) 0 m).
  { destruct (m !! _) eqn:E; [|done]. apply mk_is_Some, H in E. lia. }
  apply (map_fold_weak_ind (λ acc m, ∀ k, is_Some (m !! k) → k ≤ acc)).
  - intros k [x Hx]. by rewrite lookup_empty in Hx.
  - intros i x m' acc Hi IH k Hk. rewrite lookup_insert in Hk.
    case_decide as Hik; [lia|]. specialize (IH k Hk). lia.
Qed.

(** *** Reading the rides back after the matches *)

Section Replay.
Variable pricing : Pricing.PricingEngine.
Variables active_requests available_cabs : Z.

#[local] Abbreviation replay :=
  (apply_matches pricing active_requests available_cabs).

Lemma replay_other (T : list Match) (m : gmap Z RideModel.t) (i : Z) :
  i ∉ (map match_ride T).*1 → replay T m !! i = m !! i.
Proof.
  revert m. induction T as [|t T IH]; intros m Hi; [done|].
  cbn [Matcher.apply_matches foldl]. simpl in Hi.
  apply not_elem_of_cons in Hi as [Hne Hi].
  unfold Matcher.apply_matches in IH. rewrite IH by done.
  by apply lookup_alter_ne.
Qed.

Lemma replay_matched (T : list Match) (m : gmap Z RideModel.t)
    (i : Z) (r : RideModel.t) :
  NoDup (map match_ride T).*1 →
  (i, r) ∈ map match_ride T →
  m !! i = Some r →
  ∃ gid position,
    replay T m !! i
    = Some (matched_ride gid
              (snapshot_price pricing active_requests available_cabs r position)
              r).
Proof.
  revert m. induction T as [|t T IH]; intros m Hnd Hin Hm.
  { by apply elem_of_nil in Hin. }
  destruct t as [[[i' r'] gid] pos].
  simpl in Hnd, Hin. apply NoDup_cons in Hnd as [Hnotin Hnd].
  change (replay (((i', r'), gid, pos) :: T) m)
    with (replay T (alter (matched_ride gid
                             (snapshot_price pricing active_requests
                                available_cabs r' pos))
                          i' m)).
  apply elem_of_cons in Hin as [[= <- <-]|Hin].
  - exists gid, pos. rewrite replay_other by done.
    by rewrite lookup_alter_eq, Hm.
  - apply IH; [done|done|].
    rewrite lookup_alter_ne; [done|].
    intros ->. apply Hnotin.
    apply list_elem_of_fmap. by exists (i, r).
Qed.

End Replay.

(** *** The session block and the cycle *)

#[local] Abbreviation session_block :=
  (session_block haversine_km latlng_to_cell settings faults).
#[local] Abbreviation run_matching_cycle :=
  (run_matching_cycle haversine_km latlng_to_cell settings faults).

Lemma step_to_returns {A : Type} (m : M A) (s : CycleState)
    (Q : A → CycleState → Prop) :
  (∀ n, faults n = false) → step_to m s Q →
  ∃ a s', m s = (Ok a, s') ∧ Q a s' ∧ committed s' = committed s.
Proof.
  intros Hnf [Hc H]. destruct (m s) as [[a|e] s'] eqn:E; simpl in *.
  - by exists a, s'.
  - destruct H as (_ & n & Hn). rewrite Hnf in Hn. discriminate.
Qed.

(** What the session block leaves behind: on a raise nothing is committed;
    on a return the session's rows are committed, and they are the rows at
    the start with every pending ride matched once, priced from the two
    counts taken at the start. *)
Lemma session_block_outcome (d : Db) (res : result (option Z))
    (st : CycleState) :
  session_block (initial d) = (res, st) →
  match res with
  | Raise e => committed st = d ∧ e = DBError ∧ ∃ n, faults n = true
  | Ok x =>
    committed st = session st
    ∧ x = match get_pending_rides d with [] => Some 0 | _ => None end
    ∧ ∃ T, map match_ride T ≡ₚ get_pending_rides d
           ∧ rides (session st)
             = apply_matches (engine_of_settings settings)
                 (Z.of_nat (length (get_pending_rides d)))
                 (count_available d) T (rides d)
           ∧ matched st = Z.of_nat (length T)
  end.
Proof.
  unfold Matcher.session_block. rewrite bind_run.
  unfold Matcher.query at 1, Matcher.exec. cbn [initial ops session].
  destruct (faults 0) eqn:F0.
  { intros [= <- <-]. split; [done|]. split; [done|]. by exists 0%nat. }
  cbn [fst snd]. destruct (get_pending_rides d) as [|r0 pending] eqn:Ep.
  - rewrite bind_run. unfold Matcher.commit. cbn [ops].
    destruct (faults 1) eqn:F1; intros [= <- <-]; simpl.
    + split; [done|]. split; [done|]. by exists 1%nat.
    + split; [done|]. split; [done|]. by exists [].
  - rewrite bind_run. unfold Matcher.query at 1, Matcher.exec. cbn [ops session].
    destruct (faults 1) eqn:F1.
    { intros [= <- <-]. split; [done|]. split; [done|]. by exists 1%nat. }
    cbn [fst snd]. rewrite bind_run.
    match goal with
    | |- context [Matcher.process_cells _ _ _ ?pr ?a ?c ?cells ?s] =>
      pose proof (process_cells_matches pr a c cells s) as [Hc Hres];
      destruct (Matcher.process_cells _ _ _ pr a c cells s) as [[[]|e] s3]
    end; simpl in Hc, Hres.
    + destruct Hres as (T & HT & Hr & Hm).
      rewrite bind_run. unfold Matcher.commit.
      destruct (faults (ops s3)) eqn:F3; intros [= <- <-]; simpl.
      * split; [done|]. split; [done|]. by exists (ops s3).
      * split; [done|]. split; [done|]. exists T.
        split; [by rewrite HT, bin_concat|]. split; [done|]. lia.
    + intros [= <- <-]. destruct Hres as (-> & n & Hn).
      split; [done|]. split; eauto.
Qed.

Lemma run_cycle_unfold (uuid : string) (w : World)
    (res : result (option Z)) (st : CycleState) :
  session_block (initial (database w)) = (res, st) →
  let lock := Locks.DistributedLock_init "matching_engine" 60 uuid in
  run_matching_cycle uuid w
  = if (Locks.acquire lock (redis w)).1
    then (match res with Ok (Some n) => n | _ => matched st end,
          {| redis := Locks.release lock (Locks.acquire lock (redis w)).2;
             database := committed st |})
    else (0, {| redis := (Locks.acquire lock (redis w)).2;
                database := database w |}).
Proof.
  intros Hres lock. unfold Matcher.run_matching_cycle. fold lock.
  destruct (Locks.acquire lock (redis w)) as [[|] r1]; simpl; [|done].
  rewrite Hres. by destruct res as [[n|]|e].
Qed.

(** Whether or not the cycle ran, the keyspace ends as it started: the lock
    is not left held. *)
Lemma run_cycle_redis (uuid : string) (w : World) :
  redis (run_matching_cycle uuid w).2 = redis w.
Proof.
  destruct (session_block (initial (database w))) as [res st] eqn:Hres.
  rewrite (run_cycle_unfold uuid w res st Hres). cbv zeta.
  set (lock := Locks.DistributedLock_init "matching_engine" 60 uuid).
  destruct (redis w !! Locks.key lock) as [v|] eqn:E.
  - rewrite LockSpec.acquire_held by eauto. done.
  - pose proof (LockSpec.acquire_release lock (redis w) E) as Hrel.
    rewrite LockSpec.acquire_free in * by done. done.
Qed.

(** The row of a ride that was pending when the cycle started: untouched,
    or matched and priced from the counts taken at the start; and matched
    for certain when the lock was free and no database operation failed. *)
Lemma cycle_ride_rows (uuid : string) (w : World) (i : Z) (r : RideModel.t) :
  rides (database w) !! i = Some r →
  RideModel.status r = PENDING →
  let out := run_matching_cycle uuid w in
  let row := rides (database out.2) !! i in
  let A := Z.of_nat (length (get_pending_rides (database w))) in
  let C := count_available (database w) in
  let is_matched :=
    ∃ gid position,
      row = Some (matched_ride gid
                    (snapshot_price (engine_of_settings settings) A C r position)
                    r) in
  (row = Some r ∨ is_matched)
  ∧ (redis w !! "lock:matching_engine" = None → (∀ n, faults n = false) →
     is_matched ∧ out.1 = A).
Proof.
  intros Hrow Hst out row A C is_matched. subst out row is_matched.
  destruct (session_block (initial (database w))) as [res st] eqn:Hres.
  rewrite (run_cycle_unfold uuid w res st Hres). cbv zeta.
  set (lock := Locks.DistributedLock_init "matching_engine" 60 uuid).
  pose proof (session_block_outcome (database w) res st Hres) as Hout.
  assert (Hmatched : ∀ x, res = Ok x →
            (∃ gid position,
               rides (committed st) !! i
               = Some (matched_ride gid
                         (snapshot_price (engine_of_settings settings) A C r
                            position) r))
            ∧ match x with Some n => n | None => matched st end = A).
  { intros x ->. destruct Hout as (Hc & Hx & T & HT & Hr & Hm).
    split.
    - rewrite Hc, Hr. apply replay_matched; [| |done].
      + rewrite HT. apply pending_NoDup.
      + rewrite HT. by apply pending_elem.
    - subst A. rewrite <- HT, length_map.
      rewrite Hx. destruct (get_pending_rides (database w)) eqn:Ep; [|done].
      apply Permutation_nil_r in HT. by destruct T. }
  split.
  - destruct (Locks.acquire lock (redis w)).1; simpl; [|by left].
    destruct res as [x|e].
    + right. by apply (Hmatched x).
    + left. destruct Hout as (-> & _). done.
  - intros Hfree Hnf. rewrite LockSpec.acquire_free by done. simpl.
    destruct res as [x|e].
    + destruct (Hmatched x eq_refl) as [H1 H2]. split; [done|].
      by destruct x.
    + destruct Hout as (_ & _ & n & Hn). rewrite Hnf in Hn. discriminate.
Qed.

(** C9 (the cycle's writes are one unit): with the lock taken, if the
    session block raises, the stored rows are those of before the cycle; if
    it returns, the stored rows are the session's rows at its end, all
    writes together; on both paths the lock is released and its key is
    free again. *)
Theorem cycle_atomic (uuid : string) (w : World) :
  let lock := Locks.DistributedLock_init "matching_engine" 60 uuid in
  let out := session_block (initial (database w)) in
  let w' := (run_matching_cycle uuid w).2 in
  (Locks.acquire lock (redis w)).1 = true →
  (∀ e, out.1 = Raise e → database w' = database w)
  ∧ (∀ x, out.1 = Ok x → database w' = session out.2)
  ∧ redis w' = Locks.release lock (Locks.acquire lock (redis w)).2
  ∧ redis w' !! Locks.key lock = None.
Proof.
  intros lock out w' Hacq. subst out w'.
  destruct (session_block (initial (database w))) as [res st] eqn:Hres.
  pose proof (session_block_outcome (database w) res st Hres) as Hout.
  pose proof (run_cycle_redis uuid w) as Hredis.
  rewrite (run_cycle_unfold uuid w res st Hres) in *. cbv zeta in *.
  fold lock in Hredis |- *. rewrite Hacq in *. simpl in *.
  split; [|split; [|split]].
  - intros e ->. by destruct Hout as (-> & _).
  - intros x ->. by destruct Hout as (-> & _).
  - done.
  - rewrite Hredis. exact (LockSpec.acquire_won lock (redis w) Hacq).
Qed.

(** C1, as the code has it: a ride pending at the start of a cycle ends it
    either as it was, or matched, with status MATCHED, a price and one
    group, the rest of the row as before; when the lock is free and no
    database operation fails it is matched, whatever cabs and groups exist,
    and the cycle returns the number of rides that were pending. *)
Theorem cycle_ride_outcome (uuid : string) (w : World) (i : Z)
    (r : RideModel.t) :
  rides (database w) !! i = Some r →
  RideModel.status r = PENDING →
  let out := run_matching_cycle uuid w in
  let row := rides (database out.2) !! i in
  let is_matched :=
    ∃ gid p,
      row = Some (matched_ride gid p r)
      ∧ RideModel.status (matched_ride gid p r) = MATCHED
      ∧ RideModel.price (matched_ride gid p r) = Some p
      ∧ RideModel.ride_group_id (matched_ride gid p r) = Some gid in
  (row = Some r ∨ is_matched)
  ∧ (redis w !! "lock:matching_engine" = None → (∀ n, faults n = false) →
     is_matched
     ∧ out.1 = Z.of_nat (length (get_pending_rides (database w)))).
Proof.
  intros Hrow Hst out row is_matched. subst out row is_matched.
  destruct (cycle_ride_rows uuid w i r Hrow Hst) as [Hany Hrun].
  cbv zeta in Hany, Hrun. split.
  - destruct Hany as [H|(gid & pos & H)]; [by left|right].
    by eexists gid, _.
  - intros Hfree Hnf. destruct (Hrun Hfree Hnf) as [(gid & pos & H) Hn].
    split; [|done]. by eexists gid, _.
Qed.

(** C4, as the code has it: the counts of pending rides and of available
    cabs are those of the rows at the start of the cycle, and every price
    the cycle stores is computed from that count of pending rides and from
    the larger of that count of cabs and 1, whatever happened to the cabs
    in between. *)
Theorem cycle_prices_from_snapshot (uuid : string) (w : World) (i : Z)
    (r : RideModel.t) :
  rides (database w) !! i = Some r →
  RideModel.status r = PENDING →
  let out := run_matching_cycle uuid w in
  let row := rides (database out.2) !! i in
  let activeRequests := Z.of_nat (length (get_pending_rides (database w))) in
  let availableCabs := count_available (database w) in
  let priced_from_snapshot :=
    ∃ gid position,
      row = Some (matched_ride gid
                    (Pricing.calculate_price haversine_km
                       (engine_of_settings settings)
                       (RideModel.pickup_lat r) (RideModel.pickup_lng r)
                       (RideModel.dropoff_lat r) (RideModel.dropoff_lng r)
                       position activeRequests (Z.max availableCabs 1))
                    r) in
  (row = Some r ∨ priced_from_snapshot)
  ∧ (redis w !! "lock:matching_engine" = None → (∀ n, faults n = false) →
     priced_from_snapshot).
Proof.
  intros Hrow Hst out row A C priced. subst out row priced.
  destruct (cycle_ride_rows uuid w i r Hrow Hst) as [Hany Hrun].
  cbv zeta in Hany, Hrun. split; [exact Hany|].
  intros Hfree Hnf. by destruct (Hrun Hfree Hnf).
Qed.

(** *** The working list against the rows *)

Lemma members_query (d : Db) (k : Z) :
  lists_members d k (get_rides_in_group k d).
Proof.
  unfold lists_members, get_rides_in_group. split.
  - apply NoDup_fmap_fst.
    + intros i x y [_ Hx]%list_elem_of_filter [_ Hy]%list_elem_of_filter.
      apply elem_of_map_to_list in Hx, Hy. congruence.
    + apply NoDup_filter, NoDup_map_to_list.
  - intros i r. rewrite list_elem_of_filter, elem_of_map_to_list. simpl. tauto.
Qed.

Lemma candidates_query (cell : string) (d : Db) :
  NoDup (get_active_groups_for_update cell d).*1
  ∧ ∀ k g, (k, g) ∈ get_active_groups_for_update cell d
           ↔ cell_group cell d k g.
Proof.
  unfold get_active_groups_for_update, cell_group.
  assert (Hnd : ∀ l : list (Z * RideGroupModel.t),
            NoDup l → (∀ x, x ∈ l → x ∈ map_to_list (ride_groups d)) →
            NoDup l.*1).
  { intros l Hl Hsub. apply NoDup_fmap_fst; [|done].
    intros i x y Hx%Hsub Hy%Hsub.
    apply elem_of_map_to_list in Hx, Hy. congruence. }
  destruct (decide (cell = "")) as [->|Hne].
  - split.
    + apply Hnd; [apply NoDup_filter, NoDup_map_to_list|].
      by intros x [_ Hx]%list_elem_of_filter.
    + intros k g. rewrite list_elem_of_filter, elem_of_map_to_list. simpl.
      split; [intros [? ?]; eauto|intros (? & ? & _); eauto].
  - split.
    + apply Hnd; [apply NoDup_filter, NoDup_filter, NoDup_map_to_list|].
      by intros x [_ [_ Hx]%list_elem_of_filter]%list_elem_of_filter.
    + intros k g.
      rewrite !list_elem_of_filter, elem_of_map_to_list. simpl.
      split; [intros (? & ? & ?); eauto|].
      intros (? & ? & [?|?]); [done|eauto].
Qed.

Lemma members_after_match (d d' : Db) (i : Z) (r : RideModel.t) (k k' : Z)
    (p : Q) (hs : list (Z * RideModel.t)) :
  rides d' = alter (matched_ride k p) i (rides d) →
  rides d !! i = Some r → RideModel.ride_group_id r = None →
  lists_members d k' hs →
  lists_members d' k'
    (if decide (k' = k) then hs ++ [(i, matched_ride k p r)] else hs).
Proof.
  intros Hd' Hi Hnone [Hnd Hmem].
  assert (Hnotin : ∀ r0, (i, r0) ∉ hs).
  { intros r0 Hin. apply Hmem in Hin as [H1 H2]. congruence. }
  unfold lists_members. rewrite Hd'.
  destruct (decide (k' = k)) as [->|Hne].
  - split.
    + rewrite fmap_app. apply NoDup_app. split; [done|].
      split; [|apply NoDup_singleton].
      intros j Hj Hj'. apply list_elem_of_singleton in Hj'. simpl in Hj'.
      subst j. apply list_elem_of_fmap in Hj as ([j r0] & Hj & Hin).
      simpl in Hj. subst j. by apply Hnotin in Hin.
    + intros j rj. rewrite elem_of_app, list_elem_of_singleton.
      destruct (decide (j = i)) as [->|Hji].
      * rewrite lookup_alter_eq, Hi. simpl. split.
        -- intros [Hin|[= ->]]; [by apply Hnotin in Hin|]. done.
        -- intros [[= <-] _]. by right.
      * rewrite lookup_alter_ne by done. rewrite Hmem.
        split; [|by left]. intros [H|[= ? ?]]; done.
  - split; [done|]. intros j rj. destruct (decide (j = i)) as [->|Hji].
    + rewrite lookup_alter_eq, Hi. simpl. split.
      * intros Hin. by apply Hnotin in Hin.
      * intros [[= <-] Hk]. simpl in Hk. congruence.
    + rewrite lookup_alter_ne by done. apply Hmem.
Qed.

Lemma agrees_join (cell : string) (d d' : Db)
    (bf af : list (Z * RideGroupModel.t)) (g : Z * RideGroupModel.t)
    (gdata : GData) (ps ds : list Matching.point) (i : Z) (r : RideModel.t)
    (p : Q) :
  agrees cell d (bf ++ g :: af, gdata) → references_kept d →
  rides d !! i = Some r → RideModel.ride_group_id r = None →
  gdata !! g.1 = Some (ps, ds) →
  rides d' = alter (matched_ride g.1 p) i (rides d) →
  ride_groups d' = <[g.1 := joined g.2 r]> (ride_groups d) →
  agrees cell d'
    (bf ++ (g.1, joined g.2 r) :: af,
     <[g.1 := (ps ++ [pickup_of r], ds ++ [dropoff_of r])]> gdata)
  ∧ references_kept d'
  ∧ ∃ hs', lists_members d' g.1 hs' ∧ length hs' = S (length ps).
Proof.
  destruct g as [k gk]. cbn [fst snd].
  intros (Hnd & Hcand & Hhist) Hfk Hi Hnone Hg Hr' Hg'. cbn [fst snd] in *.
  assert (Hin : (k, gk) ∈ bf ++ (k, gk) :: af)
    by (apply elem_of_app; right; left).
  destruct (proj1 (Hcand k gk) Hin) as (Hrow & Hact & Hcell).
  destruct (Hhist k gk Hin) as (hs & Hhs & Hgd).
  rewrite Hg in Hgd. injection Hgd as Hps Hds.
  assert (Hother : ∀ k' g', (k', g') ∈ bf ∨ (k', g') ∈ af → k' ≠ k).
  { rewrite fmap_app, fmap_cons in Hnd. cbn [fst] in Hnd.
    apply NoDup_app in Hnd as (_ & Hbf & Haf%NoDup_cons).
    intros k' g' [H|H] ->.
    - apply (Hbf k); [|left]. apply list_elem_of_fmap. by exists (k, g').
    - destruct Haf as [Haf _]. apply Haf.
      apply list_elem_of_fmap. by exists (k, g'). }
  assert (Hm : lists_members d' k (hs ++ [(i, matched_ride k p r)])).
  { pose proof (members_after_match d d' i r k k p hs Hr' Hi Hnone Hhs) as H.
    by rewrite decide_True in H. }
  split; [split; [|split]|split]; cbn [fst snd].
  - rewrite fmap_app, fmap_cons in Hnd |- *. exact Hnd.
  - intros k' g'. unfold cell_group. rewrite Hg'. split.
    + intros Hin'. apply elem_of_app in Hin' as [H|H];
        [|apply elem_of_cons in H as [[= -> ->]|H]].
      * rewrite lookup_insert_ne by (symmetry; eapply Hother; eauto).
        apply Hcand. apply elem_of_app. by left.
      * rewrite lookup_insert_eq. done.
      * rewrite lookup_insert_ne by (symmetry; eapply Hother; eauto).
        apply Hcand. apply elem_of_app. right. by right.
    + intros (Hl & Ha & Hc). destruct (decide (k' = k)) as [->|Hne].
      * rewrite lookup_insert_eq in Hl. injection Hl as <-.
        apply elem_of_app; right; left.
      * rewrite lookup_insert_ne in Hl by done.
        assert (H : (k', g') ∈ bf ++ (k, gk) :: af) by by apply Hcand.
        apply elem_of_app in H as [H|H]; [apply elem_of_app; by left|].
        apply elem_of_cons in H as [[= ? ?]|H]; [done|].
        apply elem_of_app; right; by right.
  - intros k' g' Hin'. destruct (decide (k' = k)) as [->|Hne].
    + exists (hs ++ [(i, matched_ride k p r)]). split; [done|].
      rewrite lookup_insert_eq. unfold history_of. rewrite !map_app.
      subst ps ds. reflexivity.
    + assert (H : (k', g') ∈ bf ++ (k, gk) :: af).
      { apply elem_of_app in Hin' as [H|H]; [apply elem_of_app; by left|].
        apply elem_of_cons in H as [[= ? ?]|H]; [done|].
        apply elem_of_app; right; by right. }
      destruct (Hhist k' g' H) as (hs0 & Hhs0 & Hgd0). exists hs0. split.
      * pose proof (members_after_match d d' i r k k' p hs0 Hr' Hi Hnone Hhs0)
          as Hx. by rewrite decide_False in Hx.
      * by rewrite lookup_insert_ne.
  - intros j rj kk Hj Hkk. rewrite Hr' in Hj. rewrite Hg'.
    destruct (decide (j = i)) as [->|Hji].
    + rewrite lookup_alter_eq, Hi in Hj. injection Hj as <-.
      simpl in Hkk. injection Hkk as <-. rewrite lookup_insert_eq. eauto.
    + rewrite lookup_alter_ne in Hj by done.
      destruct (Hfk j rj kk Hj Hkk) as [x Hx].
      rewrite lookup_insert. case_decide; eauto.
  - exists (hs ++ [(i, matched_ride k p r)]). split; [done|].
    rewrite length_app. simpl. subst ps. rewrite length_map. lia.
Qed.

Lemma agrees_new (cell : string) (d d' : Db)
    (groups : list (Z * RideGroupModel.t)) (gdata : GData) (i : Z)
    (r : RideModel.t) (p : Q) (ng : RideGroupModel.t) :
  agrees cell d (groups, gdata) → references_kept d →
  rides d !! i = Some r → RideModel.ride_group_id r = None →
  RideGroupModel.status ng = "ACTIVE" →
  RideGroupModel.h3_cell ng = Some cell →
  rides d' = alter (matched_ride (next_id (ride_groups d)) p) i (rides d) →
  ride_groups d' = <[next_id (ride_groups d) := ng]> (ride_groups d) →
  agrees cell d'
    (groups ++ [(next_id (ride_groups d), ng)],
     <[next_id (ride_groups d) := ([pickup_of r], [dropoff_of r])]> gdata)
  ∧ references_kept d'
  ∧ lists_members d' (next_id (ride_groups d))
      [(i, matched_ride (next_id (ride_groups d)) p r)].
Proof.
  set (n := next_id (ride_groups d)).
  intros (Hnd & Hcand & Hhist) Hfk Hi Hnone Hact Hcell Hr' Hg'.
  cbn [fst snd] in *.
  assert (Hfresh : ride_groups d !! n = None) by apply next_id_fresh.
  assert (Hother : ∀ k' g', (k', g') ∈ groups → k' ≠ n).
  { intros k' g' H ->. apply Hcand in H as (H & _). congruence. }
  assert (Hempty : lists_members d n []).
  { split; [constructor|]. intros j rj. split.
    - intros H. by apply elem_of_nil in H.
    - intros [Hj Hk]. destruct (Hfk j rj n Hj Hk) as [x Hx]. congruence. }
  assert (Hm : lists_members d' n [(i, matched_ride n p r)]).
  { pose proof (members_after_match d d' i r n n p [] Hr' Hi Hnone Hempty)
      as H. by rewrite decide_True in H. }
  split; [split; [|split]|split; [|done]]; cbn [fst snd].
  - rewrite fmap_app. apply NoDup_app. split; [done|].
    split; [|apply NoDup_singleton].
    intros k Hk Hk'. apply list_elem_of_singleton in Hk'. simpl in Hk'.
    subst k. apply list_elem_of_fmap in Hk as ([k g'] & Hk & Hin).
    simpl in Hk. subst k. by eapply Hother.
  - intros k' g'. unfold cell_group. rewrite Hg'. split.
    + intros [H|H%list_elem_of_singleton]%elem_of_app.
      * rewrite lookup_insert_ne by (symmetry; eapply Hother; eauto).
        by apply Hcand.
      * injection H as -> ->. rewrite lookup_insert_eq. eauto.
    + intros (Hl & Ha & Hc). apply elem_of_app.
      destruct (decide (k' = n)) as [->|Hne].
      * rewrite lookup_insert_eq in Hl. injection Hl as <-. right. left.
      * rewrite lookup_insert_ne in Hl by done. left. by apply Hcand.
  - intros k' g' [H|H%list_elem_of_singleton]%elem_of_app.
    + assert (Hne : k' ≠ n) by (eapply Hother; eauto).
      destruct (Hhist k' g' H) as (hs0 & Hhs0 & Hgd0). exists hs0. split.
      * pose proof (members_after_match d d' i r n k' p hs0 Hr' Hi Hnone Hhs0)
          as Hx. by rewrite decide_False in Hx.
      * by rewrite lookup_insert_ne.
    + injection H as -> ->. exists [(i, matched_ride n p r)].
      split; [done|]. by rewrite lookup_insert_eq.
  - intros j rj kk Hj Hkk. rewrite Hr' in Hj. rewrite Hg'.
    destruct (decide (j = i)) as [->|Hji].
    + rewrite lookup_alter_eq, Hi in Hj. injection Hj as <-.
      simpl in Hkk. injection Hkk as <-. rewrite lookup_insert_eq. eauto.
    + rewrite lookup_alter_ne in Hj by done.
      destruct (Hfk j rj kk Hj Hkk) as [x Hx].
      rewrite lookup_insert. case_decide; eauto.
Qed.

Lemma unplaced_app (d : Db) (l1 l2 : list (Z * RideModel.t)) :
  unplaced d (l1 ++ l2) →
  unplaced d l1 ∧ unplaced d l2 ∧ ∀ x, x ∈ l2 → x.1 ∉ l1.*1.
Proof.
  intros [Hnd Hrows]. rewrite fmap_app in Hnd.
  apply NoDup_app in Hnd as (Hnd1 & Hdisj & Hnd2).
  split; [|split].
  - split; [done|]. intros x Hx. apply Hrows, elem_of_app. by left.
  - split; [done|]. intros x Hx. apply Hrows, elem_of_app. by right.
  - intros x Hx Hx1. apply (Hdisj x.1 Hx1).
    apply list_elem_of_fmap. by exists x.
Qed.

Lemma unplaced_kept (d d' : Db) (l1 l2 : list (Z * RideModel.t)) :
  unplaced d (l1 ++ l2) →
  (∀ j, j ∉ l1.*1 → rides d' !! j = rides d !! j) →
  unplaced d' l2.
Proof.
  intros (_ & [Hnd Hrows] & Hdisj)%unplaced_app Hsame.
  split; [done|]. intros x Hx. rewrite Hsame by by apply Hdisj.
  by apply Hrows.
Qed.

Lemma query_run {A : Type} (f : Db → A) (s : CycleState) :
  (∀ n, faults n = false) →
  query f s = (Ok (f (session s)), after_op s (session s)).
Proof. intros Hnf. unfold Matcher.query, Matcher.exec. by rewrite Hnf. Qed.

Lemma with_new_group_rows (d : Db) (cell : string) (r : RideModel.t) :
  ride_groups (with_new_group d cell r)
  = <[next_id (ride_groups d)
      := new_group_for cell r (head (get_available d))]> (ride_groups d).
Proof. unfold with_new_group. by destruct (head _). Qed.

Lemma preload_histories (groups : list (Z * RideGroupModel.t))
    (gdata : GData) (s : CycleState) :
  step_to (preload faults groups gdata) s
    (λ gdata' s',
       session s' = session s
       ∧ ∀ k, gdata' !! k
              = if decide (k ∈ groups.*1)
                then Some (history_of (get_rides_in_group k (session s)))
                else gdata !! k).
Proof.
  revert gdata s. induction groups as [|g rest IH]; intros gdata s.
  - apply step_ret. split; [done|]. intros k.
    rewrite decide_False; [done|]. apply not_elem_of_nil.
  - cbn [Matcher.preload]. apply step_bind, step_query. intros _.
    eapply step_mono; [apply IH|].
    intros gdata' s' (Hs & Hk). cbn [session after_op] in Hs, Hk.
    split; [done|]. intros k. rewrite Hk, fmap_cons.
    destruct (decide (k ∈ rest.*1)) as [Hin|Hnin].
    + by rewrite decide_True by by right.
    + rewrite lookup_insert. case_decide as Hgk.
      * subst k. by rewrite decide_True by left.
      * rewrite decide_False; [done|].
        intros [->|H]%elem_of_cons; done.
Qed.

(** One ride against the working list: it is placed, by first fit or in a
    new group, and the working list still agrees with the rows. *)
Lemma place_ride_outcome (pricing : Pricing.PricingEngine)
    (active_requests available_cabs : Z) (ride : Z * RideModel.t)
    (later : list (Z * RideModel.t)) (cell : string)
    (st : list (Z * RideGroupModel.t) * GData) (s : CycleState) :
  (∀ n, faults n = false) →
  agrees cell (session s) st → references_kept (session s) →
  unplaced (session s) (ride :: later) →
  ∃ st' s',
    place_ride pricing active_requests available_cabs ride cell st s
    = (Ok st', s')
    ∧ agrees cell (session s') st' ∧ references_kept (session s')
    ∧ unplaced (session s') later
    ∧ (∀ j, j ≠ ride.1 → rides (session s') !! j = rides (session s) !! j)
    ∧ (∃ created, st'.1.*1 = st.1.*1 ++ created)
    ∧ (joins_first_fit haversine_km settings pricing active_requests
         available_cabs ride st (session s) st' (session s')
       ∨ opens_group haversine_km settings pricing active_requests
           available_cabs cell ride st (session s) st' (session s')).
Proof.
  destruct st as [groups gdata]. intros Hnf Hag Hfk Hun.
  assert (Hi : rides (session s) !! ride.1 = Some ride.2
               ∧ RideModel.ride_group_id ride.2 = None).
  { apply Hun. left. }
  destruct Hi as [Hi Hnone].
  assert (Hkeep : ∀ d', (∀ j, j ≠ ride.1 → rides d' !! j = rides (session s) !! j)
                        → unplaced d' later).
  { intros d' Hsame. apply (unplaced_kept (session s) d' [ride] later Hun).
    intros j Hj. apply Hsame. intros ->. apply Hj. left. }
  assert (Hcov : covers (groups, gdata)).
  { intros [k g] Hin. destruct Hag as (_ & _ & Hhist).
    destruct (Hhist k g Hin) as (hs & _ & Hgd). cbn [fst snd] in Hgd |- *.
    by rewrite Hgd. }
  destruct (first_fit_split ride (session s) gdata groups Hcov)
    as [Hall|(bf & g & af & ps & ds & -> & Hb & Hacc)].
  - pose proof (place_ride_new pricing active_requests available_cabs ride
                  cell groups gdata s Hall) as Hnew.
    apply (step_to_returns _ _ _ Hnf) in Hnew
      as (st' & s' & Hrun & (-> & Hs & Hm) & _).
    assert (Hr' : rides (session s')
                  = alter (matched_ride (next_id (ride_groups (session s)))
                             (snapshot_price pricing active_requests
                                available_cabs ride.2 1))
                          ride.1 (rides (session s))) by by rewrite Hs.
    assert (Hg' : ride_groups (session s')
                  = <[next_id (ride_groups (session s))
                      := new_group_for cell ride.2
                           (head (get_available (session s)))]>
                      (ride_groups (session s)))
      by (rewrite Hs; apply with_new_group_rows).
    destruct (agrees_new cell (session s) (session s') groups gdata ride.1
                ride.2 _
                (new_group_for cell ride.2 (head (get_available (session s))))
                Hag Hfk Hi Hnone eq_refl eq_refl Hr' Hg')
      as (Hag' & Hfk' & Hmem).
    assert (Hsame : ∀ j, j ≠ ride.1
                         → rides (session s') !! j = rides (session s) !! j).
    { intros j Hj. rewrite Hr'. by apply lookup_alter_ne. }
    eexists _, s'. split; [exact Hrun|].
    split; [done|]. split; [done|]. split; [by apply Hkeep|].
    split; [done|]. split.
    { eexists [_]. cbn [fst snd]. by rewrite fmap_app. }
    right. unfold opens_group. cbn [fst snd].
    split; [done|]. split; [apply next_id_fresh|]. split; [done|].
    split; [done|]. split; [done|].
    by rewrite Hr', lookup_alter_eq, Hi.
  - pose proof (scan_first_fit pricing active_requests available_cabs ride
                  gdata bf af g ps ds s Hb Hacc) as Hscan.
    apply (step_to_returns _ _ _ Hnf) in Hscan
      as (r & s' & Hrun & (-> & Hs & Hm) & _).
    assert (Hg : gdata !! g.1 = Some (ps, ds)) by apply Hacc.
    assert (Hr' : rides (session s')
                  = alter (matched_ride g.1
                             (snapshot_price pricing active_requests
                                available_cabs ride.2
                                (Z.of_nat (length (ps ++ [pickup_of ride.2])))))
                          ride.1 (rides (session s))) by by rewrite Hs.
    assert (Hg' : ride_groups (session s')
                  = <[g.1 := joined g.2 ride.2]> (ride_groups (session s)))
      by by rewrite Hs.
    destruct (agrees_join cell (session s) (session s') bf af g gdata ps ds
                ride.1 ride.2 _ Hag Hfk Hi Hnone Hg Hr' Hg')
      as (Hag' & Hfk' & hs' & Hmem & Hlen).
    assert (Hsame : ∀ j, j ≠ ride.1
                         → rides (session s') !! j = rides (session s) !! j).
    { intros j Hj. rewrite Hr'. by apply lookup_alter_ne. }
    eexists _, s'. split.
    { unfold Matcher.place_ride. cbn [fst snd]. rewrite bind_run, Hrun.
      reflexivity. }
    split; [done|]. split; [done|]. split; [by apply Hkeep|].
    split; [done|]. split.
    { exists []. cbn [fst snd]. rewrite app_nil_r, !fmap_app, !fmap_cons.
      done. }
    left. exists bf, g, af, ps, ds, hs'. cbn [fst snd].
    split; [done|]. split; [done|]. split; [done|]. split; [done|].
    split; [done|]. split; [by rewrite Hs|]. split; [done|].
    rewrite Hr', lookup_alter_eq, Hi. simpl. rewrite Hlen, length_app.
    simpl. do 3 f_equal. lia.
Qed.

(** The rides of a list, one after the other. *)
Lemma place_rides_run (pricing : Pricing.PricingEngine)
    (active_requests available_cabs : Z) (cell : string)
    (rs later : list (Z * RideModel.t))
    (st : list (Z * RideGroupModel.t) * GData) (s : CycleState) :
  (∀ n, faults n = false) →
  agrees cell (session s) st → references_kept (session s) →
  unplaced (session s) (rs ++ later) →
  ∃ st' s',
    place_rides pricing active_requests available_cabs cell rs st s
    = (Ok st', s')
    ∧ agrees cell (session s') st' ∧ references_kept (session s')
    ∧ unplaced (session s') later
    ∧ (∀ j, j ∉ rs.*1 → rides (session s') !! j = rides (session s) !! j)
    ∧ (∃ created, st'.1.*1 = st.1.*1 ++ created)
    ∧ (∀ rest,
         place_rides pricing active_requests available_cabs cell (rs ++ rest)
           st s
         = place_rides pricing active_requests available_cabs cell rest
             st' s').
Proof.
  intros Hnf. revert st s. induction rs as [|x rs IH]; intros st s Hag Hfk Hun.
  - exists st, s. split; [done|]. split; [done|]. split; [done|].
    split; [exact Hun|]. split; [done|].
    split; [exists []; by rewrite app_nil_r|done].
  - destruct (place_ride_outcome pricing active_requests available_cabs x
                (rs ++ later) cell st s Hnf Hag Hfk Hun)
      as (st1 & s1 & Hrun & Hag1 & Hfk1 & Hun1 & Hsame1 & [c1 Hc1] & _).
    destruct (IH st1 s1 Hag1 Hfk1 Hun1)
      as (st' & s' & Hrun' & Hag' & Hfk' & Hun' & Hsame' & [c2 Hc2] & Hcont).
    exists st', s'. split.
    { cbn [Matcher.place_rides]. by rewrite bind_run, Hrun. }
    split; [done|]. split; [done|]. split; [done|]. split; [|split].
    + intros j Hj. rewrite fmap_cons in Hj.
      apply not_elem_of_cons in Hj as [Hne Hj].
      rewrite Hsame' by done. by apply Hsame1.
    + exists (c1 ++ c2). by rewrite Hc2, Hc1, (assoc_L (++)).
    + intros rest. rewrite <- app_comm_cons. cbn [Matcher.place_rides].
      rewrite bind_run, Hrun. apply Hcont.
Qed.

(** The start of a cell's turn: the query and the pre-load give a working
    list that agrees with the rows. *)
Lemma cell_start_run (pricing : Pricing.PricingEngine)
    (active_requests available_cabs : Z) (cell : string) (s : CycleState) :
  (∀ n, faults n = false) →
  ∃ st s0,
    session s0 = session s
    ∧ st.1 = get_active_groups_for_update cell (session s0)
    ∧ agrees cell (session s0) st
    ∧ (∀ rs,
         cell_prefix haversine_km settings faults pricing active_requests
           available_cabs cell rs s
         = place_rides pricing active_requests available_cabs cell rs st s0)
    ∧ (∀ rs rest,
         process_cells pricing active_requests available_cabs
           ((cell, rs) :: rest) s
         = match place_rides pricing active_requests available_cabs cell rs
                   st s0 with
           | (Ok _, s') =>
             process_cells pricing active_requests available_cabs rest s'
           | (Raise e, s') => (Raise e, s')
           end).
Proof.
  intros Hnf.
  set (groups := get_active_groups_for_update cell (session s)).
  pose proof (preload_histories groups ∅ (after_op s (session s))) as Hpre.
  apply (step_to_returns _ _ _ Hnf) in Hpre
    as (gdata & s0 & Hrun & (Hs0 & Hk) & _).
  cbn [session after_op] in Hs0, Hk.
  exists (groups, gdata), s0. split; [done|].
  split; [by rewrite Hs0|]. split; [|split].
  - rewrite Hs0. destruct (candidates_query cell (session s)) as [Hnd Hcand].
    split; [done|]. split; [done|]. cbn [fst snd]. intros k g Hin.
    exists (get_rides_in_group k (session s)).
    split; [apply members_query|]. rewrite Hk, decide_True; [done|].
    apply list_elem_of_fmap. by exists (k, g).
  - intros rs. unfold cell_prefix.
    rewrite bind_run, (query_run _ _ Hnf), bind_run. fold groups.
    by rewrite Hrun.
  - intros rs rest. cbn [Matcher.process_cells].
    rewrite bind_run, (query_run _ _ Hnf), bind_run. fold groups.
    rewrite Hrun. by rewrite bind_run.
Qed.

(** The cells of a list, one after the other. *)
Lemma process_cells_run (pricing : Pricing.PricingEngine)
    (active_requests available_cabs : Z)
    (cells : list (string * list (Z * RideModel.t)))
    (later : list (Z * RideModel.t)) (s : CycleState) :
  (∀ n, faults n = false) →
  references_kept (session s) →
  unplaced (session s) (concat cells.*2 ++ later) →
  ∃ s',
    process_cells pricing active_requests available_cabs cells s = (Ok tt, s')
    ∧ references_kept (session s')
    ∧ unplaced (session s') later
    ∧ (∀ j, j ∉ (concat cells.*2).*1
            → rides (session s') !! j = rides (session s) !! j)
    ∧ (∀ rest,
         process_cells pricing active_requests available_cabs (cells ++ rest) s
         = process_cells pricing active_requests available_cabs rest s').
Proof.
  intros Hnf. revert s.
  induction cells as [|[cell rs] cells IH]; intros s Hfk Hun.
  - exists s. split; [done|]. split; [done|]. split; [exact Hun|]. by split.
  - rewrite fmap_cons in Hun |- *. cbn [snd concat] in Hun |- *.
    rewrite <- (assoc_L (++)) in Hun.
    destruct (cell_start_run pricing active_requests available_cabs cell s Hnf)
      as (st & s0 & Hs0 & _ & Hag & _ & Hproc).
    rewrite <- Hs0 in Hfk, Hun.
    destruct (place_rides_run pricing active_requests available_cabs cell rs
                (concat cells.*2 ++ later) st s0 Hnf Hag Hfk Hun)
      as (st1 & s1 & Hrun & _ & Hfk1 & Hun1 & Hsame1 & _ & _).
    destruct (IH s1 Hfk1 Hun1) as (s' & Hrun' & Hfk' & Hun' & Hsame' & Hcont).
    exists s'. split; [by rewrite Hproc, Hrun|].
    split; [done|]. split; [done|]. split.
    + intros j Hj. rewrite fmap_app in Hj.
      apply not_elem_of_app in Hj as [Hj1 Hj2].
      rewrite Hsame' by done. rewrite Hsame1 by done. by rewrite Hs0.
    + intros rest. rewrite <- app_comm_cons. rewrite Hproc, Hrun. apply Hcont.
Qed.

Lemma session_block_run (d : Db) :
  (∀ n, faults n = false) →
  get_pending_rides d ≠ [] →
  session_block (initial d)
  = match process_cells (engine_of_settings settings)
            (Z.of_nat (length (get_pending_rides d))) (count_available d)
            (bin latlng_to_cell settings (get_pending_rides d))
            (after_op (after_op (initial d) d) d) with
    | (Ok _, s) => (commit faults;; mret None) s
    | (Raise e, s) => (Raise e, s)
    end.
Proof.
  intros Hnf Hne. unfold Matcher.session_block.
  rewrite bind_run, (query_run _ _ Hnf). cbn [initial session].
  destruct (get_pending_rides d) as [|r0 l] eqn:Ep; [done|].
  rewrite bind_run, (query_run _ _ Hnf), bind_run. reflexivity.
Qed.


End Cycle.

Import Examples.

Lemma cycle_atomic_witness :
  database (run_matching_cycle grid_km band_cell Config.default_settings
              (fault_at 7) "t" world_three).2
  = database world_three.
Proof.
  exact (proj1 (cycle_atomic grid_km band_cell Config.default_settings
                  (fault_at 7) "t" world_three eq_refl)
           DBError ltac:(vm_compute; reflexivity)).
Defined.

Lemma cycle_ride_outcome_witness :
  ∃ gid p,
    rides (database (run_matching_cycle grid_km band_cell
                       Config.default_settings no_faults "t" world_three).2)
      !! 3
    = Some (matched_ride gid p (pending_ride 20 0 0 0 7)).
Proof.
  destruct (proj2 (cycle_ride_outcome grid_km band_cell
                     Config.default_settings no_faults "t" world_three 3
                     (pending_ride 20 0 0 0 7) eq_refl eq_refl)
              eq_refl (λ _, eq_refl)) as [(gid & p & H & _) _].
  by exists gid, p.
Defined.

(** C1 as written fails: with no available cab and no group at all, the one
    pending ride is not left PENDING; the cycle matches it into a new group
    that has no cab. *)
Lemma no_cab_ride_is_matched :
  let w' := (run_matching_cycle grid_km band_cell Config.default_settings
               no_faults "t" world_no_cabs).2 in
  get_available (database world_no_cabs) = []
  ∧ get_active_groups_for_update "A" (database world_no_cabs) = []
  ∧ RideModel.status <$> rides (database world_no_cabs) !! 1 = Some PENDING
  ∧ RideModel.status <$> rides (database w') !! 1 = Some MATCHED
  ∧ RideModel.status <$> rides (database w') !! 1 ≠ Some PENDING
  ∧ RideModel.ride_group_id <$> rides (database w') !! 1 = Some (Some 1)
  ∧ RideGroupModel.cab_id <$> ride_groups (database w') !! 1 = Some None.
Proof. vm_compute. repeat split; discriminate. Qed.

Lemma cycle_prices_from_snapshot_witness :
  ∃ gid position,
    rides (database (run_matching_cycle grid_km band_cell
                       Config.default_settings no_faults "t" world_three).2)
      !! 1
    = Some (matched_ride gid
              (Pricing.calculate_price grid_km
                 (engine_of_settings Config.default_settings) 0 0 5 0
                 position 3 (Z.max 1 1))
              (pending_ride 0 0 5 0 10)).
Proof.
  exact (proj2 (cycle_prices_from_snapshot grid_km band_cell
                  Config.default_settings no_faults "t" world_three 1
                  (pending_ride 0 0 5 0 10) eq_refl eq_refl)
           eq_refl (λ _, eq_refl)).
Defined.

(** C4 as written fails: with one pending ride and no available cab the
    recorded counts are 1 and 0, for which the surge is 3 and the price 375;
    the price the cycle stores is 125, computed from 1 and max(0, 1). *)
Lemma price_not_from_zero_cabs :
  let d := database world_no_cabs in
  let w' := (run_matching_cycle grid_km band_cell Config.default_settings
               no_faults "t" world_no_cabs).2 in
  Z.of_nat (length (get_pending_rides d)) = 1
  ∧ count_available d = 0
  ∧ Pricing.calculate_price grid_km
      (engine_of_settings Config.default_settings) 0 0 5 0 1 1 0 = 375%Q
  ∧ RideModel.price <$> rides (database w') !! 1 = Some (Some 125%Q)
  ∧ RideModel.price <$> rides (database w') !! 1
    ≠ Some (Some (Pricing.calculate_price grid_km
                    (engine_of_settings Config.default_settings) 0 0 5 0
                    1 1 0)).
Proof. vm_compute. repeat split; discriminate. Qed.


(** The cycle on three pending rides and one cab: the two rides of cell A
    share group 1 on the cab, the earlier one at full price and the later
    one with 20% off, the ride of cell B gets group 2 without a cab, the cab
    is no longer available, and the lock key is free again. *)
Example cycle_on_three_rides :
  let out := run_matching_cycle grid_km band_cell Config.default_settings
               no_faults "t" world_three in
  let d := database out.2 in
  out.1 = 3
  ∧ (λ r, (RideModel.status r, RideModel.ride_group_id r, RideModel.price r))
      <$> rides d !! 2 = Some (MATCHED, Some 1, Some 420%Q)
  ∧ (λ r, (RideModel.status r, RideModel.ride_group_id r, RideModel.price r))
      <$> rides d !! 1 = Some (MATCHED, Some 1, Some 300%Q)
  ∧ (λ r, (RideModel.status r, RideModel.ride_group_id r, RideModel.price r))
      <$> rides d !! 3 = Some (MATCHED, Some 2, Some 1050%Q)
  ∧ RideGroupModel.cab_id <$> ride_groups d !! 1 = Some (Some 1)
  ∧ RideGroupModel.seats_occupied <$> ride_groups d !! 1 = Some 2
  ∧ RideGroupModel.cab_id <$> ride_groups d !! 2 = Some None
  ∧ CabModel.is_available <$> cabs d !! 1 = Some false
  ∧ redis out.2 = ∅.
Proof. vm_compute. repeat split. Qed.

End MatcherSpec.

(** * Further properties of the code *)

Module PricingExtras.
Import Pricing PricingFacts PricingSpec.

Lemma round_half_even_mono (x y : Q) :
  (x <= y)%Q → round_half_even x ≤ round_half_even y.
Proof.
  intros Hxy. unfold round_half_even.
  pose proof (Qfloor_resp_le x y Hxy) as Hf.
  pose proof (Qfloor_le x) as Hx1. pose proof (Qlt_floor x) as Hx2.
  pose proof (Qfloor_le y) as Hy1. pose proof (Qlt_floor y) as Hy2.
  destruct (Z.eq_dec (Qfloor x) (Qfloor y)) as [E|E].
  - rewrite <- E in *.
    destruct (Qcompare_spec (x - inject_Z (Qfloor x)) (1 # 2));
      destruct (Qcompare_spec (y - inject_Z (Qfloor x)) (1 # 2));
      destruct (Z.even (Qfloor x)); try lia; exfalso; lra.
  - destruct (Qcompare_spec (x - inject_Z (Qfloor x)) (1 # 2));
      destruct (Qcompare_spec (y - inject_Z (Qfloor y)) (1 # 2));
      destruct (Z.even (Qfloor x)); destruct (Z.even (Qfloor y)); lia.
Qed.

Lemma py_round_2_mono (x y : Q) :
  (x <= y)%Q → (py_round x 2 <= py_round y 2)%Q.
Proof.
  intros Hxy. unfold py_round. rewrite !Qred_correct.
  apply Qmult_le_compat_r; [|by vm_compute].
  rewrite <- Zle_Qle. apply round_half_even_mono.
  apply Qmult_le_compat_r; [done|by vm_compute].
Qed.

Lemma discount_of_position_mono (p q : Z) :
  1 ≤ p → p ≤ q →
  (0 <= discount_of_position p)%Q
  ∧ (discount_of_position p <= discount_of_position q)%Q
  ∧ (discount_of_position q <= 30 # 100)%Q.
Proof.
  intros Hp Hpq. unfold discount_of_position.
  destruct (Z.eqb_spec p 1), (Z.eqb_spec p 2), (Z.eqb_spec q 1),
    (Z.eqb_spec q 2); try lia; repeat split; by vm_compute.
Qed.

(** X1: the surge multiplier is between 1 and 3 whatever the two counts
    are, zero and negative counts included. *)
Theorem surge_between_1_and_3 (active_requests available_cabs : Z) :
  (1 <= compute_surge active_requests available_cabs)%Q
  ∧ (compute_surge active_requests available_cabs <= 3)%Q.
Proof.
  unfold compute_surge. destruct (available_cabs <=? 0).
  - split; by vm_compute.
  - split.
    + apply Q.min_glb; [by vm_compute|apply Q.le_max_l].
    + apply Q.le_min_l.
Qed.

(** X2: for a fare that is not negative before the discount, a later
    position in the group never pays more than an earlier one, and no price
    is negative. *)
Theorem later_passenger_pays_no_more (distance_km baseFare ratePerKm surge : Q)
    (p q : Z) :
  1 ≤ p → p ≤ q →
  (0 <= (baseFare + distance_km * ratePerKm) * surge)%Q →
  (0 <= calculate (PoolDiscountPricing_init q surge)
          distance_km baseFare ratePerKm)%Q
  ∧ (calculate (PoolDiscountPricing_init q surge)
       distance_km baseFare ratePerKm
     <= calculate (PoolDiscountPricing_init p surge)
          distance_km baseFare ratePerKm)%Q.
Proof.
  intros Hp Hpq Hraw. unfold calculate.
  rewrite !discount_tier by lia. simpl surge_multiplier.
  destruct (discount_of_position_mono p q Hp Hpq) as (H0 & Hle & H30).
  set (raw := ((baseFare + distance_km * ratePerKm) * surge)%Q) in *.
  set (dp := discount_of_position p) in *.
  set (dq := discount_of_position q) in *.
  assert (Hq0 : (0 <= raw * (1 - dq))%Q).
  { apply Qmult_le_0_compat; [done|lra]. }
  split.
  - change 0%Q with (py_round 0 2). by apply py_round_2_mono.
  - apply py_round_2_mono.
    assert (0 <= raw * (dq - dp))%Q by (apply Qmult_le_0_compat; [done|lra]).
    lra.
Qed.

Lemma later_passenger_pays_no_more_witness :
  (calculate (PoolDiscountPricing_init 3 (3 # 2)) 10 50 15
   <= calculate (PoolDiscountPricing_init 2 (3 # 2)) 10 50 15)%Q.
Proof.
  exact (proj2 (later_passenger_pays_no_more 10 50 15 (3 # 2) 2 3
                  ltac:(lia) ltac:(lia) ltac:(by vm_compute))).
Defined.

End PricingExtras.

Module LifecycleExtras.
Import Entities Lifecycle.

Lemma transition_ok_stage (ride ride' : Ride) (target : RideStatus) (u : unit) :
  transition_to ride target = (Ok u, ride') →
  (stage (status ride) < stage (status ride'))%nat ∧ status ride' = target.
Proof.
  unfold transition_to. destruct (decide _) as [Hn|Hin]; [done|].
  intros [= _ <-]. simpl. split; [|done].
  apply dec_stable in Hin. apply StateMachineSpec.allowed_lookup in Hin.
  apply (bool_decide_eq_true_2 _) in Hin.
  destruct (status ride), target; vm_compute in Hin; try discriminate;
    simpl; lia.
Qed.

Lemma transition_raise_same (ride ride' : Ride) (target : RideStatus)
    (e : exn) :
  transition_to ride target = (Raise e, ride') → ride' = ride.
Proof.
  unfold transition_to. destruct (decide _); [|done]. by intros [= _ <-].
Qed.

(** X3: the life of a ride only moves forward.  Over any sequence of
    [transition_to] calls, each call that returns moves the ride at least
    one stage on, so at most three of them return, a ride never comes back
    to PENDING, and when none returns the ride is as it was. *)
Theorem lifecycle_moves_forward (ride : Ride) (targets : list RideStatus) :
  let n := (transition_all ride targets).1 in
  let final := (transition_all ride targets).2 in
  (n + stage (status ride) ≤ stage (status final))%nat
  ∧ (n ≤ 3)%nat
  ∧ (n = 0%nat → final = ride)
  ∧ (status final = PENDING → final = ride).
Proof.
  cbv zeta.
  assert (H : (((transition_all ride targets).1 + stage (status ride)
                ≤ stage (status (transition_all ride targets).2))%nat
               ∧ ((transition_all ride targets).1 = 0%nat
                  → (transition_all ride targets).2 = ride))).
  { revert ride. induction targets as [|t ts IH]; intros ride; simpl.
    { split; [lia|done]. }
    destruct (transition_to ride t) as [[u|e] ride'] eqn:E.
    - apply transition_ok_stage in E as [Hlt _].
      destruct (IH ride') as [IH1 _].
      destruct (transition_all ride' ts) as [n r]. simpl in *.
      split; [lia|done].
    - apply transition_raise_same in E as ->. apply IH. }
  destruct H as [H1 H2].
  assert (Hmax : ∀ st, (stage st ≤ 3)%nat) by (by intros []; simpl; lia).
  pose proof (Hmax (status (transition_all ride targets).2)).
  split; [done|]. split; [lia|]. split; [done|].
  intros Hp. apply H2. rewrite Hp in H1. simpl in H1. lia.
Qed.

End LifecycleExtras.

Module RideGroupExtras.
Import RideGroupEntity.

(** X4: [can_accommodate] answers true exactly when [add_passenger] would
    leave both occupancies within the limits, and it is the opposite of the
    capacity test by which the matching worker passes over a group. *)
Theorem can_accommodate_agrees (self : RideGroup)
    (seats luggage max_seats max_luggage : Z)
    (d : Db) (g : RideGroupModel.t) (r : RideModel.t) :
  (can_accommodate self seats luggage max_seats max_luggage = true
   ↔ seats_occupied (add_passenger self seats luggage) ≤ max_seats
     ∧ luggage_occupied (add_passenger self seats luggage) ≤ max_luggage)
  ∧ (RideGroupModel.seats_occupied g = seats_occupied self →
     RideGroupModel.luggage_occupied g = luggage_occupied self →
     (can_accommodate self (RideModel.seats_requested r)
        (RideModel.luggage_count r)
        (Matcher.group_limits d g).1 (Matcher.group_limits d g).2 = true
      ↔ ¬ Matcher.capacity_exceeded d g r)).
Proof.
  unfold can_accommodate. split.
  - rewrite andb_true_iff, !Z.leb_le. done.
  - intros Hs Hl. unfold Matcher.capacity_exceeded.
    rewrite andb_true_iff, !Z.leb_le, Hs, Hl. lia.
Qed.

(** X5: [remove_passenger] never leaves a negative occupancy, whatever is
    removed; and on a group whose occupancies are not negative it undoes
    [add_passenger]. *)
Theorem remove_passenger_floor (self : RideGroup) (seats luggage : Z) :
  0 ≤ seats_occupied (remove_passenger self seats luggage)
  ∧ 0 ≤ luggage_occupied (remove_passenger self seats luggage)
  ∧ (0 ≤ seats_occupied self → 0 ≤ luggage_occupied self →
     remove_passenger (add_passenger self seats luggage) seats luggage = self).
Proof.
  split; [simpl; lia|]. split; [simpl; lia|].
  intros Hs Hl. destruct self as [i c so lo st]. simpl in *.
  unfold remove_passenger, add_passenger, set_occupancy. simpl.
  f_equal; lia.
Qed.

End RideGroupExtras.

Module LockExtras.
Import Locks LockContext LockSpec.

Lemma run_lock_op_keeps (r : Redis) (o : lock_op) (k tok : string) :
  r !! k = Some tok →
  (key (holder_of o) = k → token (holder_of o) ≠ tok) →
  run_lock_op r o !! k = Some tok.
Proof.
  intros Hk Hother. destruct o as [l|l]; simpl in *.
  - destruct (r !! key l) as [v|] eqn:E.
    + rewrite acquire_held by eauto. done.
    + rewrite acquire_free by done. simpl.
      rewrite lookup_insert_ne; [done|]. intros Heq. congruence.
  - destruct (decide (r !! key l = Some (token l))) as [Hown|Hown].
    + rewrite release_own by done.
      rewrite lookup_delete_ne; [done|]. intros Heq.
      apply (Hother Heq). congruence.
    + by rewrite release_other.
Qed.

(** X6: while a holder's token is stored under a name, no sequence of
    acquire and release calls by holders with other tokens, on this or any
    other name, removes or replaces it. *)
Theorem others_cannot_take_lock (r : Redis) (k tok : string)
    (calls : list lock_op) :
  r !! k = Some tok →
  Forall (λ o, key (holder_of o) = k → token (holder_of o) ≠ tok) calls →
  run_lock_ops calls r !! k = Some tok.
Proof.
  intros Hk Hcalls. revert r Hk.
  induction Hcalls as [|o calls Ho _ IH]; intros r Hk; [done|].
  simpl. apply IH. by apply run_lock_op_keeps.
Qed.

Lemma others_cannot_take_lock_witness :
  run_lock_ops
    [Acquire (DistributedLock_init "m" 60 "b");
     Release (DistributedLock_init "m" 60 "b");
     Acquire (DistributedLock_init "n" 60 "a")]
    {[ "lock:m" := "a" ]} !! "lock:m" = Some "a".
Proof.
  apply others_cannot_take_lock; [reflexivity|].
  repeat constructor; simpl; intros H; discriminate.
Defined.

(** X7: entering the lock's context raises RuntimeError and changes nothing
    when the name is taken; when the name is free it stores the holder's
    token, and leaving the context then puts the keyspace back as it was. *)
Theorem lock_context (self : DistributedLock) (r : Redis) :
  (is_Some (r !! key self) →
   aenter self r
   = (inl (RuntimeError ("Could not acquire lock: " +:+ key self)), r))
  ∧ (r !! key self = None →
     (aenter self r).1 = inr self
     ∧ (aenter self r).2 !! key self = Some (token self)
     ∧ aexit self (aenter self r).2 = r).
Proof.
  unfold aenter, aexit. split.
  - intros H. by rewrite acquire_held.
  - intros H. pose proof (acquire_release self r H) as Hrel.
    rewrite acquire_free in * by done. simpl in *.
    split; [done|]. split; [apply lookup_insert_eq|done].
Qed.

End LockExtras.

Module DetourExtras.
Import Matching PricingSpec DetourSpec.

Section Detour.
Variable haversine_km : Q → Q → Q → Q → Q.

Lemma leg_loop_out_of_range (stops : list point) (js : list nat) (total : Q) :
  (∃ j, j ∈ js ∧ (length stops ≤ S j)%nat) →
  leg_loop haversine_km stops js total = Raise IndexError.
Proof.
  revert total. induction js as [|j js IH]; intros total (j' & Hin & Hlen).
  { by apply elem_of_nil in Hin. }
  cbn [leg_loop].
  destruct (stops !! j) as [a|] eqn:Ea; [|done].
  destruct (stops !! (j + 1)%nat) as [b|] eqn:Eb; [|done].
  apply IH. apply elem_of_cons in Hin as [->|Hin]; [|by exists j'].
  apply lookup_lt_Some in Eb. lia.
Qed.

(** X8: [_shared_leg] returns for every passenger index below the number of
    dropoffs; with at least one pickup and an index at or beyond the number
    of dropoffs it raises IndexError; with no pickup at all it returns 0
    whatever the index. *)
Theorem shared_leg_bounds (pickups dropoffs : list point)
    (passenger_idx : nat) :
  ((passenger_idx < length dropoffs)%nat →
   ∃ leg, _shared_leg haversine_km pickups dropoffs passenger_idx = Ok leg)
  ∧ (pickups ≠ [] → (length dropoffs ≤ passenger_idx)%nat →
     _shared_leg haversine_km pickups dropoffs passenger_idx = Raise IndexError)
  ∧ _shared_leg haversine_km [] dropoffs passenger_idx = Ok 0%Q.
Proof.
  split; [|split].
  - intros Hi.
    destruct (shared_leg_sum haversine_km pickups dropoffs passenger_idx Hi)
      as (leg & H & _).
    by exists leg.
  - intros Hne Hi. unfold _shared_leg. apply leg_loop_out_of_range.
    exists (length pickups + passenger_idx - 1)%nat.
    destruct pickups as [|p0 pickups]; [done|]. simpl length. split.
    + apply elem_of_seq. lia.
    + rewrite length_app. simpl. lia.
  - unfold _shared_leg. simpl. by rewrite Nat.sub_diag.
Qed.

(** X9: a candidate for an empty group is accepted at every tolerance that
    is not negative. *)
Theorem detour_ok_first_passenger (new_pickup new_dropoff : point)
    (tolerance : Q) :
  (0 <= tolerance)%Q →
  detour_ok haversine_km [] [] new_pickup new_dropoff tolerance = Ok true.
Proof.
  intros Htol. unfold detour_ok. simpl.
  destruct (Qltb _ (1 # 10)) eqn:E; [done|].
  apply Qltb_ge in E. unfold _shared_leg. simpl.
  set (direct := haversine_km new_pickup.1 new_pickup.2
                   new_dropoff.1 new_dropoff.2) in *.
  destruct (Qltb _ (0 + direct)) eqn:E2; [|done].
  apply Qltb_lt in E2. exfalso.
  assert (0 <= tolerance * direct)%Q
    by (apply Qmult_le_0_compat; [done|lra]).
  lra.
Qed.

Lemma within_tolerance_mono (all_pickups all_dropoffs : list point)
    (tolerance tolerance' : Q) (it : nat * (point * point)) :
  (tolerance <= tolerance')%Q →
  within_tolerance haversine_km all_pickups all_dropoffs tolerance it →
  within_tolerance haversine_km all_pickups all_dropoffs tolerance' it.
Proof.
  unfold within_tolerance. intros Hle H Hd. specialize (H Hd).
  set (direct := directDistance haversine_km it.2.1 it.2.2) in *.
  assert (0 <= (tolerance' - tolerance) * direct)%Q
    by (apply Qmult_le_0_compat; lra).
  lra.
Qed.

(** X10: what [detour_ok] accepts at one tolerance it accepts at every
    larger one. *)
Theorem detour_ok_tolerance_mono (existing_pickups existing_dropoffs : list point)
    (new_pickup new_dropoff : point) (tolerance tolerance' : Q) :
  (tolerance <= tolerance')%Q →
  detour_ok haversine_km existing_pickups existing_dropoffs
    new_pickup new_dropoff tolerance = Ok true →
  detour_ok haversine_km existing_pickups existing_dropoffs
    new_pickup new_dropoff tolerance' = Ok true.
Proof.
  intros Hle. unfold detour_ok.
  set (ps := existing_pickups ++ [new_pickup]).
  set (ds := existing_dropoffs ++ [new_dropoff]).
  assert (Hrange : ∀ it, it ∈ enumerate_from 0 (zip ps ds)
                         → (it.1 < length ds)%nat).
  { intros it [_ Hd]%zip_items_in_range. by apply lookup_lt_Some in Hd. }
  destruct (detour_loop_total haversine_km ps ds tolerance _ Hrange)
    as [[_ Hall]|[-> _]]; [|done].
  intros _.
  destruct (detour_loop_total haversine_km ps ds tolerance' _ Hrange)
    as [[-> _]|[_ (it & Hin & Hbad)]]; [done|].
  exfalso. apply Hbad. eapply within_tolerance_mono; [done|]. by apply Hall.
Qed.

End Detour.

Lemma detour_ok_first_passenger_witness :
  detour_ok Examples.grid_km [] [] (0, 0)%Q (5, 0)%Q (4 # 10) = Ok true.
Proof.
  apply detour_ok_first_passenger. by vm_compute.
Defined.

Lemma detour_ok_tolerance_mono_witness :
  detour_ok Examples.grid_km [(0, 0)%Q] [(5, 0)%Q] (0, 0)%Q (6, 0)%Q (1 # 1)
  = Ok true.
Proof.
  apply (detour_ok_tolerance_mono Examples.grid_km [(0, 0)%Q] [(5, 0)%Q]
           (0, 0)%Q (6, 0)%Q (4 # 10) (1 # 1)).
  - by vm_compute.
  - vm_compute. reflexivity.
Defined.

End DetourExtras.

Module CycleExtras.
Import Repositories Matcher MatcherSpec.

Section Cycle.
Variable haversine_km : Q → Q → Q → Q → Q.
Variable latlng_to_cell : Q → Q → Z → string.
Variable settings : Config.Settings.

#[local] Abbreviation bin := (bin latlng_to_cell settings).
#[local] Abbreviation cell_of :=
  (λ ride : Z * RideModel.t,
     ride_h3_cell latlng_to_cell (RideModel.pickup_lat ride.2)
       (RideModel.pickup_lng ride.2) (Config.h3_resolution settings)).

(** X11: [get_pending_rides] returns exactly the rides whose status is
    PENDING, each once, in order of creation time. *)
Theorem pending_rides_exact (d : Db) :
  (∀ i r, (i, r) ∈ get_pending_rides d
          ↔ rides d !! i = Some r ∧ RideModel.status r = PENDING)
  ∧ NoDup (get_pending_rides d).*1
  ∧ StronglySorted created_at_le (get_pending_rides d).
Proof.
  split; [apply pending_elem|]. split; [apply pending_NoDup|].
  apply pending_sorted.
Qed.

Lemma cell_append_keys {A : Type} (cell : string) (x : A)
    (cell_rides : list (string * list A)) :
  (cell_append cell x cell_rides).*1
  = if decide (cell ∈ cell_rides.*1) then cell_rides.*1
    else cell_rides.*1 ++ [cell].
Proof.
  induction cell_rides as [|[c rs] rest IH]; [done|].
  cbn [cell_append].
  destruct (decide (c = cell)) as [->|Hne]; rewrite !fmap_cons; cbn [fst].
  - clear IH. destruct (decide _) as [H|H]; [reflexivity|].
    exfalso. apply H. left.
  - rewrite IH. repeat case_decide; try done.
    + exfalso. match goal with H : _ ∉ _ |- _ => apply H end. by right.
    + exfalso.
      match goal with H : _ ∈ _ :: _ |- _ =>
        apply elem_of_cons in H as [?|?] end; [congruence|done].
Qed.

Lemma cell_append_members {A : Type} (cell c : string) (x : A) (rs' : list A)
    (cell_rides : list (string * list A)) :
  (c, rs') ∈ cell_append cell x cell_rides →
  (c, rs') ∈ cell_rides
  ∨ (c = cell ∧ ∃ rs, rs' = rs ++ [x]
                      ∧ ((c, rs) ∈ cell_rides ∨ rs = [])).
Proof.
  induction cell_rides as [|[c0 rs0] rest IH]; simpl.
  - intros H%list_elem_of_singleton. injection H as -> ->.
    right. split; [done|]. exists []. split; [done|by right].
  - destruct (decide (c0 = cell)) as [->|Hne].
    + intros [[= -> ->]|Hin]%elem_of_cons.
      * right. split; [done|]. exists rs0. split; [done|]. left. left.
      * left. by right.
    + intros [[= -> ->]|Hin]%elem_of_cons; [left; left|].
      destruct (IH Hin) as [H|(-> & rs & -> & [H| ->])].
      * left. by right.
      * right. split; [done|]. exists rs. split; [done|]. left. by right.
      * right. split; [done|]. exists []. split; [done|by right].
Qed.

(** X12: binning partitions the pending rides: every ride lands in exactly
    one list, no cell key appears twice, no list is empty, and every ride of
    a list has that list's key as its cell. *)
Theorem bin_partitions (pending : list (Z * RideModel.t)) :
  concat (bin pending).*2 ≡ₚ pending
  ∧ NoDup (bin pending).*1
  ∧ (∀ c rs, (c, rs) ∈ bin pending →
             rs ≠ [] ∧ ∀ ride, ride ∈ rs → cell_of ride = c).
Proof.
  split; [apply bin_concat|].
  unfold Matcher.bin.
  enough (H : ∀ acc : list (string * list (Z * RideModel.t)),
             NoDup acc.*1 →
             (∀ c rs, (c, rs) ∈ acc →
                      rs ≠ [] ∧ ∀ ride, ride ∈ rs → cell_of ride = c) →
             let out := foldl (λ cell_rides ride,
                                 cell_append (cell_of ride) ride cell_rides)
                              acc pending in
             NoDup out.*1
             ∧ ∀ c rs, (c, rs) ∈ out →
                       rs ≠ [] ∧ ∀ ride, ride ∈ rs → cell_of ride = c).
  { apply (H []); [constructor|]. intros c rs Hin. by apply elem_of_nil in Hin. }
  induction pending as [|r pending IH]; intros acc Hnd Hacc; [done|].
  simpl. apply IH.
  - rewrite cell_append_keys. case_decide; [done|].
    apply NoDup_app. split; [done|]. split; [|apply NoDup_singleton].
    intros c Hc ->%list_elem_of_singleton. done.
  - intros c rs [Hin|(-> & rs0 & -> & Hrs0)]%cell_append_members.
    { by apply Hacc. }
    split; [by destruct rs0|].
    intros ride [Hin| ->%list_elem_of_singleton]%elem_of_app; [|done].
    destruct Hrs0 as [Hin0| ->]; [|by apply elem_of_nil in Hin].
    by apply (Hacc _ _ Hin0).
Qed.

Variable faults : nat → bool.

#[local] Abbreviation session_block :=
  (session_block haversine_km latlng_to_cell settings faults).
#[local] Abbreviation run_matching_cycle :=
  (run_matching_cycle haversine_km latlng_to_cell settings faults).

Lemma session_block_no_pending (d : Db) (res : result (option Z))
    (st : CycleState) :
  get_pending_rides d = [] →
  session_block (initial d) = (res, st) →
  committed st = d ∧ matched st = 0
  ∧ (res = Ok (Some 0) ∨ ∃ e, res = Raise e).
Proof.
  intros Hp. unfold Matcher.session_block. rewrite bind_run.
  unfold Matcher.query at 1, Matcher.exec. cbn [initial ops session].
  destruct (faults 0).
  { intros [= <- <-]. eauto. }
  cbn [fst snd]. rewrite Hp, bind_run. unfold Matcher.commit. cbn [ops].
  destruct (faults 1); intros [= <- <-]; simpl; eauto.
Qed.

Lemma cycle_skipped_when_held (uuid : string) (w : World) :
  is_Some (redis w !! "lock:matching_engine") →
  run_matching_cycle uuid w = (0, w).
Proof.
  intros Hheld.
  destruct (session_block (initial (database w))) as [res st] eqn:Hres.
  rewrite (run_cycle_unfold _ _ _ _ uuid w res st Hres). cbv zeta.
  rewrite LockSpec.acquire_held by done. simpl. by destruct w.
Qed.

Lemma cycle_noop_without_pending (uuid : string) (w : World) :
  get_pending_rides (database w) = [] →
  run_matching_cycle uuid w = (0, w).
Proof.
  intros Hp.
  destruct (session_block (initial (database w))) as [res st] eqn:Hres.
  pose proof (run_cycle_redis haversine_km latlng_to_cell settings faults
                uuid w) as Hredis.
  destruct (session_block_no_pending _ _ _ Hp Hres) as (Hc & Hm & Hr).
  rewrite (run_cycle_unfold _ _ _ _ uuid w res st Hres) in *. cbv zeta in *.
  destruct (Locks.acquire _ (redis w)).1; simpl in *.
  - rewrite Hredis, Hc, Hm. destruct w. simpl.
    by destruct Hr as [->|[e ->]].
  - rewrite Hredis. by destruct w.
Qed.

(** X13: the cycle is skipped, returning 0 and changing nothing, when the
    lock's name is taken, and it returns 0 and changes nothing when no ride
    is pending, whether or not a database operation fails. *)
Theorem cycle_noop (uuid : string) (w : World) :
  (is_Some (redis w !! "lock:matching_engine")
   → run_matching_cycle uuid w = (0, w))
  ∧ (get_pending_rides (database w) = []
     → run_matching_cycle uuid w = (0, w)).
Proof.
  split; [apply cycle_skipped_when_held|apply cycle_noop_without_pending].
Qed.

Lemma cycle_others_untouched (uuid : string) (w : World) (i : Z) :
  (∀ r, rides (database w) !! i = Some r → RideModel.status r ≠ PENDING) →
  rides (database (run_matching_cycle uuid w).2) !! i
  = rides (database w) !! i.
Proof.
  intros Hnp.
  destruct (session_block (initial (database w))) as [res st] eqn:Hres.
  pose proof (session_block_outcome _ _ _ _ _ _ _ Hres) as Hout.
  rewrite (run_cycle_unfold _ _ _ _ uuid w res st Hres). cbv zeta.
  destruct (Locks.acquire _ (redis w)).1; simpl; [|done].
  destruct res as [x|e].
  - destruct Hout as (-> & _ & T & HT & -> & _).
    apply replay_other. rewrite HT.
    intros ([i' r] & -> & Hin)%list_elem_of_fmap.
    apply pending_elem in Hin as [Hr Hs]. by apply (Hnp r).
  - by destruct Hout as (-> & _).
Qed.

(** X14: the cycle touches pending rides only, and neither adds nor removes
    a ride: the row of a ride that is not pending is the same after the
    cycle, and an id has a row after the cycle exactly when it had one
    before. *)
Theorem cycle_touches_pending_only (uuid : string) (w : World) (i : Z) :
  let d := database w in
  let d' := database (run_matching_cycle uuid w).2 in
  ((∀ r, rides d !! i = Some r → RideModel.status r ≠ PENDING)
   → rides d' !! i = rides d !! i)
  ∧ (is_Some (rides d' !! i) ↔ is_Some (rides d !! i)).
Proof.
  cbv zeta. split; [apply cycle_others_untouched|].
  destruct (rides (database w) !! i) as [r|] eqn:Hr.
  - destruct (decide (RideModel.status r = PENDING)) as [Hp|Hp].
    + destruct (cycle_ride_rows haversine_km latlng_to_cell settings faults
                  uuid w i r Hr Hp) as [[->|(gid & pos & ->)] _];
        split; eauto.
    + rewrite cycle_others_untouched, Hr; [done|]. congruence.
  - rewrite cycle_others_untouched, Hr; [done|]. congruence.
Qed.

End Cycle.

(** X15: after a cycle that held the lock and met no failure, no ride is
    pending, so the next cycle, whatever its token and its failures, returns
    0 and changes nothing. *)
Theorem next_cycle_noop (haversine_km : Q → Q → Q → Q → Q)
    (latlng_to_cell : Q → Q → Z → string) (settings : Config.Settings)
    (faults faults' : nat → bool) (uuid uuid' : string) (w : World) :
  redis w !! "lock:matching_engine" = None →
  (∀ n, faults n = false) →
  let w' := (run_matching_cycle haversine_km latlng_to_cell settings faults
               uuid w).2 in
  get_pending_rides (database w') = []
  ∧ run_matching_cycle haversine_km latlng_to_cell settings faults' uuid' w'
    = (0, w').
Proof.
  intros Hfree Hnf w'.
  assert (Hp : get_pending_rides (database w') = []).
  { destruct (get_pending_rides (database w')) as [|[i r'] rest] eqn:E; [done|].
    exfalso.
    assert (Hin : (i, r') ∈ get_pending_rides (database w'))
      by (rewrite E; left).
    apply pending_elem in Hin as [Hrow Hst]. subst w'.
    destruct (rides (database w) !! i) as [r|] eqn:Hr.
    - destruct (decide (RideModel.status r = PENDING)) as [Hpend|Hnp].
      + destruct (proj2 (cycle_ride_rows haversine_km latlng_to_cell settings
                           faults uuid w i r Hr Hpend) Hfree Hnf)
          as [(gid & pos & Hm) _].
        rewrite Hm in Hrow. injection Hrow as <-. done.
      + rewrite cycle_others_untouched, Hr in Hrow by congruence.
        congruence.
    - rewrite cycle_others_untouched, Hr in Hrow by congruence. done. }
  split; [done|]. by apply cycle_noop_without_pending.
Qed.

Lemma next_cycle_noop_witness :
  get_pending_rides
    (database (run_matching_cycle Examples.grid_km Examples.band_cell
                 Config.default_settings Examples.no_faults "t"
                 Examples.world_three).2) = [].
Proof.
  exact (proj1 (next_cycle_noop Examples.grid_km Examples.band_cell
                  Config.default_settings Examples.no_faults
                  (Examples.fault_at 2) "t" "u" Examples.world_three
                  eq_refl (λ _, eq_refl))).
Defined.

End CycleExtras.

Module CycleInvariants.
Import Repositories Matcher MatcherSpec CycleVocabulary.

Lemma evolved_refl (d : Db) : evolved d d.
Proof.
  split.
  - intros k. destruct (cabs d !! k); [by left|done].
  - intros k g0 H. exists g0. split; [done|]. split; [done|by left].
Qed.

Lemma group_limits_evolved (d0 d : Db) (g : RideGroupModel.t) :
  evolved d0 d → group_limits d g = group_limits d0 g.
Proof.
  intros [Hcabs _]. unfold group_limits, cab_of, get_cab_by_id.
  destruct (RideGroupModel.cab_id g) as [c|]; [|done].
  destruct (decide (c = 0)); [done|].
  specialize (Hcabs c).
  destruct (cabs d0 !! c) as [c0|], (cabs d !! c) as [c'|]; try done.
  by destruct Hcabs as [->| ->].
Qed.

Lemma evolved_rides (d0 d : Db) (m : gmap Z RideModel.t) :
  evolved d0 d → evolved d0 (set_rides d m).
Proof. done. Qed.

Lemma evolved_join (d0 d : Db) (k : Z) (g : RideGroupModel.t)
    (r : RideModel.t) :
  evolved d0 d →
  (∀ g0, ride_groups d0 !! k = Some g0 → same_group g0 g) →
  ¬ capacity_exceeded d g r →
  evolved d0 (set_ride_groups d (<[k := joined g r]> (ride_groups d))).
Proof.
  intros Hev Hsame Hcap. split; [apply Hev|].
  intros k' g0 Hg0. simpl. destruct (decide (k = k')) as [<-|Hne].
  - rewrite lookup_insert_eq. exists (joined g r).
    split; [done|]. split; [apply (Hsame g0 Hg0)|]. right.
    unfold within_limits, capacity_exceeded in *.
    change (group_limits d0 (joined g r)) with (group_limits d0 g).
    rewrite (group_limits_evolved d0 d g Hev) in Hcap.
    unfold joined, RideGroupModel.set_occupied.
    cbn [RideGroupModel.seats_occupied RideGroupModel.luggage_occupied]. lia.
  - rewrite lookup_insert_ne by done. by apply Hev.
Qed.

Lemma evolved_new (d0 d : Db) (cell : string) (r : RideModel.t) :
  evolved d0 d → evolved d0 (with_new_group d cell r).
Proof.
  intros [Hcabs Hgroups]. unfold with_new_group.
  assert (Hg : ∀ k g0, ride_groups d0 !! k = Some g0 →
            ∃ g, <[next_id (ride_groups d)
                   := new_group_for cell r (head (get_available d))]>
                   (ride_groups d) !! k = Some g
                 ∧ same_group g0 g ∧ (g = g0 ∨ within_limits d0 g)).
  { intros k g0 Hg0. destruct (Hgroups k g0 Hg0) as (g & Hk & Hs).
    exists g. split; [|done]. rewrite lookup_insert_ne; [done|].
    intros <-. by rewrite next_id_fresh in Hk. }
  destruct (head (get_available d)) as [c|]; [|by split].
  split; [|exact Hg]. intros k. simpl. specialize (Hcabs k).
  destruct (decide (c.1 = k)) as [<-|Hne].
  - rewrite lookup_alter_eq.
    destruct (cabs d0 !! c.1) as [c0|], (cabs d !! c.1) as [c'|]; try done.
    simpl. right. by destruct Hcabs as [->| ->].
  - by rewrite lookup_alter_ne.
Qed.

Lemma active_groups_rows (cell : string) (d : Db) (k : Z)
    (g : RideGroupModel.t) :
  (k, g) ∈ get_active_groups_for_update cell d → ride_groups d !! k = Some g.
Proof.
  unfold get_active_groups_for_update. intros H.
  apply elem_of_map_to_list.
  destruct (decide (cell = "")).
  - by apply list_elem_of_filter in H as [_ H].
  - apply list_elem_of_filter in H as [_ H].
    by apply list_elem_of_filter in H as [_ H].
Qed.

Lemma tracks_active (d0 d : Db) (cell : string) :
  evolved d0 d → tracks d0 (get_active_groups_for_update cell d).
Proof.
  intros [_ Hgroups] k g Hin g0 Hg0.
  apply active_groups_rows in Hin.
  destruct (Hgroups k g0 Hg0) as (g' & Hk & Hs & _). congruence.
Qed.

Section Cycle.
Variable haversine_km : Q → Q → Q → Q → Q.
Variable latlng_to_cell : Q → Q → Z → string.
Variable settings : Config.Settings.
Variable faults : nat → bool.
Variable d0 : Db.

#[local] Abbreviation step_to := (step_to faults).
#[local] Abbreviation place_ride := (place_ride haversine_km settings faults).
#[local] Abbreviation place_rides := (place_rides haversine_km settings faults).
#[local] Abbreviation process_cells :=
  (process_cells haversine_km settings faults).
#[local] Abbreviation session_block :=
  (session_block haversine_km latlng_to_cell settings faults).
#[local] Abbreviation run_matching_cycle :=
  (run_matching_cycle haversine_km latlng_to_cell settings faults).

Lemma place_ride_evolved (pricing : Pricing.PricingEngine)
    (active_requests available_cabs : Z) (ride : Z * RideModel.t)
    (cell : string) (st : list (Z * RideGroupModel.t) * GData)
    (s : CycleState) :
  evolved d0 (session s) → tracks d0 st.1 → covers st →
  step_to (place_ride pricing active_requests available_cabs ride cell st) s
    (λ st' s', evolved d0 (session s') ∧ tracks d0 st'.1 ∧ covers st').
Proof.
  destruct st as [groups gdata]. cbn [fst]. intros Hev Htr Hcov.
  destruct (first_fit_split haversine_km settings ride (session s) gdata
              groups Hcov)
    as [Hall|(before & g & after & ps & ds & Heq & Hb & Hacc)].
  - eapply step_mono; [by apply place_ride_new|].
    intros st' s' (-> & Hs & Hm). cbn [fst].
    split; [rewrite Hs; by apply evolved_rides, evolved_new|].
    split; [|by apply covers_new].
    intros k g [Hin|Hin%list_elem_of_singleton]%elem_of_app g0 Hg0.
    + by apply (Htr k g Hin).
    + injection Hin as -> ->. exfalso.
      destruct (proj2 Hev _ _ Hg0) as (g' & Hk & _).
      by rewrite next_id_fresh in Hk.
  - unfold Matcher.place_ride. cbn [fst snd]. rewrite Heq.
    apply step_bind. eapply step_mono; [by apply scan_first_fit|].
    intros r s' (-> & Hs & Hm). apply step_ret. cbn [fst].
    assert (Hg : ∀ g0, ride_groups d0 !! g.1 = Some g0 → same_group g0 g.2).
    { intros g0 Hg0. apply (Htr g.1 g.2); [|done].
      rewrite Heq. apply elem_of_app. right. rewrite <- surjective_pairing.
      left. }
    split; [|split; [|by eapply covers_join]].
    + rewrite Hs. apply evolved_rides, evolved_join; [done|done|].
      apply Hacc.
    + intros k g' Hin g0 Hg0.
      apply elem_of_app in Hin as [Hin|[Hin|Hin]%elem_of_cons].
      * apply (Htr k g'); [|done]. rewrite Heq. apply elem_of_app. by left.
      * injection Hin as -> ->. apply (Hg g0 Hg0).
      * apply (Htr k g'); [|done]. rewrite Heq.
        apply elem_of_app. right. by right.
Qed.

Lemma place_rides_evolved (pricing : Pricing.PricingEngine)
    (active_requests available_cabs : Z) (cell : string)
    (rides_in_cell : list (Z * RideModel.t))
    (st : list (Z * RideGroupModel.t) * GData) (s : CycleState) :
  evolved d0 (session s) → tracks d0 st.1 → covers st →
  step_to (place_rides pricing active_requests available_cabs cell
             rides_in_cell st) s
    (λ _ s', evolved d0 (session s')).
Proof.
  revert st s. induction rides_in_cell as [|ride rest IH];
    intros st s Hev Htr Hcov.
  - by apply step_ret.
  - cbn [Matcher.place_rides]. apply step_bind.
    eapply step_mono; [by apply place_ride_evolved|].
    intros st1 s1 (Hev1 & Htr1 & Hcov1). by apply IH.
Qed.

Lemma process_cells_evolved (pricing : Pricing.PricingEngine)
    (active_requests available_cabs : Z)
    (cell_rides : list (string * list (Z * RideModel.t))) (s : CycleState) :
  evolved d0 (session s) →
  step_to (process_cells pricing active_requests available_cabs cell_rides) s
    (λ _ s', evolved d0 (session s')).
Proof.
  revert s. induction cell_rides as [|[cell rides_in_cell] rest IH];
    intros s Hev.
  - by apply step_ret.
  - cbn [Matcher.process_cells]. apply step_bind, step_query. intros _.
    apply step_bind. eapply step_mono; [apply preload_covers|].
    intros gdata s1 (Hs1 & Hm1 & Hin & _). simpl in Hs1.
    apply step_bind.
    eapply step_mono.
    { apply place_rides_evolved; [by rewrite Hs1| |exact Hin].
      by apply tracks_active. }
    intros st2 s2 Hev2. by apply IH.
Qed.

End Cycle.

Section Run.
Variable haversine_km : Q → Q → Q → Q → Q.
Variable latlng_to_cell : Q → Q → Z → string.
Variable settings : Config.Settings.
Variable faults : nat → bool.

#[local] Abbreviation session_block :=
  (session_block haversine_km latlng_to_cell settings faults).
#[local] Abbreviation run_matching_cycle :=
  (run_matching_cycle haversine_km latlng_to_cell settings faults).
#[local] Abbreviation place_ride := (place_ride haversine_km settings faults).
#[local] Abbreviation rejects := (rejects haversine_km settings).

Lemma session_block_evolved (d : Db) (res : result (option Z))
    (st : CycleState) :
  session_block (initial d) = (res, st) → evolved d (committed st).
Proof.
  unfold Matcher.session_block. rewrite bind_run.
  unfold Matcher.query at 1, Matcher.exec. cbn [initial ops session].
  destruct (faults 0).
  { intros [= <- <-]. apply evolved_refl. }
  cbn [fst snd]. destruct (get_pending_rides d) as [|r0 pending].
  - rewrite bind_run. unfold Matcher.commit. cbn [ops].
    destruct (faults 1); intros [= <- <-]; apply evolved_refl.
  - rewrite bind_run. unfold Matcher.query at 1, Matcher.exec. cbn [ops session].
    destruct (faults 1).
    { intros [= <- <-]. apply evolved_refl. }
    cbn [fst snd]. rewrite bind_run.
    match goal with
    | |- context [Matcher.process_cells _ _ _ ?pr ?a ?c ?cells ?s] =>
      pose proof (process_cells_evolved haversine_km settings faults d
                    pr a c cells s (evolved_refl d)) as [Hc Hres];
      destruct (Matcher.process_cells _ _ _ pr a c cells s) as [[[]|e] s3]
    end; simpl in Hc, Hres.
    + rewrite bind_run. unfold Matcher.commit.
      destruct (faults (ops s3)); intros [= <- <-]; simpl.
      * rewrite Hc. apply evolved_refl.
      * exact Hres.
    + intros [= <- <-]. rewrite Hc. apply evolved_refl.
Qed.

Lemma cycle_evolved (uuid : string) (w : World) :
  evolved (database w) (database (run_matching_cycle uuid w).2).
Proof.
  destruct (session_block (initial (database w))) as [res st] eqn:Hres.
  rewrite (run_cycle_unfold _ _ _ _ uuid w res st Hres). cbv zeta.
  destruct (Locks.acquire _ (redis w)).1; simpl.
  - by eapply session_block_evolved.
  - apply evolved_refl.
Qed.

(** X16: whatever happens in a cycle, no cab is added or removed, no cab's
    seat or luggage capacity changes, and no cab that was unavailable
    becomes available. *)
Theorem cycle_only_takes_cabs (uuid : string) (w : World) (k : Z) :
  let before := cabs (database w) !! k in
  let after := cabs (database (run_matching_cycle uuid w).2) !! k in
  (after = None ↔ before = None)
  ∧ (∀ c c', before = Some c → after = Some c' →
       CabModel.max_seats c' = CabModel.max_seats c
       ∧ CabModel.max_luggage c' = CabModel.max_luggage c
       ∧ (CabModel.is_available c' = true → CabModel.is_available c = true)).
Proof.
  cbv zeta. destruct (cycle_evolved uuid w) as [Hcabs _]. specialize (Hcabs k).
  destruct (cabs (database w) !! k) as [c0|],
           (cabs (database _) !! k) as [c1|]; try done.
  split; [done|]. intros c c' [= <-] [= <-].
  by destruct Hcabs as [->| ->].
Qed.

(** X17: a group that existed before the cycle still exists after it, with
    the same cab, status and cell; and if its row changed, its seats and
    luggage are within the limits the scan uses for it (its cab's, or 4 and
    3 without a cab): joining never over-books a group. *)
Theorem cycle_keeps_groups_within_limits (uuid : string) (w : World) (k : Z)
    (g0 : RideGroupModel.t) :
  ride_groups (database w) !! k = Some g0 →
  ∃ g, ride_groups (database (run_matching_cycle uuid w).2) !! k = Some g
       ∧ RideGroupModel.cab_id g = RideGroupModel.cab_id g0
       ∧ RideGroupModel.status g = RideGroupModel.status g0
       ∧ RideGroupModel.h3_cell g = RideGroupModel.h3_cell g0
       ∧ (g = g0
          ∨ (RideGroupModel.seats_occupied g
               ≤ (group_limits (database w) g).1
             ∧ RideGroupModel.luggage_occupied g
               ≤ (group_limits (database w) g).2)).
Proof.
  intros Hg0. destruct (cycle_evolved uuid w) as [_ Hgroups].
  destruct (Hgroups k g0 Hg0) as (g & Hk & (H1 & H2 & H3) & H4).
  by exists g.
Qed.

Lemma available_elem (d : Db) (k : Z) (c : CabModel.t) :
  (k, c) ∈ get_available d
  ↔ cabs d !! k = Some c ∧ CabModel.is_available c = true.
Proof.
  unfold get_available.
  rewrite list_elem_of_filter, elem_of_map_to_list. simpl. tauto.
Qed.

(** X18: when no group takes the ride and a cab is available, the new group
    is created on the first available cab, that cab is marked unavailable
    at once, and it is not among the cabs offered to later rides; no other
    cab's availability changes. *)
Theorem new_group_takes_cab (pricing : Pricing.PricingEngine)
    (active_requests available_cabs : Z) (ride : Z * RideModel.t)
    (cell : string) (groups : list (Z * RideGroupModel.t)) (gdata : GData)
    (s : CycleState) (c : Z * CabModel.t) :
  (∀ n, faults n = false) →
  Forall (rejects (session s) gdata ride.2) groups →
  head (get_available (session s)) = Some c →
  ∃ st' s',
    place_ride pricing active_requests available_cabs ride cell
      (groups, gdata) s = (Ok st', s')
    ∧ (RideGroupModel.cab_id
         <$> ride_groups (session s') !! next_id (ride_groups (session s)))
      = Some (Some c.1)
    ∧ cabs (session s') !! c.1 = Some (CabModel.set_is_available c.2 false)
    ∧ (∀ x, (c.1, x) ∉ get_available (session s'))
    ∧ (∀ k x, k ≠ c.1 →
         ((k, x) ∈ get_available (session s')
          ↔ (k, x) ∈ get_available (session s))).
Proof.
  intros Hnf Hall Hhead.
  pose proof (place_ride_new haversine_km settings faults pricing
                active_requests available_cabs ride cell groups gdata s Hall)
    as Hnew.
  apply (step_to_returns _ _ _ _ Hnf) in Hnew
    as (st' & s' & Hrun & (_ & Hs & _) & _).
  exists st', s'. split; [done|].
  assert (Hc : cabs (session s) !! c.1 = Some c.2).
  { apply head_Some in Hhead as [l' Hl].
    assert (Hin : (c.1, c.2) ∈ get_available (session s))
      by (rewrite Hl, <- surjective_pairing; left).
    by apply available_elem in Hin as [? _]. }
  rewrite Hs. unfold with_new_group. rewrite Hhead.
  cbn [set_rides set_cabs set_ride_groups rides ride_groups cabs].
  split; [by rewrite lookup_insert_eq|].
  split; [by rewrite lookup_alter_eq, Hc|].
  split.
  - intros x Hin.
    apply available_elem in Hin as [Hrow Hav]. simpl in Hrow.
    rewrite lookup_alter_eq, Hc in Hrow. injection Hrow as <-. done.
  - intros k x Hne. rewrite !available_elem. simpl.
    by rewrite lookup_alter_ne.
Qed.

End Run.

Lemma cycle_keeps_groups_within_limits_witness :
  ∃ g, ride_groups
         (database (run_matching_cycle Examples.grid_km Examples.band_cell
                      Config.default_settings Examples.no_faults "t"
                      {| redis := ∅; database := Examples.db_two_groups |}).2)
         !! 2 = Some g
       ∧ RideGroupModel.cab_id g = Some 2.
Proof.
  destruct (cycle_keeps_groups_within_limits Examples.grid_km
              Examples.band_cell Config.default_settings Examples.no_faults
              "t" {| redis := ∅; database := Examples.db_two_groups |}
              2 Examples.open_group eq_refl) as (g & H1 & H2 & _).
  by exists g.
Defined.

Lemma new_group_takes_cab_witness :
  ∃ st' s',
    place_ride Examples.grid_km Config.default_settings Examples.no_faults
      (engine_of_settings Config.default_settings) 3 1
      (2, Examples.pending_ride 0 0 6 0 5) "A" ([], ∅)
      (initial (database Examples.world_three)) = (Ok st', s')
    ∧ ∀ x, (1, x) ∉ get_available (session s').
Proof.
  destruct (new_group_takes_cab Examples.grid_km Config.default_settings
              Examples.no_faults
              (engine_of_settings Config.default_settings) 3 1
              (2, Examples.pending_ride 0 0 6 0 5) "A" [] ∅
              (initial (database Examples.world_three))
              (1, Examples.sedan) (λ _, eq_refl) (Forall_nil_2 _)
              ltac:(vm_compute; reflexivity))
    as (st' & s' & H1 & _ & _ & H4 & _).
  by exists st', s'.
Defined.

End CycleInvariants.

Module RouteExtras.
Import Repositories Routes MatcherSpec.

Lemma cancellable (st : RideStatus) :
  CANCELLED ∈ default ∅ (RIDE_TRANSITIONS !! st)
  ↔ st = PENDING ∨ st = MATCHED.
Proof.
  rewrite StateMachineSpec.allowed_lookup.
  rewrite <- (bool_decide_eq_true (CANCELLED ∈ _)).
  destruct st; vm_compute; split; intros H; try done; eauto;
    by destruct H.
Qed.

Lemma rides_free_group (ride_id : Z) (ride : RideModel.t) (gid : Z)
    (group : RideGroupModel.t) (d : Db) :
  rides (free_group ride_id ride gid group d) = rides d.
Proof.
  unfold free_group. destruct (filter _ _); [|done].
  destruct (RideGroupModel.cab_id group) as [c|]; [|done].
  destruct (decide (c = 0)); [done|]. by destruct (get_cab_by_id _ _).
Qed.

Lemma rides_after_cancel (ride_id : Z) (d : Db) (ride : RideModel.t) :
  rides d !! ride_id = Some ride →
  RideModel.status ride = PENDING ∨ RideModel.status ride = MATCHED →
  ∃ d1,
    cancel_ride ride_id d
    = (Returns (ride_id,
                RideModel.set_ride_group_id
                  (RideModel.set_status ride CANCELLED) None),
       set_rides d1
         (<[ride_id := RideModel.set_ride_group_id
                         (RideModel.set_status ride CANCELLED) None]>
            (rides d)))
    ∧ rides d1 = rides d.
Proof.
  intros Hrow Hst. unfold cancel_ride. rewrite Hrow.
  destruct (decide _) as [Hn|_].
  { exfalso. apply Hn. by apply cancellable. }
  destruct (RideModel.ride_group_id ride) as [gid|]; [|by exists d].
  destruct (decide (gid = 0)); [by exists d|].
  destruct (ride_groups d !! gid) as [group|]; [|by exists d].
  exists (free_group ride_id ride gid group d).
  by rewrite rides_free_group.
Qed.

Lemma cancel_ride_refused (ride_id : Z) (d : Db) (ride : RideModel.t) :
  rides d !! ride_id = Some ride →
  RideModel.status ride = ON_TRIP ∨ RideModel.status ride = COMPLETED
  ∨ RideModel.status ride = CANCELLED →
  get_db (cancel_ride ride_id) d = (Fails (HTTPException 409), d).
Proof.
  intros Hrow Hst. unfold get_db, cancel_ride. rewrite Hrow.
  destruct (decide _) as [_|Hin]; [done|].
  apply dec_stable, cancellable in Hin.
  destruct Hst as [?|[?|?]], Hin; congruence.
Qed.

(** X19: [cancel_ride] answers 404 for an unknown ride and 409 for a ride
    that is ON_TRIP, COMPLETED or CANCELLED, and leaves every row as it was
    in both cases; for a PENDING or MATCHED ride it returns the ride with
    status CANCELLED and no group, stores that row, and leaves the rows of
    all other rides as they were. *)
Theorem cancel_ride_outcome (ride_id : Z) (d : Db) :
  (rides d !! ride_id = None →
   get_db (cancel_ride ride_id) d = (Fails (HTTPException 404), d))
  ∧ (∀ ride, rides d !! ride_id = Some ride →
       RideModel.status ride = ON_TRIP ∨ RideModel.status ride = COMPLETED
       ∨ RideModel.status ride = CANCELLED →
       get_db (cancel_ride ride_id) d = (Fails (HTTPException 409), d))
  ∧ (∀ ride, rides d !! ride_id = Some ride →
       RideModel.status ride = PENDING ∨ RideModel.status ride = MATCHED →
       ∃ d',
         get_db (cancel_ride ride_id) d
         = (Returns (ride_id,
                     RideModel.set_ride_group_id
                       (RideModel.set_status ride CANCELLED) None), d')
         ∧ rides d' !! ride_id
           = Some (RideModel.set_ride_group_id
                     (RideModel.set_status ride CANCELLED) None)
         ∧ ∀ i, i ≠ ride_id → rides d' !! i = rides d !! i).
Proof.
  split; [|split].
  - intros H. unfold get_db, cancel_ride. by rewrite H.
  - apply cancel_ride_refused.
  - intros ride Hrow Hst.
    destruct (rides_after_cancel ride_id d ride Hrow Hst) as (d1 & Hrun & Hr).
    unfold get_db. rewrite Hrun. eexists. split; [done|]. simpl.
    split; [by rewrite lookup_insert_eq|].
    intros i Hne. by rewrite lookup_insert_ne.
Qed.

Lemma cancel_ride_outcome_witness :
  ∃ d',
    get_db (cancel_ride 9) Examples.db_two_groups
    = (Returns (9, RideModel.set_ride_group_id
                     (RideModel.set_status
                        (Examples.pending_ride 0 0 5 0 10) CANCELLED) None),
       d').
Proof.
  destruct (proj2 (proj2 (cancel_ride_outcome 9 Examples.db_two_groups))
              (Examples.pending_ride 0 0 5 0 10) eq_refl (or_introl eq_refl))
    as (d' & H & _).
  by exists d'.
Defined.

(** X20: a ride that was cancelled cannot be cancelled again: the second
    call answers 409 and changes nothing, so its group's capacity is freed
    once only. *)
Theorem cancel_ride_once (ride_id : Z) (d d1 : Db) (x : Z * RideModel.t) :
  cancel_ride ride_id d = (Returns x, d1) →
  get_db (cancel_ride ride_id) d1 = (Fails (HTTPException 409), d1).
Proof.
  intros Hrun.
  assert (Hrow : ∃ r, rides d1 !! ride_id = Some r
                      ∧ RideModel.status r = CANCELLED).
  { unfold cancel_ride in Hrun.
    destruct (rides d !! ride_id) as [ride|]; [|done].
    destruct (decide _); [done|]. injection Hrun as _ <-. simpl.
    rewrite lookup_insert_eq. by eexists. }
  destruct Hrow as (r & Hr & Hst).
  apply (cancel_ride_refused ride_id d1 r Hr). auto.
Qed.

Lemma cancel_ride_once_witness :
  get_db (cancel_ride 9) (cancel_ride 9 Examples.db_two_groups).2
  = (Fails (HTTPException 409), (cancel_ride 9 Examples.db_two_groups).2).
Proof.
  apply (cancel_ride_once 9 Examples.db_two_groups _
           (9, RideModel.set_ride_group_id
                 (RideModel.set_status (Examples.pending_ride 0 0 5 0 10)
                    CANCELLED) None)).
  vm_compute. reflexivity.
Defined.

Lemma groups_free_group (ride_id : Z) (ride : RideModel.t) (gid : Z)
    (group : RideGroupModel.t) (d : Db) :
  ∃ st,
    ride_groups (free_group ride_id ride gid group d)
    = <[gid := set_group_status
                 (RideGroupModel.set_occupied group
                    (Z.max 0 (RideGroupModel.seats_occupied group
                              - RideModel.seats_requested ride))
                    (Z.max 0 (RideGroupModel.luggage_occupied group
                              - RideModel.luggage_count ride)))
                 st]> (ride_groups d)
    ∧ (st = RideGroupModel.status group ∨ st = "INACTIVE").
Proof.
  unfold free_group. destruct (filter _ _).
  - exists "INACTIVE". split; [|by right].
    destruct (RideGroupModel.cab_id group) as [c|];
      [destruct (decide (c = 0)); [|destruct (get_cab_by_id _ _)]|];
      simpl; apply insert_insert_eq.
  - exists (RideGroupModel.status group). split; [|by left].
    simpl. by destruct group.
Qed.

(** X21: cancelling a ride that holds a place in a group takes exactly the
    ride's seats and luggage off that group, never below zero, keeps the
    group's cab, and leaves every other group as it was. *)
Theorem cancel_frees_capacity (ride_id : Z) (d : Db) (ride : RideModel.t)
    (gid : Z) (group : RideGroupModel.t) :
  rides d !! ride_id = Some ride →
  RideModel.status ride = PENDING ∨ RideModel.status ride = MATCHED →
  RideModel.ride_group_id ride = Some gid → gid ≠ 0 →
  ride_groups d !! gid = Some group →
  let d' := (cancel_ride ride_id d).2 in
  (∃ g', ride_groups d' !! gid = Some g'
         ∧ RideGroupModel.seats_occupied g'
           = Z.max 0 (RideGroupModel.seats_occupied group
                      - RideModel.seats_requested ride)
         ∧ RideGroupModel.luggage_occupied g'
           = Z.max 0 (RideGroupModel.luggage_occupied group
                      - RideModel.luggage_count ride)
         ∧ 0 ≤ RideGroupModel.seats_occupied g'
         ∧ 0 ≤ RideGroupModel.luggage_occupied g'
         ∧ RideGroupModel.cab_id g' = RideGroupModel.cab_id group)
  ∧ (∀ k, k ≠ gid → ride_groups d' !! k = ride_groups d !! k).
Proof.
  intros Hrow Hst Hgid Hne Hgroup d'. subst d'.
  unfold cancel_ride. rewrite Hrow.
  destruct (decide _) as [Hn|_].
  { exfalso. apply Hn. by apply cancellable. }
  rewrite Hgid. destruct (decide (gid = 0)); [done|]. rewrite Hgroup.
  cbn [snd set_rides ride_groups].
  destruct (groups_free_group ride_id ride gid group d) as (st & -> & _).
  split.
  - eexists. split; [apply lookup_insert_eq|]. simpl.
    repeat split; lia.
  - intros k Hk. by rewrite lookup_insert_ne.
Qed.

Lemma cancel_frees_capacity_witness :
  ∃ g', ride_groups (cancel_ride 9 Examples.db_ride_in_group).2 !! 2 = Some g'
        ∧ RideGroupModel.seats_occupied g' = 0.
Proof.
  destruct (proj1 (cancel_frees_capacity 9 Examples.db_ride_in_group
                     (Matcher.matched_ride 2 125
                        (Examples.pending_ride 0 0 5 0 10))
                     2 Examples.open_group eq_refl (or_intror eq_refl)
                     eq_refl ltac:(lia) eq_refl))
    as (g' & H1 & H2 & _).
  exists g'. split; [exact H1|]. rewrite H2. reflexivity.
Defined.

Lemma next_id_positive {A : Type} (m : gmap Z A) : 0 < next_id m.
Proof.
  unfold next_id.
  enough (0 ≤ map_fold (λ k _ acc, Z.max k acc) 0 m) by lia.
  apply (map_fold_weak_ind (λ acc _, 0 ≤ acc)); [done|].
  intros i x m' acc _ IH. lia.
Qed.

Lemma idempotency_lookup_created (k : string) (d : Db) (i : Z)
    (row : RideModel.t) :
  get_by_idempotency_key k d = Returns None →
  rides d !! i = None →
  RideModel.idempotency_key row = Some k →
  get_by_idempotency_key k (set_rides d (<[i := row]> (rides d)))
  = Returns (Some (i, row)).
Proof.
  unfold get_by_idempotency_key. intros Hnone Hfree Hkey. simpl.
  set (P := λ x : Z * RideModel.t, RideModel.idempotency_key x.2 = Some k).
  assert (Hold : filter P (map_to_list (rides d)) = []).
  { fold P in Hnone. by destruct (filter P (map_to_list (rides d))) as [|? [|]]. }
  assert (Hperm : filter P (map_to_list (<[i := row]> (rides d)))
                  ≡ₚ [(i, row)]).
  { rewrite map_to_list_insert by done.
    rewrite filter_cons_True by done. by rewrite Hold. }
  apply Permutation_singleton_r in Hperm. by rewrite Hperm.
Qed.

Lemma key_in_use_rows (key : option string) (d : Db) :
  key_in_use key d
  ↔ ∃ k i r, key = Some k ∧ rides d !! i = Some r
             ∧ RideModel.idempotency_key r = Some k.
Proof.
  unfold key_in_use. destruct key as [k|].
  - rewrite Exists_exists. split.
    + intros ([i r] & Hin & Hk). apply elem_of_map_to_list in Hin.
      by exists k, i, r.
    + intros (k' & i & r & [= <-] & Hi & Hk). exists (i, r).
      split; [by apply elem_of_map_to_list|done].
  - split; [done|]. by intros (k & i & r & H & _).
Qed.

Lemma key_free_lookup (k : string) (d : Db) :
  ¬ key_in_use (Some k) d → get_by_idempotency_key k d = Returns None.
Proof.
  intros Hfree. unfold get_by_idempotency_key.
  destruct (filter _ _) as [|x l] eqn:E; [done|].
  exfalso. apply Hfree. simpl. apply Exists_exists. exists x.
  assert (Hx : x ∈ filter (λ x : Z * RideModel.t,
                             RideModel.idempotency_key x.2 = Some k)
                 (map_to_list (rides d))) by (rewrite E; left).
  apply list_elem_of_filter in Hx as [Hk Hx]. done.
Qed.

(** X22: [create_ride] on the repository raises IntegrityError and stores
    nothing exactly when the user is not a stored user or the idempotency
    key is that of a stored ride.  Otherwise it never overwrites a ride: the
    new row goes under an id that was free, with the status asked for, no
    group and no price; all other rides, the groups, the cabs and the users
    are as before; a new PENDING ride is among the pending rides the next
    matching cycle fetches; and a look-up by the new ride's idempotency key
    finds that ride and no other. *)
Theorem created_ride_is_pending (body : RideCreateRequest)
    (status : RideStatus) (now : Z) (d : Db) :
  let refused :=
    user_id body ∉ users d
    ∨ ∃ k i r, idempotency_key body = Some k ∧ rides d !! i = Some r
               ∧ RideModel.idempotency_key r = Some k in
  (refused → create_ride_row body status now d = (Fails IntegrityError, d))
  ∧ (¬ refused →
     ∃ new d',
       create_ride_row body status now d = (Returns new, d')
       ∧ rides d !! new.1 = None
       ∧ rides d' !! new.1 = Some new.2
       ∧ (∀ i, i ≠ new.1 → rides d' !! i = rides d !! i)
       ∧ ride_groups d' = ride_groups d ∧ cabs d' = cabs d
       ∧ users d' = users d
       ∧ RideModel.status new.2 = status
       ∧ RideModel.ride_group_id new.2 = None ∧ RideModel.price new.2 = None
       ∧ RideModel.user_id new.2 = user_id body
       ∧ RideModel.idempotency_key new.2 = idempotency_key body
       ∧ (status = PENDING → new ∈ get_pending_rides d')
       ∧ (∀ k, idempotency_key body = Some k →
            get_by_idempotency_key k d' = Returns (Some new))).
Proof.
  cbv zeta. unfold create_ride_row. split.
  - intros [Hu|Hk].
    + by rewrite decide_True.
    + destruct (decide (user_id body ∉ users d)); [done|].
      rewrite decide_True; [done|]. by apply key_in_use_rows.
  - intros Hok.
    rewrite decide_False by (intros Hu; apply Hok; by left).
    rewrite decide_False
      by (intros Hk; apply Hok; right; by apply key_in_use_rows).
    eexists _, _. split; [reflexivity|]. cbn [fst snd set_rides rides].
    split; [apply next_id_fresh|].
    split; [apply lookup_insert_eq|].
    split; [intros i Hi; by rewrite lookup_insert_ne|].
    do 8 (split; [done|]). split.
    + intros ->. apply pending_elem. simpl. by rewrite lookup_insert_eq.
    + intros k Hk. apply idempotency_lookup_created; [| |done].
      * apply key_free_lookup. rewrite <- Hk. intros Hin. apply Hok. right.
        by apply key_in_use_rows.
      * apply next_id_fresh.
Qed.

(** X23: with a non-empty idempotency key, repeating a [create_ride] request
    that returned a ride returns that same ride and changes nothing, also
    when the clock has moved on. *)
Theorem create_ride_idempotent (body : RideCreateRequest) (now now' : Z)
    (d d1 : Db) (k : string) (ride : Z * RideModel.t) :
  idempotency_key body = Some k → k ≠ "" →
  create_ride body now d = (Returns ride, d1) →
  create_ride body now' d1 = (Returns ride, d1).
Proof.
  intros Hk Hne. unfold create_ride. rewrite Hk.
  destruct (decide (k = "")); [done|].
  destruct (get_by_idempotency_key k d) as [[existing|]|e] eqn:E.
  - intros [= <- <-]. by rewrite E.
  - unfold create_ride_row.
    destruct (decide (user_id body ∉ users d)); [done|].
    destruct (decide (key_in_use _ d)); [done|]. intros [= <- <-].
    rewrite (idempotency_lookup_created k d _ _ E); [done| |done].
    apply next_id_fresh.
  - done.
Qed.

Lemma create_ride_idempotent_witness :
  create_ride Examples.example_request 8
    (create_ride Examples.example_request 7 Examples.db_two_groups).2
  = create_ride Examples.example_request 7 Examples.db_two_groups.
Proof.
  destruct (create_ride Examples.example_request 7 Examples.db_two_groups)
    as [res d1] eqn:E.
  assert (Hres : ∃ ride, res = Returns ride).
  { vm_compute in E. injection E as <- _. by eexists. }
  destruct Hres as [ride ->].
  exact (create_ride_idempotent Examples.example_request 7 8
           Examples.db_two_groups d1 "k1" ride eq_refl ltac:(done) E).
Defined.

Lemma groups_with_new_group (d : Db) (cell : string) (r : RideModel.t) :
  ride_groups (Matcher.with_new_group d cell r)
  = <[next_id (ride_groups d)
      := Matcher.new_group_for cell r (head (get_available d))]>
      (ride_groups d).
Proof. unfold Matcher.with_new_group. by destruct (head _). Qed.

Lemma cabs_with_new_group (d : Db) (cell : string) (r : RideModel.t) :
  cabs (Matcher.with_new_group d cell r)
  = match head (get_available d) with
    | Some c => alter (λ x, CabModel.set_is_available x false) c.1 (cabs d)
    | None => cabs d
    end.
Proof. unfold Matcher.with_new_group. by destruct (head _). Qed.

Lemma filter_none {A : Type} (P : A → Prop) `{∀ x, Decision (P x)}
    (l : list A) :
  (∀ x, x ∈ l → ¬ P x) → filter P l = [].
Proof.
  intros Hno. destruct (filter P l) as [|x l'] eqn:E; [done|].
  assert (Hx : x ∈ filter P l) by (rewrite E; left).
  apply list_elem_of_filter in Hx as [HP Hx]. by destruct (Hno x Hx).
Qed.

Section MatchThenCancel.
Variable haversine_km : Q → Q → Q → Q → Q.
Variable settings : Config.Settings.
Variable faults : nat → bool.

(** X24: matching and cancelling undo each other on the cabs.  When a ride
    is matched into a new group (no database operation failing) and then
    cancelled, the ride ends CANCELLED with no group, the new group ends
    INACTIVE with no seats and no luggage occupied, and every cab is as it
    was before the match: the cab taken for the group is available again. *)
Theorem match_then_cancel (pricing : Pricing.PricingEngine)
    (active_requests available_cabs : Z) (ride : Z * RideModel.t)
    (cell : string) (groups : list (Z * RideGroupModel.t))
    (gdata : Matcher.GData) (s : Matcher.CycleState) :
  (∀ n, faults n = false) →
  Forall (Matcher.rejects haversine_km settings (Matcher.session s) gdata
            ride.2) groups →
  rides (Matcher.session s) !! ride.1 = Some ride.2 →
  (∀ i r, rides (Matcher.session s) !! i = Some r →
          RideModel.ride_group_id r
          ≠ Some (next_id (ride_groups (Matcher.session s)))) →
  cabs (Matcher.session s) !! 0 = None →
  ∃ st' s' x d',
    Matcher.place_ride haversine_km settings faults pricing active_requests
      available_cabs ride cell (groups, gdata) s = (Ok st', s')
    ∧ cancel_ride ride.1 (Matcher.session s') = (Returns x, d')
    ∧ cabs d' = cabs (Matcher.session s)
    ∧ (∃ g, ride_groups d' !! next_id (ride_groups (Matcher.session s))
            = Some g
            ∧ RideGroupModel.status g = "INACTIVE"
            ∧ RideGroupModel.seats_occupied g = 0
            ∧ RideGroupModel.luggage_occupied g = 0)
    ∧ (∃ r', rides d' !! ride.1 = Some r'
             ∧ RideModel.status r' = CANCELLED
             ∧ RideModel.ride_group_id r' = None).
Proof.
  intros Hnf Hall Hrow Hfk Hzero.
  pose proof (place_ride_new haversine_km settings faults pricing
                active_requests available_cabs ride cell groups gdata s Hall)
    as Hnew.
  apply (step_to_returns _ _ _ _ Hnf) in Hnew
    as (st' & s' & Hrun & (_ & Hs & _) & _).
  set (d := Matcher.session s) in *.
  set (new_id := next_id (ride_groups d)) in *.
  set (price := Matcher.snapshot_price haversine_km pricing active_requests
                  available_cabs ride.2 1) in *.
  set (mr := Matcher.matched_ride new_id price ride.2).
  set (ng := Matcher.new_group_for cell ride.2 (head (get_available d))).
  assert (Hmr : rides (Matcher.session s') !! ride.1 = Some mr).
  { rewrite Hs. simpl. by rewrite lookup_alter_eq, Hrow. }
  assert (Hng : ride_groups (Matcher.session s') !! new_id = Some ng).
  { rewrite Hs. simpl. rewrite groups_with_new_group. apply lookup_insert_eq. }
  assert (Hpos : new_id ≠ 0) by (pose proof (next_id_positive (ride_groups d)); lia).
  assert (Hactive : ∀ d1, rides d1 = rides (Matcher.session s') →
            filter (λ r : Z * RideModel.t,
                      r.1 ≠ ride.1 ∧ RideModel.status r.2 ≠ CANCELLED)
              (get_rides_in_group new_id d1) = []).
  { intros d1 Hr1. apply filter_none. intros [i r] Hin [Hne _]. simpl in Hne.
    unfold get_rides_in_group in Hin.
    apply list_elem_of_filter in Hin as [Hg Hin]. simpl in Hg.
    apply elem_of_map_to_list in Hin. rewrite Hr1, Hs in Hin. simpl in Hin.
    rewrite lookup_alter_ne in Hin by done. by apply (Hfk i r). }
  exists st', s'.
  unfold cancel_ride. rewrite Hmr.
  destruct (decide _) as [Hn|_].
  { exfalso. apply Hn. apply cancellable. by right. }
  cbn [mr Matcher.matched_ride RideModel.set_price RideModel.set_ride_group_id
       RideModel.ride_group_id].
  destruct (decide (new_id = 0)); [done|]. rewrite Hng.
  eexists _, _. split; [done|]. split; [reflexivity|].
  unfold free_group. rewrite Hactive by done.
  assert (Hseats : Z.max 0 (RideGroupModel.seats_occupied ng
                            - RideModel.seats_requested mr) = 0)
    by (simpl; lia).
  assert (Hlug : Z.max 0 (RideGroupModel.luggage_occupied ng
                          - RideModel.luggage_count mr) = 0)
    by (simpl; lia).
  rewrite Hseats, Hlug.
  assert (Hcabs : cabs (Matcher.session s')
                  = match head (get_available d) with
                    | Some c => alter (λ x, CabModel.set_is_available x false)
                                  c.1 (cabs d)
                    | None => cabs d
                    end).
  { rewrite Hs. simpl. apply cabs_with_new_group. }
  subst ng.
  destruct (head (get_available d)) as [c|] eqn:Hhead.
  - change (RideGroupModel.cab_id (Matcher.new_group_for cell ride.2 (Some c)))
      with (Some c.1).
    assert (Hc : cabs d !! c.1 = Some c.2 ∧ CabModel.is_available c.2 = true).
    { apply head_Some in Hhead as [l' Hl].
      apply (CycleInvariants.available_elem d c.1 c.2).
      rewrite Hl, <- surjective_pairing. left. }
    destruct Hc as [Hc Hav].
    destruct (decide (c.1 = 0)) as [E0|_]; [congruence|].
    unfold get_cab_by_id. cbn [set_ride_groups cabs].
    rewrite Hcabs, lookup_alter_eq, Hc. cbn [fmap option_fmap option_map].
    cbn [set_rides set_cabs cabs ride_groups rides].
    split; [|split].
    + apply map_eq. intros k. destruct (decide (k = c.1)) as [->|Hne].
      * rewrite lookup_insert_eq, Hc. f_equal.
        destruct c.2 as [ms ml av]. simpl in *. by subst av.
      * rewrite lookup_insert_ne, lookup_alter_ne by done. done.
    + eexists. split; [apply lookup_insert_eq|done].
    + eexists. split; [apply lookup_insert_eq|done].
  - change (RideGroupModel.cab_id (Matcher.new_group_for cell ride.2 None))
      with (@None Z).
    cbn [set_rides set_cabs set_ride_groups cabs ride_groups rides].
    split; [by rewrite Hcabs|]. split.
    + eexists. split; [apply lookup_insert_eq|done].
    + eexists. split; [apply lookup_insert_eq|done].
Qed.

End MatchThenCancel.

Lemma match_then_cancel_witness :
  ∃ st' s' x d',
    Matcher.place_ride Examples.grid_km Config.default_settings
      Examples.no_faults
      (Matcher.engine_of_settings Config.default_settings) 3 1
      (2, Examples.pending_ride 0 0 6 0 5) "A" ([], ∅)
      (Matcher.initial (Matcher.database Examples.world_three)) = (Ok st', s')
    ∧ cancel_ride 2 (Matcher.session s') = (Returns x, d')
    ∧ cabs d' = cabs (Matcher.database Examples.world_three).
Proof.
  destruct (match_then_cancel Examples.grid_km Config.default_settings
              Examples.no_faults
              (Matcher.engine_of_settings Config.default_settings) 3 1
              (2, Examples.pending_ride 0 0 6 0 5) "A" [] ∅
              (Matcher.initial (Matcher.database Examples.world_three))
              (λ _, eq_refl) (Forall_nil_2 _) eq_refl)
    as (st' & s' & x & d' & H1 & H2 & H3 & _).
  - intros i r Hr. simpl in Hr.
    change (next_id _) with 1. intros Hg.
    apply elem_of_map_to_list in Hr.
    vm_compute in Hr.
    repeat (apply elem_of_cons in Hr as [Hr|Hr];
            [injection Hr as -> ->; discriminate|]).
    by apply elem_of_nil in Hr.
  - reflexivity.
  - by exists st', s', x, d'.
Defined.

End RouteExtras.

Module DistanceExtras.
Import Distance.
Local Open Scope R_scope.

Lemma sin_sqr_half_sym (x y : R) :
  (sin (radians (x - y) / 2)) ^ 2 = (sin (radians (y - x) / 2)) ^ 2.
Proof.
  replace (radians (x - y) / 2) with (- (radians (y - x) / 2))
    by (unfold radians; field).
  rewrite sin_neg. ring.
Qed.

(** X25: the great-circle distance from a point to itself is 0, and the
    distance from a to b is the distance from b to a. *)
Theorem haversine_zero_and_symmetric (lat1 lng1 lat2 lng2 : R) :
  haversine_km lat1 lng1 lat1 lng1 = 0
  ∧ haversine_km lat1 lng1 lat2 lng2 = haversine_km lat2 lng2 lat1 lng1.
Proof.
  unfold haversine_km. split.
  - replace (lat1 - lat1) with 0 by ring.
    replace (lng1 - lng1) with 0 by ring.
    replace (radians 0 / 2) with 0 by (unfold radians; field).
    rewrite sin_0.
    replace (0 ^ 2 + cos (radians lat1) * cos (radians lat1) * 0 ^ 2)
      with 0 by ring.
    rewrite sqrt_0, asin_0. ring.
  - rewrite (sin_sqr_half_sym lat2 lat1), (sin_sqr_half_sym lng2 lng1).
    by rewrite (Rmult_comm (cos (radians lat1))).
Qed.

End DistanceExtras.

Module StrategyExtras.
Import Pricing PricingFacts PricingSpec PricingExtras Strategies.

(** X26: how the three strategies compare on a fare that is not negative:
    surge pricing with a multiplier of at least 1 charges at least the
    standard fare, with multiplier 1 exactly the standard fare, and pooled
    pricing at any position from 1 up charges at most the surge fare rounded
    to two decimals. *)
Theorem strategies_compare (distance_km baseFare ratePerKm surge : Q)
    (position : Z) :
  1 ≤ position →
  (0 <= baseFare + distance_km * ratePerKm)%Q →
  (1 <= surge)%Q →
  (standard_calculate distance_km baseFare ratePerKm
   <= surge_calculate {| Strategies.surge_multiplier := surge |}
        distance_km baseFare ratePerKm)%Q
  ∧ (surge_calculate {| Strategies.surge_multiplier := 1 |}
       distance_km baseFare ratePerKm
     == standard_calculate distance_km baseFare ratePerKm)%Q
  ∧ (calculate (PoolDiscountPricing_init position surge)
       distance_km baseFare ratePerKm
     <= py_round (surge_calculate {| Strategies.surge_multiplier := surge |}
                    distance_km baseFare ratePerKm) 2)%Q.
Proof.
  intros Hp Hfare Hs. unfold standard_calculate, surge_calculate, calculate.
  rewrite discount_tier by done.
  cbn [Strategies.surge_multiplier Pricing.surge_multiplier
       PoolDiscountPricing_init].
  set (fare := (baseFare + distance_km * ratePerKm)%Q) in *.
  assert (H1 : (0 <= fare * (surge - 1))%Q)
    by (apply Qmult_le_0_compat; lra).
  split; [lra|]. split; [ring|].
  apply py_round_2_mono.
  destruct (discount_of_position_mono position position Hp ltac:(lia))
    as (Hd0 & _ & _).
  assert (H2 : (0 <= fare * surge * discount_of_position position)%Q).
  { apply Qmult_le_0_compat; [|done]. apply Qmult_le_0_compat; lra. }
  lra.
Qed.

Lemma strategies_compare_witness :
  (calculate (PoolDiscountPricing_init 2 2) 10 50 15
   <= py_round (surge_calculate {| Strategies.surge_multiplier := 2 |}
                  10 50 15) 2)%Q.
Proof.
  exact (proj2 (proj2 (strategies_compare 10 50 15 2 2 ltac:(lia)
                         ltac:(by vm_compute) ltac:(by vm_compute)))).
Defined.

End StrategyExtras.

Module ConsistencyExtras.
Import Repositories Matcher Candidates Routes.

Lemma consistent_insert_ungrouped (d : Db) (i : Z) (r : RideModel.t) :
  RideModel.ride_group_id r = None →
  consistent d → consistent (set_rides d (<[i := r]> (rides d))).
Proof.
  intros Hnone [Hfk Hpend]. split.
  - intros j rj k Hj Hk. cbn [set_rides rides ride_groups] in *.
    rewrite lookup_insert in Hj. case_decide.
    + injection Hj as <-. congruence.
    + by apply (Hfk j rj k).
  - intros j rj Hj Hst. cbn [set_rides rides] in Hj.
    rewrite lookup_insert in Hj. case_decide.
    + by injection Hj as <-.
    + by apply (Hpend j rj).
Qed.

Lemma consistent_groups_grow (d d1 : Db) :
  rides d1 = rides d →
  (∀ k, is_Some (ride_groups d !! k) → is_Some (ride_groups d1 !! k)) →
  consistent d → consistent d1.
Proof.
  intros Hr Hg [Hfk Hpend]. split.
  - intros j rj k Hj Hk. rewrite Hr in Hj. apply Hg. by apply (Hfk j rj k).
  - intros j rj Hj Hst. rewrite Hr in Hj. by apply (Hpend j rj).
Qed.

Lemma create_ride_consistent (body : RideCreateRequest) (now : Z) (d : Db) :
  consistent d → consistent (create_ride body now d).2.
Proof.
  intros Hd.
  assert (Hrow : consistent (create_ride_row body PENDING now d).2).
  { unfold create_ride_row.
    destruct (decide (user_id body ∉ users d)); [done|].
    destruct (decide (key_in_use _ d)); [done|].
    by apply consistent_insert_ungrouped. }
  unfold create_ride. destruct (idempotency_key body) as [k|]; [|done].
  destruct (decide (k = "")); [done|].
  by destruct (get_by_idempotency_key k d) as [[existing|]|e].
Qed.

Lemma cancel_ride_consistent (ride_id : Z) (d : Db) :
  consistent d → consistent (cancel_ride ride_id d).2.
Proof.
  intros Hd. unfold cancel_ride.
  destruct (rides d !! ride_id) as [ride|]; [|done].
  destruct (decide _); [done|]. cbn [snd].
  apply consistent_insert_ungrouped; [done|].
  destruct (RideModel.ride_group_id ride) as [gid|]; [|done].
  destruct (decide (gid = 0)); [done|].
  destruct (ride_groups d !! gid) as [group|]; [|done].
  apply (consistent_groups_grow d); [apply RouteExtras.rides_free_group| |done].
  intros k Hk.
  destruct (RouteExtras.groups_free_group ride_id ride gid group d)
    as (st & -> & _).
  rewrite lookup_insert. by case_decide.
Qed.

Section Cycle.
Variable haversine_km : Q → Q → Q → Q → Q.
Variable latlng_to_cell : Q → Q → Z → string.
Variable settings : Config.Settings.
Variable faults : nat → bool.

#[local] Abbreviation run_matching_cycle :=
  (run_matching_cycle haversine_km latlng_to_cell settings faults).

Lemma cycle_consistent (uuid : string) (w : World) :
  (∀ n, faults n = false) →
  consistent (database w) →
  consistent (database (run_matching_cycle uuid w).2).
Proof.
  intros Hnf Hd. set (d := database w).
  destruct (redis w !! "lock:matching_engine") as [tok|] eqn:El.
  { rewrite CycleExtras.cycle_skipped_when_held by eauto. done. }
  destruct (decide (get_pending_rides d = [])) as [Hp|Hne].
  { rewrite CycleExtras.cycle_noop_without_pending by done. done. }
  destruct Hd as [Hfk Hpend].
  set (start := after_op (after_op (initial d) d) d).
  pose proof (MatcherSpec.bin_concat latlng_to_cell settings
                (get_pending_rides d)) as Hperm.
  assert (Hun : unplaced (session start)
                  (concat (bin latlng_to_cell settings
                             (get_pending_rides d)).*2 ++ [])).
  { rewrite app_nil_r. split.
    - rewrite Hperm. apply MatcherSpec.pending_NoDup.
    - intros [i r] Hin. rewrite Hperm in Hin.
      apply MatcherSpec.pending_elem in Hin as [Hrow Hst]. split; [done|].
      by apply (Hpend i r). }
  destruct (MatcherSpec.process_cells_run haversine_km settings faults
              (engine_of_settings settings)
              (Z.of_nat (length (get_pending_rides d))) (count_available d)
              _ _ start Hnf Hfk Hun)
    as (s3 & Hrun & Hfk3 & _ & _ & _).
  assert (Hres : session_block haversine_km latlng_to_cell settings faults
                   (initial (database w))
                 = (Ok None,
                    {| session := session s3; committed := session s3;
                       ops := S (ops s3); matched := matched s3 |})).
  { fold d.
    rewrite (MatcherSpec.session_block_run _ _ _ _ d Hnf Hne).
    fold start. rewrite Hrun, MatcherSpec.bind_run.
    unfold Matcher.commit. by rewrite Hnf. }
  destruct (MatcherSpec.session_block_outcome _ _ _ _ _ _ _ Hres)
    as (_ & _ & T & HT & Hr & _). cbn [session] in Hr.
  rewrite (MatcherSpec.run_cycle_unfold _ _ _ _ uuid w _ _ Hres). cbv zeta.
  rewrite LockSpec.acquire_free by done. cbn [fst snd database committed].
  split; [done|]. intros i r Hi Hst. exfalso. rewrite Hr in Hi.
  destruct (decide (i ∈ (map match_ride T).*1)) as [Hin|Hnin].
  - apply list_elem_of_fmap in Hin as ([i' r0] & Hi' & Hin).
    simpl in Hi'. subst i'.
    assert (Hrow : rides (database w) !! i = Some r0).
    { rewrite HT in Hin. by apply MatcherSpec.pending_elem in Hin as [? _]. }
    destruct (MatcherSpec.replay_matched haversine_km
                (engine_of_settings settings)
                (Z.of_nat (length (get_pending_rides (database w))))
                (count_available (database w)) T (rides (database w)) i r0)
      as (gid & pos & Hm); [|done|done|].
    { rewrite HT. apply MatcherSpec.pending_NoDup. }
    rewrite Hm in Hi. injection Hi as <-. simpl in Hst. discriminate.
  - rewrite MatcherSpec.replay_other in Hi by done.
    apply Hnin. apply list_elem_of_fmap. exists (i, r). split; [done|].
    rewrite HT. by apply MatcherSpec.pending_elem.
Qed.

(** X27: the three operations keep the rows consistent.  On rows whose
    rides refer only to stored groups and whose PENDING rides have no
    group, the same holds of the rows that the handler [create_ride]
    leaves, of the rows that [cancel_ride] leaves, and of the rows stored
    after a matching cycle in which no database operation fails, whether
    the cycle got the lock or not. *)
Theorem consistency_kept (d : Db) :
  consistent d →
  (∀ body now, consistent (create_ride body now d).2)
  ∧ (∀ ride_id, consistent (cancel_ride ride_id d).2)
  ∧ ((∀ n, faults n = false) →
     ∀ uuid keyspace,
       consistent
         (database (run_matching_cycle uuid
                      {| redis := keyspace; database := d |}).2)).
Proof.
  intros Hd. split; [|split].
  - intros body now. by apply create_ride_consistent.
  - intros ride_id. by apply cancel_ride_consistent.
  - intros Hnf uuid keyspace. by apply cycle_consistent.
Qed.

End Cycle.

Lemma consistency_kept_witness :
  consistent (cancel_ride 9 Examples.db_ride_in_group).2.
Proof.
  refine (proj1 (proj2 (consistency_kept Examples.grid_km Examples.band_cell
                          Config.default_settings Examples.no_faults
                          Examples.db_ride_in_group _)) 9).
  split.
  - intros i r k Hi Hk. simpl in Hi.
    apply lookup_singleton_Some in Hi as [_ <-].
    injection Hk as <-. by eexists.
  - intros i r Hi Hst. simpl in Hi.
    apply lookup_singleton_Some in Hi as [_ <-]. discriminate.
Defined.

End ConsistencyExtras.
